(** * Quax / PsiJax integral engine: a shallow embedding and its properties

    The development follows three source files of the repository:

    - [Integrals]: [old_stuff/.../2_geom_integrals_E/integrals.py], the naive
      single-primitive s-orbital kernels and their vectorised form (torch);
    - [FastIntegrals]: [psijax/fast_integrals.py], the vectorised s-orbital
      fast path written with jax.numpy;
    - [Oei]: [PsiJax/psijax/psijax/integrals/oei.py], the general one-electron
      engine (loops over primitive duets, Taketa-Hunzinaga-Oohata kernels).

    Floating point numbers are idealised as real numbers ([R]); integer loop
    counters and angular momenta are [Z]; positions in an array are [nat],
    or [Z] where the source computes an index that could be negative. *)

From Stdlib Require Import Reals Machin Lra Lia ZArith List Bool Arith FinFun Permutation.
From Stdlib Require String.
Import ListNotations.

Open Scope Z_scope.

(** ** The [loops.Scope] state machine

    [for _ in s.while_range(lambda: cond): body] is a [while] loop over the
    mutable scope [s].  [None] means that the iteration budget [fuel] was
    used up before the condition became false. *)

Fixpoint while_range {S : Type} (fuel : nat) (cond : S -> bool)
    (body : S -> option S) (s : S) {struct fuel} : option S :=
  if cond s then
    match fuel with
    | O => None
    | Datatypes.S fuel' =>
        match body s with
        | Some s' => while_range fuel' cond body s'
        | None => None
        end
    end
  else Some s.

(** The outcome of a call as its caller sees it: a value, or an exception
    with its message. *)
Inductive outcome (A : Type) : Type :=
  | Returns (a : A)
  | Raises (msg : String.string).
Arguments Returns {A} _.
Arguments Raises {A} _.

(** The result of a loop that is known to finish within its budget. *)
Definition run {S : Type} (dflt : S) (o : option S) : S :=
  match o with Some s => s | None => dflt end.

(** [n, n-1, ..., 0], the values a counter takes in a loop
    [while c > -1: ...; c -= 1] started at [c = n]. *)
Definition countdown (n : Z) : list Z :=
  map (fun k => n - Z.of_nat k) (seq 0 (Z.to_nat (n + 1))).

(** [0, 1, ..., n-1], the values a counter takes in a loop
    [c = 0; while c < n: ...; c += 1]; also [np.arange(n)]. *)
Definition countup (n : Z) : list Z :=
  map Z.of_nat (seq 0 (Z.to_nat n)).

(** Sum of a list the way an accumulator builds it, left to right from 0. *)
Definition Rsum (l : list R) : R := fold_left Rplus l 0%R.

(** ** Arrays of jax.numpy *)

Definition zeros (n : nat) : list R := repeat 0%R n.

(** Position designated by an index [I] in an array of length [len] when
    writing: a negative index counts from the end, and an index that is
    still out of range designates nothing. *)
Definition norm_index (len : nat) (I : Z) : option nat :=
  let I' := if I <? 0 then I + Z.of_nat len else I in
  if (0 <=? I') && (I' <? Z.of_nat len) then Some (Z.to_nat I') else None.

Fixpoint add_at (n : nat) (v : R) (a : list R) : list R :=
  match a, n with
  | [], _ => []
  | x :: a', O => (x + v)%R :: a'
  | x :: a', Datatypes.S n' => x :: add_at n' v a'
  end.

(** [jax.ops.index_add(a, I, v)]: an update whose index is out of range is
    dropped (the array is returned unchanged, nothing is raised). *)
Definition index_add (a : list R) (I : Z) (v : R) : list R :=
  match norm_index (length a) I with
  | Some n => add_at n v a
  | None => a
  end.

(** [a[I]] on a jax array: a negative index counts from the end and an
    out-of-range index is clamped to the nearest valid position. *)
Definition jnp_get {X : Type} (d : X) (a : list X) (I : Z) : X :=
  let len := Z.of_nat (length a) in
  let I' := if I <? 0 then I + len else I in
  nth (Z.to_nat (Z.max 0 (Z.min I' (len - 1)))) a d.

(** Two-dimensional arrays, row by row. *)
Definition matrix : Type := list (list R).

Definition zeros2 (n m : nat) : matrix := repeat (zeros m) n.

Fixpoint update_row (n : nat) (f : list R -> list R) (M : matrix) : matrix :=
  match M, n with
  | [], _ => []
  | r :: M', O => f r :: M'
  | r :: M', Datatypes.S n' => r :: update_row n' f M'
  end.

(** [jax.ops.index_add(M, jax.ops.index[I, J], v)]. *)
Definition index_add2 (M : matrix) (I J : Z) (v : R) : matrix :=
  match norm_index (length M) I with
  | Some n => update_row n (fun r => index_add r J v) M
  | None => M
  end.

Definition mat_get (M : matrix) (i j : nat) : R := nth j (nth i M []) 0%R.

(** ** Cartesian vectors (arrays of shape [(3,)]) *)

Record vec3 : Type := mkV { vx : R; vy : R; vz : R }.

Definition vzero : vec3 := mkV 0 0 0.
Definition vadd (a b : vec3) : vec3 :=
  mkV (vx a + vx b) (vy a + vy b) (vz a + vz b).
Definition vsub (a b : vec3) : vec3 :=
  mkV (vx a - vx b) (vy a - vy b) (vz a - vz b).
Definition vscale (c : R) (a : vec3) : vec3 :=
  mkV (c * vx a) (c * vy a) (c * vz a).
Definition vdiv (a : vec3) (c : R) : vec3 :=
  mkV (vx a / c) (vy a / c) (vz a / c).
Definition vdot (a b : vec3) : R :=
  (vx a * vx b + vy a * vy b + vz a * vz b)%R.
(** [a[m]] for [m] in [0, 1, 2]. *)
Definition vget (a : vec3) (m : nat) : R :=
  match m with O => vx a | 1%nat => vy a | _ => vz a end.

(** ** The error function

    [torch.erf] and [jax.scipy.special.erf] are library functions; they are
    taken to be the error function itself,
    [erf x = 2/sqrt(pi) * integral of exp(-t^2) for t from 0 to x]. *)

Definition gauss (t : R) : R := exp (- (t * t)).

Lemma gauss_continuity : continuity gauss.
Proof.
  unfold gauss.
  apply (continuity_comp (fun t => (- (t * t))%R) exp).
  - apply continuity_opp.
    apply continuity_mult; apply derivable_continuous, derivable_id.
  - apply derivable_continuous, derivable_exp.
Qed.

Lemma gauss_integrable (a b : R) : Riemann_integrable gauss a b.
Proof.
  destruct (Rle_dec a b) as [H|H].
  - apply continuity_implies_RiemannInt; [exact H|].
    intros x _. apply gauss_continuity.
  - apply RiemannInt_P1. apply continuity_implies_RiemannInt; [lra|].
    intros x _. apply gauss_continuity.
Defined.

Definition erf (x : R) : R :=
  (2 / sqrt PI * RiemannInt (gauss_integrable 0 x))%R.

(** ** Dense arrays of numpy / torch

    An array is its shape together with its entries, read at a list of
    positions (one per axis).  Only in-range positions are meaningful. *)

Record ndarray : Type := mkND { shape : list nat; nd_at : list nat -> R }.

(** Array whose entry at [idx] is [f idx]. *)
Definition elementwise (sh : list nat) (f : list nat -> R) : ndarray :=
  mkND sh f.

Definition nd_map (f : R -> R) (A : ndarray) : ndarray :=
  mkND (shape A) (fun idx => f (nd_at A idx)).

Definition nd_map2 (f : R -> R -> R) (A B : ndarray) : ndarray :=
  mkND (shape A) (fun idx => f (nd_at A idx) (nd_at B idx)).

(** A vector of exponents as an array of shape [(n,)]. *)
Definition of_list (l : list R) : ndarray :=
  mkND [length l]
       (fun idx => match idx with [i] => nth i l 0%R | _ => 0%R end).

(** A geometry as an array of shape [(N, 3)]. *)
Definition of_rows (g : list vec3) : ndarray :=
  mkND [length g; 3%nat]
       (fun idx => match idx with
                   | [a; m] => vget (nth a g vzero) m
                   | _ => 0%R
                   end).

(** [np.repeat(A, k, axis=0)]: row [r] of the result is row [r // k]. *)
Definition np_repeat0 (A : ndarray) (k : nat) : ndarray :=
  mkND (match shape A with
        | n :: rest => (n * k)%nat :: rest
        | [] => []
        end)
       (fun idx => match idx with
                   | r :: rest => nd_at A ((r / k)%nat :: rest)
                   | [] => 0%R
                   end).

(** [np.broadcast_to(A, new)] and [A.expand(new)]: the shapes are aligned on
    the right; an axis of [A] must have the new length or length 1 (it is
    then read at position 0); anything else is an error. *)
Fixpoint broadcastable (old new : list nat) : bool :=
  match old, new with
  | [], [] => true
  | o :: old', n :: new' =>
      ((o =? n)%nat || (o =? 1)%nat) && broadcastable old' new'
  | _, _ => false
  end.

Definition broadcast_to (A : ndarray) (new : list nat) : option ndarray :=
  let lead := (length new - length (shape A))%nat in
  if (length (shape A) <=? length new)%nat
     && broadcastable (shape A) (skipn lead new)
  then Some (mkND new (fun idx =>
         nd_at A (map (fun oi => if (fst oi =? 1)%nat then O else snd oi)
                      (combine (shape A) (skipn lead idx)))))
  else None.

(** Position of axis [m] in the permutation [axes]. *)
Fixpoint index_of (m : nat) (axes : list nat) : nat :=
  match axes with
  | [] => O
  | a :: rest => if (a =? m)%nat then O else Datatypes.S (index_of m rest)
  end.

(** [np.transpose(A, axes)] and [A.permute(axes)]: axis [n] of the result is
    axis [axes[n]] of [A], so the entry at [idx] is the entry of [A] at [j]
    with [j[axes[n]] = idx[n]]. *)
Definition np_transpose (axes : list nat) (A : ndarray) : ndarray :=
  mkND (map (fun a => nth a (shape A) O) axes)
       (fun idx => nd_at A (map (fun m => nth (index_of m axes) idx O)
                                (seq 0 (length axes)))).

(** Sum over the cartesian (last) axis: [f 0 + f 1 + f 2]. *)
Definition sum3 (f : nat -> R) : R := (f 0%nat + f 1%nat + f 2%nat)%R.

(** [einsum('...m,...m->...', A, B)] for a last axis of length 3. *)
Definition einsum_dot_last (A B : ndarray) : ndarray :=
  mkND (removelast (shape A))
       (fun idx => sum3 (fun m => (nd_at A (idx ++ [m]) * nd_at B (idx ++ [m]))%R)).

(** [einsum('...,...m->...m', A, B)]: [A] scales the last axis of [B]. *)
Definition einsum_scale_last (A B : ndarray) : ndarray :=
  mkND (shape B)
       (fun idx => (nd_at A (removelast idx) * nd_at B idx)%R).

(** [einsum('...m,...->...m', B, A)]. *)
Definition einsum_last_scale (B A : ndarray) : ndarray :=
  mkND (shape B)
       (fun idx => (nd_at B idx * nd_at A (removelast idx))%R).

(** [einsum('i,j,k,l', a, b, c, d)]. *)
Definition einsum_outer4 (a b c d : ndarray) : ndarray :=
  mkND (shape a ++ shape b ++ shape c ++ shape d)
       (fun idx => match idx with
                   | [i; j; k; l] =>
                       (nd_at a [i] * nd_at b [j] * nd_at c [k] * nd_at d [l])%R
                   | _ => 0%R
                   end).

(** [np.outer(a, b)] and [torch.ger(a, b)]. *)
Definition np_outer (a b : ndarray) : ndarray :=
  mkND (shape a ++ shape b)
       (fun idx => match idx with
                   | [i; j] => (nd_at a [i] * nd_at b [j])%R
                   | _ => 0%R
                   end).

(** [einsum('i,ij->ij', a, B)]: row [i] of [B] scaled by [a[i]]; the two
    axes labelled [i] must have the same length. *)
Definition einsum_i_ij (a B : ndarray) : option ndarray :=
  match shape a, shape B with
  | [n], [n'; m] =>
      if (n =? n')%nat then
        Some (mkND [n; m]
                (fun idx => match idx with
                            | [i; j] => (nd_at a [i] * nd_at B [i; j])%R
                            | _ => 0%R
                            end))
      else None
  | _, _ => None
  end.

(** Length of an axis after broadcasting two axes of lengths [a] and [b]
    against each other: they must be equal, or one of them must be 1. *)
Definition broadcast_len (a b : nat) : option nat :=
  if (a =? b)%nat then Some a
  else if (a =? 1)%nat then Some b
  else if (b =? 1)%nat then Some a
  else None.

(** ** [integrals.py]: s-orbital kernels written with torch *)

Module Integrals.

Local Open Scope R_scope.

(** [gp]: Gaussian product theorem, centre and coefficient of the product. *)
Definition gp (aa bb : R) (A B : vec3) : vec3 * R :=
  let R_ := vdiv (vadd (vscale aa A) (vscale bb B)) (aa + bb) in
  let c := exp (vdot (vsub A B) (vsub A B) * (- aa * bb / (aa + bb))) in
  (R_, c).

(** [normalize]: normalisation constant of an s primitive. *)
Definition normalize (aa : R) : R := Rpower (2 * aa / PI) (3 / 4).

(** The test [arg < 1e-8] of [torchboys]. *)
Definition torchboys_small (arg : R) : bool :=
  if Rlt_dec arg 1e-8 then true else false.

(** [torchboys]: series below the threshold, error-function form above. *)
Definition torchboys (nu arg : R) : R :=
  if torchboys_small arg
  then 1 / (2 * nu + 1) - arg / (2 * nu + 3)
  else erf (sqrt arg) * sqrt PI / (2 * sqrt arg).

(** [boys]: the alternative expansion ("not exact"). *)
Definition boys (nu arg : R) : R :=
  0.5 * exp (- arg) * (1 / (nu + 0.5)) *
  (1 + (arg / (nu + 1.5)) *
  (1 + (arg / (nu + 2.5)) *
  (1 + (arg / (nu + 3.5)) *
  (1 + (arg / (nu + 4.5)) *
  (1 + (arg / (nu + 5.5)) *
  (1 + (arg / (nu + 6.5)) *
  (1 + (arg / (nu + 7.5)) *
  (1 + (arg / (nu + 8.5)) *
  (1 + (arg / (nu + 9.5)) *
  (1 + (arg / (nu + 10.5)) *
  (1 + (arg / (nu + 11.5))))))))))))).

(** [overlap]: two primitive s functions. *)
Definition overlap (aa bb : R) (A B : vec3) : R :=
  let Na := normalize aa in
  let Nb := normalize bb in
  let '(R_, c) := gp aa bb A B in
  Na * Nb * c * Rpower (PI / (aa + bb)) (3 / 2).

(** [kinetic]. *)
Definition kinetic (aa bb : R) (A B : vec3) : R :=
  let P := (aa * bb) / (aa + bb) in
  let ab := -1.0 * vdot (vsub A B) (vsub A B) in
  overlap aa bb A B * (3 * P + 2 * P * P * ab).

(** [potential]: attraction to one nucleus [atom] of charge [charge]. *)
Definition potential (aa bb : R) (A B atom : vec3) (charge : R) : R :=
  let g := aa + bb in
  let '(P, c) := gp aa bb A B in
  let arg := g * vdot (vsub P atom) (vsub P atom) in
  let Na := normalize aa in
  let Nb := normalize bb in
  let F := torchboys 0.0 arg in
  - charge * F * Na * Nb * c * 2 * PI / g.

(** [eri]: one two-electron integral over four s functions. *)
Definition eri (aa bb cc dd : R) (A B C D : vec3) : R :=
  let g1 := aa + bb in
  let g2 := cc + dd in
  let Rp := vdiv (vadd (vscale aa A) (vscale bb B)) (aa + bb) in
  let tmpc1 := vdot (vsub A B) (vsub A B) * ((- aa * bb) / (aa + bb)) in
  let c1 := exp tmpc1 in
  let Rq := vdiv (vadd (vscale cc C) (vscale dd D)) (cc + dd) in
  let tmpc2 := vdot (vsub C D) (vsub C D) * ((- cc * dd) / (cc + dd)) in
  let c2 := exp tmpc2 in
  let Na := normalize aa in
  let Nb := normalize bb in
  let Nc := normalize cc in
  let Nd := normalize dd in
  let delta := 1 / (4 * g1) + 1 / (4 * g2) in
  let arg := vdot (vsub Rp Rq) (vsub Rp Rq) / (4 * delta) in
  let F := torchboys 0.0 arg in
  F * Na * Nb * Nc * Nd * c1 * c2 * 2 * PI ^ 2 / (g1 * g2) * sqrt (PI / (g1 + g2)).

(** [geom.repeat_interleave(nbf_per_atom, dim=0)]: row [a] is repeated
    [nbf_per_atom[a]] times; a single count applies to every row; any other
    number of counts is an error. *)
Definition repeat_interleave (geom : list vec3) (nbf_per_atom : list nat)
    : option (list vec3) :=
  if (length nbf_per_atom =? length geom)%nat then
    Some (flat_map (fun gc => repeat (fst gc) (snd gc))
                   (combine geom nbf_per_atom))
  else match nbf_per_atom with
       | [c] => Some (flat_map (fun g => repeat g c) geom)
       | _ => None
       end.

(** [vectorized_tei]: all two-electron integrals over s functions at once.
    [G] is built by successive in-place multiplications. *)
Definition vectorized_tei (basis : list R) (geom : list vec3)
    (nbf_per_atom : list nat) : option ndarray :=
  let nbf := length basis in
  let sh := [nbf; nbf; nbf; nbf] in
  match repeat_interleave geom nbf_per_atom with
  | None => None
  | Some centers_rows =>
  let centers := of_rows centers_rows in
  let norm := nd_map (fun b => Rpower (2 * b / PI) (3 / 4)) (of_list basis) in
  let normtensor := einsum_outer4 norm norm norm norm in
  match broadcast_to (of_list basis) sh,
        broadcast_to centers (sh ++ [3%nat]) with
  | Some tmp1, Some tmp2 =>
    let aa_plus_bb :=
      nd_map2 Rplus (np_transpose [0; 3; 1; 2]%nat tmp1)
                    (np_transpose [3; 0; 1; 2]%nat tmp1) in
    let cc_plus_dd := np_transpose [3; 2; 0; 1]%nat aa_plus_bb in
    let aa_times_bb :=
      nd_map2 Rmult (np_transpose [0; 3; 1; 2]%nat tmp1)
                    (np_transpose [3; 0; 1; 2]%nat tmp1) in
    let AminusB :=
      nd_map2 Rminus (np_transpose [0; 3; 1; 2; 4]%nat tmp2)
                     (np_transpose [3; 0; 1; 2; 4]%nat tmp2) in
    let contract_AminusB := einsum_dot_last AminusB AminusB in
    let c1 :=
      elementwise sh (fun idx =>
        exp (nd_at contract_AminusB idx * - nd_at aa_times_bb idx
             / nd_at aa_plus_bb idx)) in
    let c2 := np_transpose [2; 3; 0; 1]%nat c1 in
    let weighted_centers := einsum_scale_last tmp1 tmp2 in
    let tmpAB :=
      nd_map2 Rplus (np_transpose [0; 3; 1; 2; 4]%nat weighted_centers)
                    (np_transpose [3; 0; 1; 2; 4]%nat weighted_centers) in
    let tmpCD := np_transpose [2; 3; 0; 1; 4]%nat tmpAB in
    let Rp_minus_Rq :=
      nd_map2 Rminus
        (einsum_last_scale tmpAB (nd_map (fun x => 1 / x) aa_plus_bb))
        (einsum_last_scale tmpCD (nd_map (fun x => 1 / x) cc_plus_dd)) in
    let boys_arg0 := einsum_dot_last Rp_minus_Rq Rp_minus_Rq in
    let boys_arg :=
      elementwise sh (fun idx =>
        sqrt (Rmax 1e-12
                (nd_at boys_arg0 idx
                 / (1 / nd_at aa_plus_bb idx + 1 / nd_at cc_plus_dd idx)))) in
    Some (elementwise sh (fun idx =>
      1 * nd_at normtensor idx
        * (2 * PI ^ 2)
        * (1 / (nd_at aa_plus_bb idx * nd_at cc_plus_dd idx))
        * sqrt (PI / (nd_at aa_plus_bb idx + nd_at cc_plus_dd idx))
        * nd_at c1 idx
        * nd_at c2 idx
        * 0.8862269254527580
        / nd_at boys_arg idx
        * erf (nd_at boys_arg idx)))
  | _, _ => None
  end
  end.

(** The masked evaluation of the Boys function inside [vectorized_oei]:
    [mask1 = boys_arg <= 1e-8], [mask2 = boys_arg > 1e-8], and the entries
    of [F] after the two masked assignments. *)
Definition mask1 (x : R) : bool := if Rle_dec x 1e-8 then true else false.
Definition mask2 (x : R) : bool := if Rgt_dec x 1e-8 then true else false.

Definition F_masked (x : R) : R :=
  let F0 := 0 in
  let F1 := if mask1 x then 1 - x / 3 else F0 in
  if mask2 x then erf (sqrt x) * sqrt PI / (2 * sqrt x) else F1.

(** [vectorized_oei]: overlap, kinetic and potential matrices over s
    functions.  The charges, of shape [(C,)], are broadcast against the atom
    axis of [F], which is then summed away. *)
Definition vectorized_oei (basis : list R) (geom : list vec3)
    (nbf_per_atom : list nat) (charge_per_atom : list R)
    : option (ndarray * ndarray * ndarray) :=
  let nbf := length basis in
  let natoms := length geom in
  match repeat_interleave geom nbf_per_atom with
  | None => None
  | Some centers_rows =>
  let centers := of_rows centers_rows in
  let norm := nd_map (fun b => Rpower (2 * b / PI) (3 / 4)) (of_list basis) in
  let normtensor := np_outer norm norm in
  let aa_times_bb := np_outer (of_list basis) (of_list basis) in
  match broadcast_to (of_list basis) [nbf; nbf],
        broadcast_to centers [nbf; nbf; 3%nat],
        einsum_i_ij (of_list basis) centers with
  | Some bb2, Some tmpA, Some aatimesA =>
    let aa_plus_bb := nd_map2 Rplus bb2 (np_transpose [1; 0]%nat bb2) in
    let term := nd_map (fun x => Rpower (PI / x) (3 / 2)) aa_plus_bb in
    let AminusB := nd_map2 Rminus tmpA (np_transpose [1; 0; 2]%nat tmpA) in
    let AmBAmB := einsum_dot_last AminusB AminusB in
    let coeff :=
      elementwise [nbf; nbf] (fun idx =>
        exp (nd_at AmBAmB idx
             * (- nd_at aa_times_bb idx / nd_at aa_plus_bb idx))) in
    let S_ :=
      elementwise [nbf; nbf] (fun idx =>
        nd_at normtensor idx * nd_at coeff idx * nd_at term idx) in
    let P := nd_map2 Rdiv aa_times_bb aa_plus_bb in
    let T :=
      elementwise [nbf; nbf] (fun idx =>
        nd_at S_ idx
        * (3 * nd_at P idx
           + 2 * nd_at P idx * nd_at P idx * - nd_at AmBAmB idx)) in
    (* aatimesA[:,None,:] + aatimesA[None,:,:] *)
    let numerator :=
      elementwise [nbf; nbf; 3%nat] (fun idx =>
        match idx with
        | [i; j; m] => nd_at aatimesA [i; m] + nd_at aatimesA [j; m]
        | _ => 0
        end) in
    let R_ :=
      einsum_last_scale numerator (nd_map (fun x => 1 / x) aa_plus_bb) in
    match broadcast_to R_ (natoms :: shape R_),
          broadcast_to (of_rows geom) [nbf; nbf; natoms; 3%nat] with
    | Some R_per_atom, Some geom_b =>
      let expanded_geom := np_transpose [2; 1; 0; 3]%nat geom_b in
      let Rminusgeom := nd_map2 Rminus R_per_atom expanded_geom in
      let contracted := einsum_dot_last Rminusgeom Rminusgeom in
      (* einsum('ijk,jk->ijk', contracted, aa_plus_bb) *)
      let boys_arg :=
        elementwise [natoms; nbf; nbf] (fun idx =>
          nd_at contracted idx * nd_at aa_plus_bb (tl idx)) in
      let F := nd_map F_masked boys_arg in
      let C := length charge_per_atom in
      match broadcast_len C natoms with
      | Some rows =>
        let Fcharge (a : nat) (rest : list nat) : R :=
          - nth (if (C =? 1)%nat then O else a) charge_per_atom 0
          * nd_at F ((if (natoms =? 1)%nat then O else a) :: rest) in
        let Ffinal :=
          elementwise [nbf; nbf] (fun idx =>
            Rsum (map (fun a => Fcharge a idx) (seq 0 rows))) in
        let V :=
          elementwise [nbf; nbf] (fun idx =>
            nd_at Ffinal idx * nd_at normtensor idx * nd_at coeff idx
            * 2 * PI / nd_at aa_plus_bb idx) in
        Some (S_, T, V)
      | None => None
      end
    | _, _ => None
    end
  | _, _, _ => None
  end
  end.

(** [nuclear_repulsion]: "hard coded for H2", both charges are 1. *)
Definition nuclear_repulsion (atom1 atom2 : vec3) : R :=
  let Za := 1.0 in
  let Zb := 1.0 in
  Za * Zb / sqrt (vdot (vsub atom1 atom2) (vsub atom1 atom2)).

(** [benchmark_tei]: the vectorised integrals of the basis placed on each of
    two atoms. *)
Definition benchmark_tei (basis : list R) (geom : list vec3) : option ndarray :=
  let full_basis := basis ++ basis in
  let nbf_per_atom := [length basis; length basis] in
  vectorized_tei full_basis geom nbf_per_atom.

End Integrals.

(** ** [fast_integrals.py]: the vectorised s-orbital path (jax.numpy) *)

Module FastIntegrals.

Local Open Scope R_scope.

Notation "'do' x <- e ; k" :=
  (match e with Some x => k | None => None end)
  (at level 10, x name, e at level 100, k at level 200, only parsing).

(** The two masks of [tei_finish] and [oei_finish]: [mask1 = boys_arg <= 1e-8]
    and [mask2 = boys_arg > 1e-8]. *)
Definition mask1 (x : R) : bool := if Rle_dec x 1e-8 then true else false.
Definition mask2 (x : R) : bool := if Rgt_dec x 1e-8 then true else false.

(** The entries of [F] after the two masked [index_update]s: the entries
    under [mask1] receive [1 - x/3], those under [mask2] the error-function
    form, the others keep the initial 0. *)
Definition F_masked (x : R) : R :=
  let F0 := 0 in
  let F1 := if mask1 x then 1 - x / 3 else F0 in
  if mask2 x then erf (sqrt x) * sqrt PI / (2 * sqrt x) else F1.

(** [tei_setup]. *)
Definition tei_setup (geom : list vec3) (basis : list R) (nbf_per_atom : nat)
    : option (ndarray * ndarray) :=
  let nbf := length basis in
  let sh := [nbf; nbf; nbf; nbf] in
  let centers := np_repeat0 (of_rows geom) 20 in
  let norm := nd_map (fun b => Rpower (2 * b / PI) (3 / 4)) (of_list basis) in
  let normtensor := einsum_outer4 norm norm norm norm in
  do tmp1 <- broadcast_to (of_list basis) sh;
  let aa_plus_bb :=
    nd_map2 Rplus (np_transpose [0; 3; 1; 2]%nat tmp1)
                  (np_transpose [3; 0; 1; 2]%nat tmp1) in
  let cc_plus_dd := np_transpose [2; 3; 0; 1]%nat aa_plus_bb in
  let aa_times_bb :=
    nd_map2 Rmult (np_transpose [0; 3; 1; 2]%nat tmp1)
                  (np_transpose [3; 0; 1; 2]%nat tmp1) in
  let cc_times_dd := np_transpose [2; 3; 0; 1]%nat aa_times_bb in
  do tmp2 <- broadcast_to centers (sh ++ [3%nat]);
  let AminusB :=
    nd_map2 Rminus (np_transpose [0; 3; 1; 2; 4]%nat tmp2)
                   (np_transpose [3; 0; 1; 2; 4]%nat tmp2) in
  let CminusD := np_transpose [2; 3; 0; 1; 4]%nat AminusB in
  let contract_AminusB := einsum_dot_last AminusB AminusB in
  let c1 :=
    elementwise sh (fun idx =>
      exp (nd_at contract_AminusB idx * - nd_at aa_times_bb idx
           / nd_at aa_plus_bb idx)) in
  let contract_CminusD := einsum_dot_last CminusD CminusD in
  let c2 :=
    elementwise sh (fun idx =>
      exp (nd_at contract_CminusD idx * - nd_at cc_times_dd idx
           / nd_at cc_plus_dd idx)) in
  let weighted_centers := einsum_scale_last tmp1 tmp2 in
  let tmpAB :=
    nd_map2 Rplus (np_transpose [0; 3; 1; 2; 4]%nat weighted_centers)
                  (np_transpose [3; 0; 1; 2; 4]%nat weighted_centers) in
  let tmpCD := np_transpose [2; 3; 0; 1; 4]%nat tmpAB in
  let Rp := einsum_last_scale tmpAB (nd_map (fun x => 1 / x) aa_plus_bb) in
  let Rq := einsum_last_scale tmpCD (nd_map (fun x => 1 / x) cc_plus_dd) in
  let delta :=
    elementwise sh (fun idx =>
      1 / (4 * nd_at aa_plus_bb idx) + 1 / (4 * nd_at cc_plus_dd idx)) in
  let RpmRq := nd_map2 Rminus Rp Rq in
  let boys_arg :=
    elementwise sh (fun idx =>
      nd_at (einsum_dot_last RpmRq RpmRq) idx / (4 * nd_at delta idx)) in
  let G :=
    elementwise sh (fun idx =>
      nd_at c1 idx * nd_at c2 idx * nd_at normtensor idx * 2 * PI ^ 2
      / (nd_at aa_plus_bb idx * nd_at cc_plus_dd idx)
      * sqrt (PI / (nd_at aa_plus_bb idx + nd_at cc_plus_dd idx))) in
  Some (G, boys_arg).

(** [tei_finish]. *)
Definition tei_finish (Gtmp boys_arg : ndarray) : ndarray :=
  let F := nd_map F_masked boys_arg in
  nd_map2 Rmult F Gtmp.

(** [oei_setup]. *)
Definition oei_setup (geom : list vec3) (basis : list R) (nbf_per_atom : nat)
    (charge_per_atom : list R)
    : option (ndarray * ndarray * ndarray * ndarray) :=
  let nbf := length basis in
  let natoms := length geom in
  let centers := np_repeat0 (of_rows geom) 20 in
  let norm := nd_map (fun b => Rpower (2 * b / PI) (3 / 4)) (of_list basis) in
  let normtensor := np_outer norm norm in
  let aa_times_bb := np_outer (of_list basis) (of_list basis) in
  do bb2 <- broadcast_to (of_list basis) [nbf; nbf];
  let aa_plus_bb := nd_map2 Rplus bb2 (np_transpose [1; 0]%nat bb2) in
  let term := nd_map (fun x => Rpower (PI / x) (3 / 2)) aa_plus_bb in
  do tmpA <- broadcast_to centers [nbf; nbf; 3%nat];
  let AminusB := nd_map2 Rminus tmpA (np_transpose [1; 0; 2]%nat tmpA) in
  let AmBAmB := einsum_dot_last AminusB AminusB in
  let coeff :=
    elementwise [nbf; nbf] (fun idx =>
      exp (nd_at AmBAmB idx
           * (- nd_at aa_times_bb idx / nd_at aa_plus_bb idx))) in
  let S_ :=
    elementwise [nbf; nbf] (fun idx =>
      nd_at normtensor idx * nd_at coeff idx * nd_at term idx) in
  let P := nd_map2 Rdiv aa_times_bb aa_plus_bb in
  let T :=
    elementwise [nbf; nbf] (fun idx =>
      nd_at S_ idx
      * (3 * nd_at P idx + 2 * nd_at P idx * nd_at P idx * - nd_at AmBAmB idx)) in
  (* einsum('i,ij->ij', basis, centers) *)
  let aatimesA :=
    elementwise [nbf; 3%nat] (fun idx =>
      match idx with
      | [i; m] => nth i basis 0 * nd_at centers [i; m]
      | _ => 0
      end) in
  (* aatimesA[:,None,:] + aatimesA[None,:,:] *)
  let numerator :=
    elementwise [nbf; nbf; 3%nat] (fun idx =>
      match idx with
      | [i; j; m] => nd_at aatimesA [i; m] + nd_at aatimesA [j; m]
      | _ => 0
      end) in
  let R_ := einsum_last_scale numerator (nd_map (fun x => 1 / x) aa_plus_bb) in
  do R_per_atom <- broadcast_to R_ (natoms :: shape R_);
  do geom_b <- broadcast_to (of_rows geom) ([nbf; nbf] ++ shape (of_rows geom));
  let expanded_geom := np_transpose [2; 1; 0; 3]%nat geom_b in
  let Rminusgeom := nd_map2 Rminus R_per_atom expanded_geom in
  let contracted := einsum_dot_last Rminusgeom Rminusgeom in
  (* einsum('ijk,jk->ijk', contracted, aa_plus_bb) *)
  let boys_arg :=
    elementwise [natoms; nbf; nbf] (fun idx =>
      nd_at contracted idx * nd_at aa_plus_bb (tl idx)) in
  let Vtmp :=
    elementwise [nbf; nbf] (fun idx =>
      nd_at normtensor idx * nd_at coeff idx * 2 * PI / nd_at aa_plus_bb idx) in
  Some (S_, T, Vtmp, boys_arg).

(** [oei_finish]: the charges, of shape [(C,)], are broadcast against the
    atom axis of [boys_arg], which is then summed away. *)
Definition oei_finish (Vtmp boys_arg : ndarray) (charge_per_atom : list R)
    : option ndarray :=
  let F := nd_map F_masked boys_arg in
  let natoms := nth 0 (shape F) O in
  let C := length charge_per_atom in
  if (C =? natoms)%nat || (C =? 1)%nat || (natoms =? 1)%nat then
    let Fcharge (a : nat) (rest : list nat) : R :=
      - nth (if (C =? 1)%nat then O else a) charge_per_atom 0
      * nd_at F ((if (natoms =? 1)%nat then O else a) :: rest) in
    let Ffinal :=
      elementwise (tl (shape F)) (fun idx =>
        Rsum (map (fun a => Fcharge a idx) (seq 0 (Nat.max C natoms)))) in
    Some (nd_map2 Rmult Vtmp Ffinal)
  else None.

(** [nuclear_repulsion]: "hard coded for H2", both charges are 1. *)
Definition nuclear_repulsion (atom1 atom2 : vec3) : R :=
  let Za := 1.0 in
  let Zb := 1.0 in
  Za * Zb / sqrt (vdot (vsub atom1 atom2) (vsub atom1 atom2)).

End FastIntegrals.

(** ** [oei.py]: the general one-electron engine *)

Module Oei.

(** The scope of [A_array]: the accumulator and the three counters. *)
Record A_scope (Acc : Type) : Type := mkA {
  sA : Acc;
  s_i : Z;
  s_r : Z;
  s_u : Z
}.
Arguments mkA {Acc} _ _ _ _.
Arguments sA {Acc} _.
Arguments s_i {Acc} _.
Arguments s_r {Acc} _.
Arguments s_u {Acc} _.

(** The loop nest of [A_array], innermost loop first, with the statement
    executed at each [(i, r, u)] abstracted as [visit]. *)
Definition A_u_loop {Acc : Type} (fuel : nat) (visit : Z -> Z -> Z -> Acc -> Acc)
    : A_scope Acc -> option (A_scope Acc) :=
  while_range fuel (fun s => s_u s >? -1)
    (fun s =>
       Some (mkA (visit (s_i s) (s_r s) (s_u s) (sA s))
                 (s_i s) (s_r s) (s_u s - 1))).

Definition A_r_loop {Acc : Type} (fuel : nat) (visit : Z -> Z -> Z -> Acc -> Acc)
    : A_scope Acc -> option (A_scope Acc) :=
  while_range fuel (fun s => s_r s >? -1)
    (fun s =>
       match A_u_loop fuel visit
               (mkA (sA s) (s_i s) (s_r s) ((s_i s - 2 * s_r s) / 2)) with
       | Some s' => Some (mkA (sA s') (s_i s') (s_r s' - 1) (s_u s'))
       | None => None
       end).

Definition A_i_loop {Acc : Type} (fuel : nat) (visit : Z -> Z -> Z -> Acc -> Acc)
    : A_scope Acc -> option (A_scope Acc) :=
  while_range fuel (fun s => s_i s >? -1)
    (fun s =>
       match A_r_loop fuel visit (mkA (sA s) (s_i s) (s_i s / 2) (s_u s)) with
       | Some s' => Some (mkA (sA s') (s_i s' - 1) (s_r s') (s_u s'))
       | None => None
       end).

Definition A_loops {Acc : Type} (fuel : nat) (visit : Z -> Z -> Z -> Acc -> Acc)
    (l1 l2 : Z) (A0 : Acc) : option Acc :=
  option_map sA (A_i_loop fuel visit (mkA A0 (l1 + l2) 0 0)).

(** The triples at which [A_array] evaluates [A_term], in order, when every
    loop is given [fuel] iterations. *)
Definition A_visited (fuel : nat) (l1 l2 : Z) : option (list (Z * Z * Z)) :=
  A_loops fuel (fun i r u tr => tr ++ [(i, r, u)]) l1 l2 [].

(** The same triples written as ranges. *)
Definition A_triples (l1 l2 : Z) : list (Z * Z * Z) :=
  flat_map (fun i =>
    flat_map (fun r =>
      map (fun u => (i, r, u)) (countdown ((i - 2 * r) / 2)))
      (countdown (i / 2)))
    (countdown (l1 + l2)).

(** The scope of [overlap_component]. *)
Record ov_scope : Type := mkOv { ov_total : R; ov_i : Z }.

(** The inner scope [S] of [potential]. *)
Record V_scope : Type := mkVs { V_total : R; V_I : Z; V_J : Z; V_K : Z }.

(** The scope of [oei_arrays]. *)
Record oei_scope : Type := mkOei {
  sS : matrix; sT : matrix; sV : matrix; s_a : Z; s_b : Z
}.

(** The arrays returned by [flatten_basis_data], one entry per primitive. *)
Record flat_basis : Type := mkBasis {
  coeffs : list R;
  exps : list R;
  atoms : list Z;
  ams : list Z;
  indices : list Z;
  dims : list Z
}.

(** Maximum angular momentum: hard coded. *)
Definition max_am : nat := 3.

(** [np.power(np.broadcast_to(v, (max_am+1, 3)).T, np.arange(max_am+1))]:
    one row per axis, holding the powers 0 .. [max_am] of the coordinate. *)
Definition pow_table (v : vec3) : list (list R) :=
  map (fun c => map (fun e => (c ^ e)%R) (seq 0 (max_am + 1)))
      [vx v; vy v; vz v].

Section WithTables.

Local Open Scope R_scope.

(** Imported from [integrals_utils], which is not among the sources: the
    binomial prefactor on scalar displacements, its variant on arrays of
    precomputed powers, the Boys function, the lookup tables, and the
    function listing the pairs of two index arrays.
    [factorials] and [double_factorials] stand for the reading of the table
    at an index, the way the source indexes them ([double_factorials] is
    also read at [-1]). *)
Variable binomial_prefactor : Z -> Z -> Z -> R -> R -> R.
Variable new_binomial_prefactor : Z -> Z -> Z -> list R -> list R -> R.
Variable boys : Z -> R -> R.
Variable factorials : Z -> R.
Variable double_factorials : Z -> R.
Variable am_leading_indices : list Z.
Variable angular_momentum_combinations : list (Z * Z * Z).
Variable cartesian_product : list Z -> list Z -> list (Z * Z).

(** *** [overlap_component] and [overlap] *)

(** The loop of [overlap_component]; the result is the final scope. *)
Definition overlap_component_scope (l1 l2 : Z) (PAx PBx : list R) (gamma : R)
    : ov_scope :=
  let K := (1 + (l1 + l2) / 2)%Z in
  let s0 := mkOv 0 0 in
  run s0
    (while_range (Z.to_nat K) (fun s => ov_i s <? K)
       (fun s =>
          Some (mkOv (ov_total s
                      + new_binomial_prefactor (2 * ov_i s) l1 l2 PAx PBx
                        * double_factorials (2 * ov_i s - 1)
                        / powerRZ (2 * gamma) (ov_i s))
                     (ov_i s + 1)))
       s0).

Definition overlap_component (l1 l2 : Z) (PAx PBx : list R) (gamma : R) : R :=
  ov_total (overlap_component_scope l1 l2 PAx PBx gamma).

Definition overlap (aa : R) (La : Z * Z * Z) (bb : R) (Lb : Z * Z * Z)
    (PA PB : list (list R)) (prefactor : R) : R :=
  let '(la, ma, na) := La in
  let '(lb, mb, nb) := Lb in
  let gamma := aa + bb in
  let prefactor := prefactor * Rpower (PI / gamma) 1.5 in
  let wx := overlap_component la lb (nth 0 PA []) (nth 0 PB []) gamma in
  let wy := overlap_component ma mb (nth 1 PA []) (nth 1 PB []) gamma in
  let wz := overlap_component na nb (nth 2 PA []) (nth 2 PB []) gamma in
  prefactor * wx * wy * wz.

(** *** [kinetic] *)

Definition kinetic (aa : R) (La : Z * Z * Z) (bb : R) (Lb : Z * Z * Z)
    (PA PB : list (list R)) (prefactor : R) : R :=
  let '(la, ma, na) := La in
  let '(lb, mb, nb) := Lb in
  let term1 :=
    bb * IZR (2 * (lb + mb + nb) + 3) * overlap aa La bb Lb PA PB prefactor in
  let term2 :=
    -2 * bb ^ 2
    * (overlap aa (la, ma, na) bb ((lb + 2)%Z, mb, nb) PA PB prefactor
       + overlap aa (la, ma, na) bb (lb, (mb + 2)%Z, nb) PA PB prefactor
       + overlap aa (la, ma, na) bb (lb, mb, (nb + 2)%Z) PA PB prefactor) in
  let term3 :=
    -0.5
    * (IZR (lb * (lb - 1))
         * overlap aa (la, ma, na) bb ((lb - 2)%Z, mb, nb) PA PB prefactor
       + IZR (mb * (mb - 1))
         * overlap aa (la, ma, na) bb (lb, (mb - 2)%Z, nb) PA PB prefactor
       + IZR (nb * (nb - 1))
         * overlap aa (la, ma, na) bb (lb, mb, (nb - 2)%Z) PA PB prefactor) in
  term1 + term2 + term3.

(** *** [A_term], [A_array] and [potential] *)

Definition A_term (i r u l1 l2 : Z) (PAx PBx CPx gamma : R) : R :=
  powerRZ (-1) i * binomial_prefactor i l1 l2 PAx PBx * powerRZ (-1) u
  * factorials i * powerRZ CPx (i - 2 * r - 2 * u)
  * powerRZ (0.25 / gamma) (r + u)
  / factorials r / factorials u / factorials (i - 2 * r - 2 * u).

Definition A_array (l1 l2 : Z) (PA PB CP g : R) : list R :=
  run (zeros 7)
    (A_loops (Z.to_nat (l1 + l2 + 1))
       (fun i r u A =>
          index_add A (i - 2 * r - u) (A_term i r u l1 l2 PA PB CP g))
       l1 l2 (zeros 7)).

(** The three loops over [I], [J], [K] inside [potential]. *)
Definition potential_K_loop (Ax Ay Az : list R) (nK : Z) (boys_arg : R)
    (s : V_scope) : V_scope :=
  run s
    (while_range (Z.to_nat (nK - V_K s)) (fun s => V_K s <? nK)
       (fun s =>
          Some (mkVs (V_total s
                      + jnp_get 0 Ax (V_I s) * jnp_get 0 Ay (V_J s)
                        * jnp_get 0 Az (V_K s)
                        * boys (V_I s + V_J s + V_K s) boys_arg)
                     (V_I s) (V_J s) (V_K s + 1)))
       s).

Definition potential_J_loop (Ax Ay Az : list R) (nJ nK : Z) (boys_arg : R)
    (s : V_scope) : V_scope :=
  run s
    (while_range (Z.to_nat (nJ - V_J s)) (fun s => V_J s <? nJ)
       (fun s =>
          let s1 := mkVs (V_total s) (V_I s) (V_J s) 0 in
          let s2 := potential_K_loop Ax Ay Az nK boys_arg s1 in
          Some (mkVs (V_total s2) (V_I s2) (V_J s2 + 1) (V_K s2)))
       s).

Definition potential_I_loop (Ax Ay Az : list R) (nI nJ nK : Z) (boys_arg : R)
    (s : V_scope) : V_scope :=
  run s
    (while_range (Z.to_nat (nI - V_I s)) (fun s => V_I s <? nI)
       (fun s =>
          let s1 := mkVs (V_total s) (V_I s) 0 (V_K s) in
          let s2 := potential_J_loop Ax Ay Az nJ nK boys_arg s1 in
          Some (mkVs (V_total s2) (V_I s2 + 1) (V_J s2) (V_K s2)))
       s).

Definition potential (aa : R) (La : Z * Z * Z) (bb : R) (Lb : Z * Z * Z)
    (PA PB P : vec3) (prefactor : R) (geom : list vec3) (charges : list R)
    : R :=
  let '(la, ma, na) := La in
  let '(lb, mb, nb) := Lb in
  let gamma := aa + bb in
  let prefactor := prefactor * (-2 * PI / gamma) in
  fold_left
    (fun val i =>
       let C := jnp_get vzero geom i in
       let rcp2 := vdot (vsub C P) (vsub C P) in
       let PC := vsub P C in
       let Ax := A_array la lb (vx PA) (vx PB) (vx PC) gamma in
       let Ay := A_array ma mb (vy PA) (vy PB) (vy PC) gamma in
       let Az := A_array na nb (vz PA) (vz PB) (vz PC) gamma in
       let boys_arg := gamma * rcp2 in
       let S_ :=
         potential_I_loop Ax Ay Az (la + lb + 1) (ma + mb + 1) (na + nb + 1)
           boys_arg (mkVs 0 0 0 0) in
       val + jnp_get 0 charges i * prefactor * V_total S_)
    (countup (Z.of_nat (length geom))) 0.

(** *** [oei_arrays] *)

(** What the body of the innermost loop computes for primitives [p1], [p2]
    and components [a], [b]: the target position [(i, j)] and the three
    contracted integrals. *)
Definition duet_integrals (geom : list vec3) (fb : flat_basis)
    (charges : list R) (p1 p2 a b : Z) : Z * Z * (R * R * R) :=
  let coef := jnp_get 0 (coeffs fb) p1 * jnp_get 0 (coeffs fb) p2 in
  let aa := jnp_get 0 (exps fb) p1 in
  let bb := jnp_get 0 (exps fb) p2 in
  let atom1 := jnp_get 0%Z (atoms fb) p1 in
  let atom2 := jnp_get 0%Z (atoms fb) p2 in
  let A := jnp_get vzero geom atom1 in
  let B := jnp_get vzero geom atom2 in
  let am1 := jnp_get 0%Z (ams fb) p1 in
  let am2 := jnp_get 0%Z (ams fb) p2 in
  let ld1 := jnp_get 0%Z am_leading_indices am1 in
  let ld2 := jnp_get 0%Z am_leading_indices am2 in
  let gamma := aa + bb in
  let prefactor := exp (- aa * bb * vdot (vsub A B) (vsub A B) / gamma) in
  let P := vdiv (vadd (vscale aa A) (vscale bb B)) gamma in
  let PA := vsub P A in
  let PB := vsub P B in
  let PA_pow := pow_table (vsub P A) in
  let PB_pow := pow_table (vsub P B) in
  let La := jnp_get (0, 0, 0)%Z angular_momentum_combinations (a + ld1) in
  let Lb := jnp_get (0, 0, 0)%Z angular_momentum_combinations (b + ld2) in
  let i := (jnp_get 0%Z (indices fb) p1 + a)%Z in
  let j := (jnp_get 0%Z (indices fb) p2 + b)%Z in
  let overlap_int := overlap aa La bb Lb PA_pow PB_pow prefactor * coef in
  let kinetic_int := kinetic aa La bb Lb PA_pow PB_pow prefactor * coef in
  let potential_int :=
    potential aa La bb Lb PA PB P prefactor geom charges * coef in
  (i, j, (overlap_int, kinetic_int, potential_int)).

(** The three [index_add]s of the innermost loop body. *)
Definition accumulate (q : Z * Z * (R * R * R)) (s : oei_scope) : oei_scope :=
  let '(i, j, (overlap_int, kinetic_int, potential_int)) := q in
  mkOei (index_add2 (sS s) i j overlap_int)
        (index_add2 (sT s) i j kinetic_int)
        (index_add2 (sV s) i j potential_int)
        (s_a s) (s_b s).

Definition oei_b_loop (geom : list vec3) (fb : flat_basis) (charges : list R)
    (p1 p2 : Z) (s : oei_scope) : oei_scope :=
  let n2 := jnp_get 0%Z (dims fb) p2 in
  run s
    (while_range (Z.to_nat (n2 - s_b s)) (fun s => s_b s <? n2)
       (fun s =>
          let s1 := accumulate (duet_integrals geom fb charges p1 p2 (s_a s) (s_b s)) s in
          Some (mkOei (sS s1) (sT s1) (sV s1) (s_a s1) (s_b s1 + 1)))
       s).

Definition oei_a_loop (geom : list vec3) (fb : flat_basis) (charges : list R)
    (p1 p2 : Z) (s : oei_scope) : oei_scope :=
  let n1 := jnp_get 0%Z (dims fb) p1 in
  run s
    (while_range (Z.to_nat (n1 - s_a s)) (fun s => s_a s <? n1)
       (fun s =>
          let s1 := mkOei (sS s) (sT s) (sV s) (s_a s) 0 in
          let s2 := oei_b_loop geom fb charges p1 p2 s1 in
          Some (mkOei (sS s2) (sT s2) (sV s2) (s_a s2 + 1) (s_b s2)))
       s).

(** [oei_arrays], on the flattened basis [fb = flatten_basis_data(basis)]
    and [nbf = get_nbf(basis)]. *)
Definition oei_arrays (geom : list vec3) (fb : flat_basis) (nbf : nat)
    (charges : list R) : matrix * matrix * matrix :=
  let nprim := Z.of_nat (length (coeffs fb)) in
  let primitive_duets := cartesian_product (countup nprim) (countup nprim) in
  let s0 := mkOei (zeros2 nbf nbf) (zeros2 nbf nbf) (zeros2 nbf nbf) 0 0 in
  let s :=
    fold_left
      (fun s prim_duet =>
         let '(p1, p2) := prim_duet in
         oei_a_loop geom fb charges p1 p2
           (mkOei (sS s) (sT s) (sV s) 0 (s_b s)))
      primitive_duets s0 in
  (sS s, sT s, sV s).

(** A call of [oei_arrays] as its caller sees it.  The function contains no
    [raise], no [assert] and no other validation of the flattened basis, and
    under jax a read out of range is clamped and a write out of range is
    dropped: there is no failing path. *)
Definition oei_arrays_outcome (geom : list vec3) (fb : flat_basis) (nbf : nat)
    (charges : list R) : outcome (matrix * matrix * matrix) :=
  Returns (oei_arrays geom fb nbf charges).

End WithTables.

End Oei.

(** ** Stand-ins for [integrals_utils]

    The theorems below hold for every binomial prefactor, Boys function and
    table of [integrals_utils], which they take as parameters.  To state
    closed examples, the parameters are instantiated with the following. *)

Module Tables.

Local Open Scope R_scope.

Fixpoint dfact_fuel (fuel n : nat) : nat :=
  match fuel, n with
  | Datatypes.S f, Datatypes.S (Datatypes.S m) => (n * dfact_fuel f m)%nat
  | _, _ => 1%nat
  end.

(** Modelled from the spec: the tables [factorials] and [double_factorials]
    of [integrals_utils] are not among the sources ("factorial and
    double-factorial tables up to at least 2 x L_max + 1").  The double
    factorial read at [-1] is 1. *)
Definition factorials (n : Z) : R := INR (fact (Z.to_nat n)).
Definition double_factorials (n : Z) : R :=
  INR (dfact_fuel (Z.to_nat n) (Z.to_nat n)).

(** Modelled from the spec: [binomial_prefactor] of [integrals_utils] is not
    among the sources.  "The sum over valid t of
    C(l1,t) C(l2,i-t) disp1^(l1-t) disp2^(i-t-l2+t), restricted to
    0 <= i-t <= l2 and 0 <= t <= l1". *)
Definition binomial_prefactor (i l1 l2 : Z) (disp1 disp2 : R) : R :=
  Rsum (map (fun t =>
               if ((0 <=? i - t) && (i - t <=? l2))%Z
               then C (Z.to_nat l1) (Z.to_nat t)
                    * C (Z.to_nat l2) (Z.to_nat (i - t))
                    * powerRZ disp1 (l1 - t) * powerRZ disp2 (i - t - l2 + t)
               else 0)
            (countup (l1 + 1))).

(** Modelled from the spec: [new_binomial_prefactor] of [integrals_utils] is
    not among the sources.  The same sum, with each power of a displacement
    read from the array of its precomputed powers. *)
Definition new_binomial_prefactor (i l1 l2 : Z) (pow1 pow2 : list R) : R :=
  Rsum (map (fun t =>
               if ((0 <=? i - t) && (i - t <=? l2))%Z
               then C (Z.to_nat l1) (Z.to_nat t)
                    * C (Z.to_nat l2) (Z.to_nat (i - t))
                    * jnp_get 0 pow1 (l1 - t) * jnp_get 0 pow2 (i - t - l2 + t)
               else 0)
            (countup (l1 + 1))).

(** The Boys function at an integer order: the expansion [boys] of
    [integrals.py]. *)
Definition boys (n : Z) (x : R) : R := Integrals.boys (IZR n) x.

(** Modelled from the spec: [am_leading_indices] and
    [angular_momentum_combinations] of [integrals_utils] are not among the
    sources.  "All (l,m,n) triples for every total angular momentum from 0
    to L_max", in descending order in x then y, and "the offset where each
    block begins". *)
Definition am_leading_indices : list Z := [0; 1; 4; 10]%Z.
Definition angular_momentum_combinations : list (Z * Z * Z) :=
  [ (0, 0, 0);
    (1, 0, 0); (0, 1, 0); (0, 0, 1);
    (2, 0, 0); (1, 1, 0); (1, 0, 1); (0, 2, 0); (0, 1, 1); (0, 0, 2);
    (3, 0, 0); (2, 1, 0); (2, 0, 1); (1, 2, 0); (1, 1, 1); (1, 0, 2);
    (0, 3, 0); (0, 2, 1); (0, 1, 2); (0, 0, 3) ]%Z.

(** Modelled from the spec: [cartesian_product] of [integrals_utils] is not
    among the sources.  The assembler works "for each ordered pair of
    primitives drawn from the full primitive list"; the pairs are listed in
    row-major order. *)
Definition cartesian_product (xs ys : list Z) : list (Z * Z) := list_prod xs ys.

End Tables.


(** * Properties *)

Lemma countdown_neg (n : Z) : n < 0 -> countdown n = [].
Proof.
  intros H. unfold countdown.
  replace (Z.to_nat (n + 1)) with O by lia. reflexivity.
Qed.

Lemma countdown_cons (n : Z) : 0 <= n -> countdown n = n :: countdown (n - 1).
Proof.
  intros H. unfold countdown.
  replace (Z.to_nat (n + 1)) with (S (Z.to_nat (n - 1 + 1))) by lia.
  cbn [seq map]. f_equal; [lia|].
  rewrite <- seq_shift, map_map.
  apply map_ext. intros k. lia.
Qed.

Lemma in_countdown (n k : Z) : In k (countdown n) <-> 0 <= k <= n.
Proof.
  unfold countdown. rewrite in_map_iff. split.
  - intros [m [<- Hm]]. apply in_seq in Hm. lia.
  - intros Hk. exists (Z.to_nat (n - k)). split; [lia|].
    apply in_seq. lia.
Qed.

Lemma fold_left_flat_map {A B C : Type} (f : A -> C -> A) (g : B -> list C)
    (l : list B) : forall a,
  fold_left f (flat_map g l) a = fold_left (fun a x => fold_left f (g x) a) l a.
Proof.
  induction l as [|x l IH]; intros a; cbn; [reflexivity|].
  rewrite fold_left_app. apply IH.
Qed.

Lemma fold_left_map {A B C : Type} (f : A -> C -> A) (g : B -> C)
    (l : list B) : forall a,
  fold_left f (map g l) a = fold_left (fun a x => f a (g x)) l a.
Proof.
  induction l as [|x l IH]; intros a; cbn; [reflexivity|apply IH].
Qed.

Lemma fold_left_ext_all {A B : Type} (f g : A -> B -> A) (l : list B) :
  (forall a x, f a x = g a x) -> forall a, fold_left g l a = fold_left f l a.
Proof.
  intros H. induction l as [|x l IH]; intros a; cbn; [reflexivity|].
  rewrite H. apply IH.
Qed.

(** Simplification that leaves integer arithmetic alone. *)
Ltac zcbn := cbn -[Z.mul Z.div Z.add Z.sub Z.min Z.gtb Z.ltb Z.leb Z.of_nat Z.to_nat].

(** [a, a+1, ..., K-1]. *)
Definition zrange (a K : Z) : list Z :=
  map (fun k => a + Z.of_nat k) (seq 0 (Z.to_nat (K - a))).

Lemma zrange_nil (a K : Z) : K <= a -> zrange a K = [].
Proof.
  intros H. unfold zrange. replace (Z.to_nat (K - a)) with O by lia. reflexivity.
Qed.

Lemma zrange_cons (a K : Z) : a < K -> zrange a K = a :: zrange (a + 1) K.
Proof.
  intros H. unfold zrange.
  replace (Z.to_nat (K - a)) with (S (Z.to_nat (K - (a + 1)))) by lia.
  cbn [seq map]. f_equal; [lia|].
  rewrite <- seq_shift, map_map. apply map_ext. intros k. lia.
Qed.

Lemma zrange_0 (K : Z) : zrange 0 K = countup K.
Proof.
  unfold zrange, countup. rewrite Z.sub_0_r. apply map_ext. intros k. lia.
Qed.

Lemma in_countup (n k : Z) : In k (countup n) <-> 0 <= k < n.
Proof.
  unfold countup. rewrite in_map_iff. split.
  - intros [m [<- Hm]]. apply in_seq in Hm. lia.
  - intros Hk. exists (Z.to_nat k). split; [lia|]. apply in_seq. lia.
Qed.

Lemma NoDup_countup (n : Z) : NoDup (countup n).
Proof.
  unfold countup. apply Injective_map_NoDup.
  - intros x y H. lia.
  - apply seq_NoDup.
Qed.

(** A counting loop [while c < K: act; c += 1] exits by its condition when
    it is given [K - c] iterations, having run [act] at [c, c+1, ..., K-1]. *)
Lemma while_countup {S : Type} (cnt : S -> Z) (K : Z) (body : S -> option S)
    (act : Z -> S -> S) :
  (forall s, body s = Some (act (cnt s) s)) ->
  (forall s, cnt (act (cnt s) s) = cnt s + 1) ->
  forall (fuel : nat) (s : S),
  (Z.to_nat (K - cnt s) <= fuel)%nat ->
  while_range fuel (fun s => cnt s <? K) body s =
  Some (fold_left (fun s k => act k s) (zrange (cnt s) K) s).
Proof.
  intros Hbody Hcnt.
  induction fuel as [|fuel IH]; intros s Hf; zcbn;
    destruct (Z.ltb_spec (cnt s) K) as [Hlt|Hge]; try lia.
  - rewrite zrange_nil by lia. reflexivity.
  - rewrite Hbody, IH by (rewrite Hcnt; lia).
    rewrite (zrange_cons (cnt s)) by lia. cbn [fold_left].
    rewrite Hcnt. reflexivity.
  - rewrite zrange_nil by lia. reflexivity.
Qed.


Lemma NoDup_flat_map {A B : Type} (f : A -> list B) (key : B -> A) (l : list A) :
  NoDup l -> (forall x, NoDup (f x)) ->
  (forall x y, In y (f x) -> key y = x) ->
  NoDup (flat_map f l).
Proof.
  intros Hl Hf Hkey. induction Hl as [|x l Hx Hl IH]; cbn; [constructor|].
  apply NoDup_app; [apply Hf | exact IH |].
  intros y Hy Hy'. apply in_flat_map in Hy'. destruct Hy' as [x' [Hx' Hy']].
  apply Hkey in Hy, Hy'. congruence.
Qed.

Lemma NoDup_map_inj {A B : Type} (f : A -> B) (l : list A) :
  (forall x y, f x = f y -> x = y) -> NoDup l -> NoDup (map f l).
Proof.
  intros Hf Hl. apply Injective_map_NoDup; assumption.
Qed.

Lemma list_prod_flat_map {A B : Type} (xs : list A) (ys : list B) :
  list_prod xs ys = flat_map (fun x => map (fun y => (x, y)) ys) xs.
Proof.
  induction xs as [|x xs IH]; cbn; [reflexivity|]. now rewrite IH.
Qed.

Lemma NoDup_list_prod {A B : Type} (xs : list A) (ys : list B) :
  NoDup xs -> NoDup ys -> NoDup (list_prod xs ys).
Proof.
  intros Hx Hy. rewrite list_prod_flat_map.
  apply (NoDup_flat_map _ fst); [exact Hx | |].
  - intros x. apply NoDup_map_inj; [|exact Hy]. intros a b E. now inversion E.
  - intros x y Hin. apply in_map_iff in Hin. destruct Hin as [b [<- _]].
    reflexivity.
Qed.

(** ** [A_array]: the loop nest and its trace *)

Section ALoops.

Context {Acc : Type} (visit : Z -> Z -> Z -> Acc -> Acc).

Lemma A_u_loop_runs (fuel : nat) : forall (n : Z) (A : Acc) (i r : Z),
  (Z.to_nat (n + 1) <= fuel)%nat ->
  Oei.A_u_loop fuel visit (Oei.mkA A i r n) =
  Some (Oei.mkA (fold_left (fun a u => visit i r u a) (countdown n) A)
                i r (Z.min n (-1))).
Proof.
  unfold Oei.A_u_loop.
  induction fuel as [|fuel IH]; intros n A i r Hf; zcbn;
    destruct (Z.gtb_spec n (-1)); try lia.
  - rewrite countdown_neg by lia. zcbn. do 2 f_equal. lia.
  - rewrite IH by lia. rewrite (countdown_cons n) by lia. zcbn.
    do 2 f_equal. lia.
  - rewrite countdown_neg by lia. zcbn. do 2 f_equal. lia.
Qed.

(** What one pass of the [r] loop body does to the accumulator. *)
Definition r_pass (i r : Z) (A : Acc) : Acc :=
  fold_left (fun a u => visit i r u a) (countdown ((i - 2 * r) / 2)) A.

Lemma A_r_loop_runs (fuel0 fuel : nat) : forall (n : Z) (A : Acc) (i u : Z),
  0 <= i -> n <= i / 2 ->
  (Z.to_nat (i / 2 + 1) <= fuel0)%nat ->
  (Z.to_nat (n + 1) <= fuel)%nat ->
  exists u',
    while_range fuel (fun s => Oei.s_r s >? -1)
      (fun s =>
         match Oei.A_u_loop fuel0 visit
                 (Oei.mkA (Oei.sA s) (Oei.s_i s) (Oei.s_r s)
                          ((Oei.s_i s - 2 * Oei.s_r s) / 2)) with
         | Some s' => Some (Oei.mkA (Oei.sA s') (Oei.s_i s') (Oei.s_r s' - 1) (Oei.s_u s'))
         | None => None
         end) (Oei.mkA A i n u) =
    Some (Oei.mkA (fold_left (fun a r => r_pass i r a) (countdown n) A)
                  i (Z.min n (-1)) u').
Proof.
  induction fuel as [|fuel IH]; intros n A i u Hi Hn Hf0 Hf; zcbn;
    destruct (Z.gtb_spec n (-1)); try lia.
  - rewrite countdown_neg by lia. zcbn. exists u. do 2 f_equal. lia.
  - rewrite A_u_loop_runs.
    2:{ Z.to_euclidean_division_equations; lia. }
    zcbn.
    destruct (IH (n - 1) (r_pass i n A) i (Z.min ((i - 2 * n) / 2) (-1)))
      as [u' Hu']; try lia.
    exists u'. unfold r_pass in Hu' |- *. rewrite Hu'. rewrite (countdown_cons n) by lia. zcbn.
    do 2 f_equal. lia.
  - rewrite countdown_neg by lia. zcbn. exists u. do 2 f_equal. lia.
Qed.

Lemma A_r_loop_total (fuel : nat) (A : Acc) (i u : Z) :
  0 <= i ->
  (Z.to_nat (i / 2 + 1) <= fuel)%nat ->
  exists u',
    Oei.A_r_loop fuel visit (Oei.mkA A i (i / 2) u) =
    Some (Oei.mkA (fold_left (fun a r => r_pass i r a) (countdown (i / 2)) A)
                  i (Z.min (i / 2) (-1)) u').
Proof.
  intros Hi Hf. apply (A_r_loop_runs fuel fuel (i / 2) A i u); lia.
Qed.

Lemma A_i_loop_runs (fuel0 fuel : nat) : forall (n : Z) (A : Acc) (r u : Z),
  (Z.to_nat (n / 2 + 1) <= fuel0)%nat ->
  (Z.to_nat (n + 1) <= fuel)%nat ->
  exists r' u',
    while_range fuel (fun s => Oei.s_i s >? -1)
      (fun s =>
         match Oei.A_r_loop fuel0 visit
                 (Oei.mkA (Oei.sA s) (Oei.s_i s) (Oei.s_i s / 2) (Oei.s_u s)) with
         | Some s' => Some (Oei.mkA (Oei.sA s') (Oei.s_i s' - 1) (Oei.s_r s') (Oei.s_u s'))
         | None => None
         end) (Oei.mkA A n r u) =
    Some (Oei.mkA
            (fold_left
               (fun a i => fold_left (fun a r => r_pass i r a) (countdown (i / 2)) a)
               (countdown n) A)
            (Z.min n (-1)) r' u').
Proof.
  induction fuel as [|fuel IH]; intros n A r u Hf0 Hf; zcbn;
    destruct (Z.gtb_spec n (-1)); try lia.
  - rewrite countdown_neg by lia. zcbn. exists r, u. do 2 f_equal. lia.
  - destruct (A_r_loop_total fuel0 A n u) as [u1 Hu1]; try lia.
    rewrite Hu1. zcbn.
    destruct (IH (n - 1)
                 (fold_left (fun a r => r_pass n r a) (countdown (n / 2)) A)
                 (Z.min (n / 2) (-1)) u1) as [r' [u' H']].
    { Z.to_euclidean_division_equations; lia. }
    { lia. }
    exists r', u'. rewrite H'. rewrite (countdown_cons n) by lia. zcbn.
    do 2 f_equal. lia.
  - rewrite countdown_neg by lia. zcbn. exists r, u. do 2 f_equal. lia.
Qed.

(** With a budget of [l1 + l2 + 1] iterations per loop the nest finishes, and
    it has run [visit] once at each triple of [A_triples], in that order. *)
Lemma A_loops_runs (fuel : nat) (l1 l2 : Z) (A0 : Acc) :
  (Z.to_nat (l1 + l2 + 1) <= fuel)%nat ->
  Oei.A_loops fuel visit l1 l2 A0 =
  Some (fold_left (fun a '(i, r, u) => visit i r u a) (Oei.A_triples l1 l2) A0).
Proof.
  intros Hf. unfold Oei.A_loops, Oei.A_i_loop.
  destruct (A_i_loop_runs fuel fuel (l1 + l2) A0 0 0) as [r' [u' H]].
  { Z.to_euclidean_division_equations; lia. }
  { exact Hf. }
  rewrite H. zcbn. f_equal. unfold Oei.A_triples.
  rewrite fold_left_flat_map. apply fold_left_ext_all. intros a i.
  rewrite fold_left_flat_map. apply fold_left_ext_all. intros a' r.
  unfold r_pass. rewrite fold_left_map. reflexivity.
Qed.

End ALoops.

Lemma fold_left_snoc {A : Type} (l : list A) : forall a0,
  fold_left (fun a x => a ++ [x]) l a0 = a0 ++ l.
Proof.
  induction l as [|x l IH]; intros a0; cbn.
  - now rewrite app_nil_r.
  - rewrite IH, <- app_assoc. reflexivity.
Qed.

(** The trace of [A_array] is [A_triples]. *)
Lemma A_visited_triples (fuel : nat) (l1 l2 : Z) :
  (Z.to_nat (l1 + l2 + 1) <= fuel)%nat ->
  Oei.A_visited fuel l1 l2 = Some (Oei.A_triples l1 l2).
Proof.
  intros Hf. unfold Oei.A_visited. rewrite A_loops_runs by exact Hf.
  f_equal.
  rewrite (fold_left_ext_all (fun a x => a ++ [x])
             (fun a '(i, r, u) => a ++ [(i, r, u)])).
  - apply fold_left_snoc.
  - intros a [[i r] u]. reflexivity.
Qed.

Lemma in_A_triples (l1 l2 i r u : Z) :
  In (i, r, u) (Oei.A_triples l1 l2) <->
  0 <= i <= l1 + l2 /\ 0 <= r <= i / 2 /\ 0 <= u <= (i - 2 * r) / 2.
Proof.
  unfold Oei.A_triples. rewrite in_flat_map. split.
  - intros [i' [Hi H]]. apply in_flat_map in H. destruct H as [r' [Hr H]].
    apply in_map_iff in H. destruct H as [u' [E Hu]].
    inversion E; subst.
    apply in_countdown in Hi, Hr, Hu. tauto.
  - intros [Hi [Hr Hu]]. exists i. split; [now apply in_countdown|].
    apply in_flat_map. exists r. split; [now apply in_countdown|].
    apply in_map_iff. exists u. split; [reflexivity|now apply in_countdown].
Qed.

(** What the claim asks of a visited triple: the loop-range bounds, the
    non-negativity of the exponent and factorial arguments of [A_term], and
    an accumulation index inside the array of length 7. *)
Definition A_triple_ok (l1 l2 : Z) (t : Z * Z * Z) : Prop :=
  let '(i, r, u) := t in
  0 <= i <= l1 + l2 /\ 0 <= r <= i / 2 /\ 0 <= u <= (i - 2 * r) / 2 /\
  0 <= i - 2 * r - 2 * u /\
  0 <= i - 2 * r - u <= l1 + l2 /\
  i - 2 * r - u < Z.of_nat (length (zeros 7)).

(** C5. With [l1 + l2 <= 6], [A_array] finishes (a budget of [l1 + l2 + 1]
    iterations per loop is enough) and every triple [(i, r, u)] at which it
    evaluates [A_term] and accumulates satisfies [0 <= i <= l1 + l2],
    [0 <= r <= i / 2], [0 <= u <= (i - 2r) / 2]; hence the exponent and all
    factorial arguments are non-negative and the index [i - 2r - u] lies in
    [0 .. l1 + l2], inside the array of length 7.  The array returned is the
    accumulation of [A_term] over exactly these triples. *)
Theorem A_array_triples_in_bounds
    (binomial_prefactor : Z -> Z -> Z -> R -> R -> R) (factorials : Z -> R)
    (fuel : nat) (l1 l2 : Z) :
  (Z.to_nat (l1 + l2 + 1) <= fuel)%nat ->
  l1 + l2 <= 6 ->
  exists tr,
    Oei.A_visited fuel l1 l2 = Some tr /\
    Forall (A_triple_ok l1 l2) tr /\
    forall PA PB CP g,
      Oei.A_array binomial_prefactor factorials l1 l2 PA PB CP g =
      fold_left
        (fun A '(i, r, u) =>
           index_add A (i - 2 * r - u)
             (Oei.A_term binomial_prefactor factorials i r u l1 l2 PA PB CP g))
        tr (zeros 7).
Proof.
  intros Hf H6. exists (Oei.A_triples l1 l2). split; [|split].
  - now apply A_visited_triples.
  - apply Forall_forall. intros [[i r] u] Hin.
    apply in_A_triples in Hin. destruct Hin as [Hi [Hr Hu]].
    unfold A_triple_ok. cbn [length zeros repeat].
    repeat split; try lia;
      Z.to_euclidean_division_equations; lia.
  - intros PA PB CP g. unfold Oei.A_array.
    rewrite A_loops_runs by lia. reflexivity.
Qed.

Lemma A_array_triples_in_bounds_witness :
  exists tr,
    Oei.A_visited 7 3 3 = Some tr /\
    Forall (A_triple_ok 3 3) tr /\
    forall PA PB CP g,
      Oei.A_array Tables.binomial_prefactor Tables.factorials 3 3 PA PB CP g =
      fold_left
        (fun A '(i, r, u) =>
           index_add A (i - 2 * r - u)
             (Oei.A_term Tables.binomial_prefactor Tables.factorials
                i r u 3 3 PA PB CP g))
        tr (zeros 7).
Proof.
  apply (A_array_triples_in_bounds Tables.binomial_prefactor Tables.factorials
           7 3 3); [vm_compute; lia | lia].
Defined.

(** [A_array] finishes within its budget: it is the fold of its
    accumulation statement over [A_triples]. *)
Lemma A_array_eq (binomial_prefactor : Z -> Z -> Z -> R -> R -> R)
    (factorials : Z -> R) (l1 l2 : Z) (PA PB CP g : R) :
  Oei.A_loops (Z.to_nat (l1 + l2 + 1))
    (fun i r u A =>
       index_add A (i - 2 * r - u)
         (Oei.A_term binomial_prefactor factorials i r u l1 l2 PA PB CP g))
    l1 l2 (zeros 7) =
  Some (Oei.A_array binomial_prefactor factorials l1 l2 PA PB CP g).
Proof.
  unfold Oei.A_array. rewrite A_loops_runs by lia. reflexivity.
Qed.

(** ** [overlap_component], [overlap] and [kinetic] *)

Section Overlap.

Variable new_binomial_prefactor : Z -> Z -> Z -> list R -> list R -> R.
Variable double_factorials : Z -> R.

(** Term [i] of the one-dimensional overlap: the binomial prefactor at index
    [2i], times the double factorial of [2i - 1], over [(2 gamma)^i]. *)
Definition overlap_term (l1 l2 : Z) (PAx PBx : list R) (gamma : R) (i : Z) : R :=
  (new_binomial_prefactor (2 * i) l1 l2 PAx PBx * double_factorials (2 * i - 1)
   / powerRZ (2 * gamma) i)%R.

Lemma ov_fold (f : Z -> R) (l : list Z) : forall s,
  fold_left (fun s k => Oei.mkOv (Oei.ov_total s + f k) (Oei.ov_i s + 1)) l s =
  Oei.mkOv (fold_left Rplus (map f l) (Oei.ov_total s))
           (Oei.ov_i s + Z.of_nat (length l)).
Proof.
  induction l as [|k l IH]; intros [t i]; cbn [fold_left map length].
  - cbn. f_equal. lia.
  - rewrite IH. cbn [Oei.ov_total Oei.ov_i]. f_equal. lia.
Qed.

(** The loop of [overlap_component] exits by its condition after
    [1 + (l1 + l2) // 2] iterations (none if that is not positive). *)
Lemma overlap_component_scope_eq (l1 l2 : Z) (PAx PBx : list R) (gamma : R) :
  Oei.overlap_component_scope new_binomial_prefactor double_factorials
    l1 l2 PAx PBx gamma =
  Oei.mkOv (Rsum (map (overlap_term l1 l2 PAx PBx gamma)
                      (countup (1 + (l1 + l2) / 2))))
           (Z.max 0 (1 + (l1 + l2) / 2)).
Proof.
  unfold Oei.overlap_component_scope.
  rewrite (while_countup Oei.ov_i (1 + (l1 + l2) / 2) _
             (fun k s => Oei.mkOv
                (Oei.ov_total s + overlap_term l1 l2 PAx PBx gamma k)
                (Oei.ov_i s + 1))).
  - cbn [run Oei.ov_i]. rewrite zrange_0, ov_fold. cbn [Oei.ov_total Oei.ov_i].
    unfold Rsum. f_equal. unfold countup. rewrite length_map, length_seq. lia.
  - intros s. reflexivity.
  - intros s. reflexivity.
  - cbn [Oei.ov_i]. lia.
Qed.

End Overlap.

Section OverlapClaims.

Local Open Scope R_scope.

Variable new_binomial_prefactor : Z -> Z -> Z -> list R -> list R -> R.
Variable double_factorials : Z -> R.

Let overlap_component := Oei.overlap_component new_binomial_prefactor double_factorials.
Let overlap := Oei.overlap new_binomial_prefactor double_factorials.
Let kinetic := Oei.kinetic new_binomial_prefactor double_factorials.

(** C2, as amended.  For one-axis angular momenta [l1], [l2] between 0 and 3
    the loop of [overlap_component] accumulates exactly
    [floor((l1+l2)/2) + 1] terms (its counter ends at that value), term [i]
    being the binomial prefactor at index [2i], times the double factorial of
    [2i-1], over [(2 gamma)^i]; and [overlap] is the product of the three
    axis components, [(pi/gamma)^(3/2)] and the pair prefactor. *)
Theorem overlap_component_terms (l1 l2 : Z) (PAx PBx : list R) (gamma : R) :
  (0 <= l1 <= 3)%Z -> (0 <= l2 <= 3)%Z ->
  Oei.ov_i (Oei.overlap_component_scope new_binomial_prefactor
              double_factorials l1 l2 PAx PBx gamma)
    = (1 + (l1 + l2) / 2)%Z /\
  length (countup (1 + (l1 + l2) / 2)) = Z.to_nat ((l1 + l2) / 2 + 1) /\
  overlap_component l1 l2 PAx PBx gamma
    = Rsum (map (overlap_term new_binomial_prefactor double_factorials
                   l1 l2 PAx PBx gamma)
                (countup (1 + (l1 + l2) / 2))) /\
  forall (aa bb : R) (la ma na lb mb nb : Z) (PA PB : list (list R))
         (prefactor : R),
    overlap aa (la, ma, na) bb (lb, mb, nb) PA PB prefactor
    = prefactor * Rpower (PI / (aa + bb)) (3 / 2)
      * (overlap_component la lb (nth 0 PA []) (nth 0 PB []) (aa + bb)
         * overlap_component ma mb (nth 1 PA []) (nth 1 PB []) (aa + bb)
         * overlap_component na nb (nth 2 PA []) (nth 2 PB []) (aa + bb)).
Proof.
  intros H1 H2.
  assert (0 <= (l1 + l2) / 2)%Z by (apply Z.div_pos; lia).
  split; [|split; [|split]].
  - rewrite overlap_component_scope_eq. cbn [Oei.ov_i]. lia.
  - unfold countup. rewrite length_map, length_seq. f_equal. lia.
  - unfold overlap_component, Oei.overlap_component.
    rewrite overlap_component_scope_eq. reflexivity.
  - intros. unfold overlap, Oei.overlap, overlap_component.
    replace 1.5 with (3 / 2) by lra. ring.
Qed.

(** The lowered-momentum term of the kinetic identity for ket momentum [q]:
    zero when [q] is below 2. *)
Definition lowered (q : Z) (S_minus : R) : R :=
  if (q <? 2)%Z then 0 else IZR (q * (q - 1)) * S_minus.

(** The kinetic-from-overlap identity, [S] being the overlap as a function
    of the ket momentum. *)
Definition kinetic_identity (S_ : Z * Z * Z -> R) (bb : R) (Lb : Z * Z * Z) : R :=
  let '(lb, mb, nb) := Lb in
  bb * IZR (2 * (lb + mb + nb) + 3) * S_ (lb, mb, nb)
  - 2 * bb ^ 2 * (S_ ((lb + 2)%Z, mb, nb) + S_ (lb, (mb + 2)%Z, nb)
                  + S_ (lb, mb, (nb + 2)%Z))
  - 1 / 2 * (lowered lb (S_ ((lb - 2)%Z, mb, nb))
             + lowered mb (S_ (lb, (mb - 2)%Z, nb))
             + lowered nb (S_ (lb, mb, (nb - 2)%Z))).

Lemma lowered_eq (q : Z) (x : R) :
  (0 <= q)%Z -> IZR (q * (q - 1)) * x = lowered q x.
Proof.
  intros Hq. unfold lowered. destruct (Z.ltb_spec q 2) as [H|H]; [|reflexivity].
  assert (E : (q * (q - 1) = 0)%Z) by nia. rewrite E. ring.
Qed.

(** C4.  For angular-momentum triples [La], [Lb] (non-negative ket momenta),
    [kinetic] is [bb (2(lb+mb+nb)+3)] times the overlap at [(La, Lb)], minus
    [2 bb^2] times the sum of the three overlaps with the ket momentum raised
    by 2 along one axis, minus one half of the sum over the axes of
    [q (q-1)] times the overlap with the ket momentum lowered by 2, a
    lowered term being zero whenever the ket momentum on its axis is below
    2. *)
Theorem kinetic_from_overlap (aa bb : R) (La : Z * Z * Z) (lb mb nb : Z)
    (PA PB : list (list R)) (prefactor : R) :
  (0 <= lb)%Z -> (0 <= mb)%Z -> (0 <= nb)%Z ->
  kinetic aa La bb (lb, mb, nb) PA PB prefactor
  = kinetic_identity (fun Lb => overlap aa La bb Lb PA PB prefactor)
      bb (lb, mb, nb).
Proof.
  intros Hl Hm Hn. destruct La as [[la ma] na].
  cbv beta iota zeta delta [kinetic Oei.kinetic kinetic_identity overlap].
  rewrite <- !lowered_eq by assumption.
  generalize (IZR (2 * (lb + mb + nb) + 3)), (IZR (lb * (lb - 1))),
    (IZR (mb * (mb - 1))), (IZR (nb * (nb - 1))).
  intros c0 c1 c2 c3. lra.
Qed.

End OverlapClaims.

Lemma overlap_component_terms_witness :
  Oei.ov_i (Oei.overlap_component_scope Tables.new_binomial_prefactor
              Tables.double_factorials 1 1 [1; 0]%R [1; 0]%R 1)
    = (1 + (1 + 1) / 2)%Z /\
  length (countup (1 + (1 + 1) / 2)) = Z.to_nat ((1 + 1) / 2 + 1) /\
  Oei.overlap_component Tables.new_binomial_prefactor Tables.double_factorials
    1 1 [1; 0]%R [1; 0]%R 1
    = Rsum (map (overlap_term Tables.new_binomial_prefactor
                   Tables.double_factorials 1 1 [1; 0]%R [1; 0]%R 1)
                (countup (1 + (1 + 1) / 2))) /\
  forall (aa bb : R) (la ma na lb mb nb : Z) (PA PB : list (list R))
         (prefactor : R),
    Oei.overlap Tables.new_binomial_prefactor Tables.double_factorials
      aa (la, ma, na) bb (lb, mb, nb) PA PB prefactor
    = (prefactor * Rpower (PI / (aa + bb)) (3 / 2)
      * (Oei.overlap_component Tables.new_binomial_prefactor
           Tables.double_factorials la lb (nth 0 PA []) (nth 0 PB []) (aa + bb)
         * Oei.overlap_component Tables.new_binomial_prefactor
             Tables.double_factorials ma mb (nth 1 PA []) (nth 1 PB []) (aa + bb)
         * Oei.overlap_component Tables.new_binomial_prefactor
             Tables.double_factorials na nb (nth 2 PA []) (nth 2 PB []) (aa + bb)))%R.
Proof.
  apply (overlap_component_terms Tables.new_binomial_prefactor
           Tables.double_factorials 1 1 [1; 0]%R [1; 0]%R 1%R); lia.
Defined.

(** C2 as stated fails: for [l1 = 1], [l2 = 0] the loop accumulates one
    term, not [ceil((l1+l2)/2) + 1 = 2]. *)
Lemma overlap_component_terms_not_ceil :
  Oei.ov_i (Oei.overlap_component_scope Tables.new_binomial_prefactor
              Tables.double_factorials 1 0 [1; 0]%R [1; 0]%R 1) = 1 /\
  Oei.ov_i (Oei.overlap_component_scope Tables.new_binomial_prefactor
              Tables.double_factorials 1 0 [1; 0]%R [1; 0]%R 1)
    <> (1 + 0 + 1) / 2 + 1.
Proof.
  rewrite overlap_component_scope_eq. cbn [Oei.ov_i].
  split; [reflexivity | discriminate].
Qed.

Lemma kinetic_from_overlap_witness :
  Oei.kinetic Tables.new_binomial_prefactor Tables.double_factorials
    1 (0, 0, 0) 1 (1, 0, 0) (Oei.pow_table vzero) (Oei.pow_table vzero) 1
  = kinetic_identity
      (fun Lb => Oei.overlap Tables.new_binomial_prefactor
                   Tables.double_factorials 1 (0, 0, 0) 1 Lb
                   (Oei.pow_table vzero) (Oei.pow_table vzero) 1)
      1 (1, 0, 0).
Proof.
  apply (kinetic_from_overlap Tables.new_binomial_prefactor
           Tables.double_factorials 1 1 (0, 0, 0) 1 0 0
           (Oei.pow_table vzero) (Oei.pow_table vzero) 1); lia.
Defined.

(** ** The Boys function at 0 and the closed form of [eri] *)

Section BoysAndEri.

Local Open Scope R_scope.

Lemma torchboys_small_0 : Integrals.torchboys_small 0 = true.
Proof.
  unfold Integrals.torchboys_small. destruct (Rlt_dec 0 1e-8); [reflexivity|lra].
Qed.

Lemma mask1_0 : FastIntegrals.mask1 0 = true.
Proof.
  unfold FastIntegrals.mask1. destruct (Rle_dec 0 1e-8); [reflexivity|lra].
Qed.

Lemma mask2_0 : FastIntegrals.mask2 0 = false.
Proof.
  unfold FastIntegrals.mask2. destruct (Rgt_dec 0 1e-8); [lra|reflexivity].
Qed.

(** C6.  For an order [n] in [0 .. 10], the Boys function at argument 0 is
    evaluated by the small-argument branch ([torchboys] tests [0 < 1e-8];
    in [oei_finish] and [tei_finish] the entry is under [mask1] and not
    under [mask2], so the branch that divides by [sqrt x] is not used) and
    the value is exactly [1 / (2n + 1)]. *)
Theorem boys_at_zero (n : Z) :
  (0 <= n <= 10)%Z ->
  Integrals.torchboys_small 0 = true /\
  Integrals.torchboys (IZR n) 0 = 1 / (2 * IZR n + 1) /\
  Integrals.boys (IZR n) 0 = 1 / (2 * IZR n + 1) /\
  FastIntegrals.mask1 0 = true /\ FastIntegrals.mask2 0 = false /\
  FastIntegrals.F_masked 0 = 1 / (2 * 0 + 1).
Proof.
  intros Hn.
  assert (Hn0 : 0 <= IZR n) by (apply IZR_le; lia).
  split; [exact torchboys_small_0|]. split; [|split; [|split; [|split]]].
  - unfold Integrals.torchboys. rewrite torchboys_small_0. cbv iota. field. lra.
  - unfold Integrals.boys. rewrite Ropp_0, exp_0.
    unfold Rdiv at 2 3 4 5 6 7 8 9 10 11 12.
    rewrite !Rmult_0_l, !Rplus_0_r, !Rmult_1_r.
    replace 0.5 with (/ 2) by lra. field. lra.
  - exact mask1_0.
  - exact mask2_0.
  - unfold FastIntegrals.F_masked. rewrite mask1_0, mask2_0. cbv zeta iota. field.
Qed.

Lemma Rpower_PI_5_2 : Rpower PI (5 / 2) = PI ^ 2 * sqrt PI.
Proof.
  replace (5 / 2) with (INR 2 + / 2) by (simpl; lra).
  rewrite Rpower_plus, Rpower_pow, Rpower_sqrt by apply PI_RGT_0.
  reflexivity.
Qed.

(** [eri] as the product of the two pair coefficients returned by [gp], the
    four normalisation constants, the factor
    [2 pi^(5/2) / ((aa+bb) (cc+dd) sqrt(aa+bb+cc+dd))], and the value
    [torchboys] returns at order 0. *)
Lemma eri_factorised (aa bb cc dd : R) (A B C D : vec3) :
  0 < aa -> 0 < bb -> 0 < cc -> 0 < dd ->
  let P := fst (Integrals.gp aa bb A B) in
  let Q := fst (Integrals.gp cc dd C D) in
  let delta := 1 / (4 * (aa + bb)) + 1 / (4 * (cc + dd)) in
  Integrals.eri aa bb cc dd A B C D =
  snd (Integrals.gp aa bb A B) * snd (Integrals.gp cc dd C D)
  * (Integrals.normalize aa * Integrals.normalize bb
     * Integrals.normalize cc * Integrals.normalize dd)
  * (2 * Rpower PI (5 / 2)
     / ((aa + bb) * (cc + dd) * sqrt (aa + bb + cc + dd)))
  * Integrals.torchboys 0 (vdot (vsub P Q) (vsub P Q) / (4 * delta)).
Proof.
  intros Ha Hb Hc Hd. cbv zeta.
  unfold Integrals.eri, Integrals.gp. cbn [fst snd].
  replace 0.0 with 0 by lra.
  rewrite Rpower_PI_5_2.
  replace (aa + bb + (cc + dd)) with (aa + bb + cc + dd) by ring.
  rewrite sqrt_div_alt by lra.
  assert (0 < sqrt (aa + bb + cc + dd)) by (apply sqrt_lt_R0; lra).
  field. repeat split; lra.
Qed.

Lemma boys_at_zero_witness :
  Integrals.torchboys_small 0 = true /\
  Integrals.torchboys (IZR 3) 0 = 1 / (2 * IZR 3 + 1) /\
  Integrals.boys (IZR 3) 0 = 1 / (2 * IZR 3 + 1) /\
  FastIntegrals.mask1 0 = true /\ FastIntegrals.mask2 0 = false /\
  FastIntegrals.F_masked 0 = 1 / (2 * 0 + 1).
Proof.
  apply (boys_at_zero 3); lia.
Defined.

End BoysAndEri.

(** ** The vectorised path, entry by entry *)

Lemma mul20_neq_1 (n : nat) : (n * 20 =? 1)%nat = false.
Proof. apply Nat.eqb_neq. lia. Qed.

(** Unfolding of the array combinators at a given position. *)
Ltac nd_eval :=
  cbn beta iota zeta delta
    [nd_at shape elementwise nd_map nd_map2 of_list of_rows np_repeat0
     np_transpose einsum_dot_last einsum_scale_last einsum_last_scale
     einsum_outer4 np_outer sum3 index_of map seq nth combine skipn length
     fst snd app removelast tl Nat.eqb Nat.sub Nat.leb broadcastable andb orb
     Datatypes.length].

Ltac vec_eval :=
  unfold vdot, vsub, vadd, vscale, vdiv, sum3; cbn [vget vx vy vz].

(** Normalises the arguments of [exp], so that [ring] sees equal atoms. *)
Ltac exp_norm :=
  unfold Rdiv;
  repeat match goal with
         | |- context [exp ?a] => progress ring_simplify a
         end.

Section FastEntries.

Local Open Scope R_scope.

(** The Boys argument and the factor multiplying the Boys function in
    [eri]. *)
Definition eri_arg (aa bb cc dd : R) (A B C D : vec3) : R :=
  let Rp := vdiv (vadd (vscale aa A) (vscale bb B)) (aa + bb) in
  let Rq := vdiv (vadd (vscale cc C) (vscale dd D)) (cc + dd) in
  let delta := 1 / (4 * (aa + bb)) + 1 / (4 * (cc + dd)) in
  vdot (vsub Rp Rq) (vsub Rp Rq) / (4 * delta).

Definition eri_factor (aa bb cc dd : R) (A B C D : vec3) : R :=
  Integrals.normalize aa * Integrals.normalize bb
  * Integrals.normalize cc * Integrals.normalize dd
  * exp (vdot (vsub A B) (vsub A B) * ((- aa * bb) / (aa + bb)))
  * exp (vdot (vsub C D) (vsub C D) * ((- cc * dd) / (cc + dd)))
  * 2 * PI ^ 2 / ((aa + bb) * (cc + dd)) * sqrt (PI / (aa + bb + (cc + dd))).

Lemma eri_split (aa bb cc dd : R) (A B C D : vec3) :
  Integrals.eri aa bb cc dd A B C D =
  Integrals.torchboys 0 (eri_arg aa bb cc dd A B C D)
  * eri_factor aa bb cc dd A B C D.
Proof.
  unfold Integrals.eri, eri_arg, eri_factor. cbv zeta.
  replace 0.0 with 0 by lra. unfold Rdiv. ring.
Qed.

(** Exchanging the two pairs changes neither. *)
Lemma eri_arg_swap (aa bb cc dd : R) (A B C D : vec3) :
  eri_arg cc dd aa bb C D A B = eri_arg aa bb cc dd A B C D.
Proof.
  unfold eri_arg. cbv zeta. vec_eval.
  replace (1 / (4 * (cc + dd)) + 1 / (4 * (aa + bb)))
    with (1 / (4 * (aa + bb)) + 1 / (4 * (cc + dd))) by ring.
  unfold Rdiv. ring.
Qed.

Lemma eri_factor_swap (aa bb cc dd : R) (A B C D : vec3) :
  eri_factor cc dd aa bb C D A B = eri_factor aa bb cc dd A B C D.
Proof.
  unfold eri_factor.
  replace (cc + dd + (aa + bb)) with (aa + bb + (cc + dd)) by ring.
  replace ((cc + dd) * (aa + bb)) with ((aa + bb) * (cc + dd)) by ring.
  unfold Rdiv. ring.
Qed.

(** The pair coefficient as the vectorised code computes it (difference of
    centres taken the other way round, product of exponents negated as a
    whole) is the one of [eri]. *)
Lemma pair_coeff_fast (bi bj : R) (ci cj : vec3) :
  exp (((vx cj - vx ci) * (vx cj - vx ci) + (vy cj - vy ci) * (vy cj - vy ci)
        + (vz cj - vz ci) * (vz cj - vz ci)) * - (bj * bi) / (bi + bj))
  = exp (vdot (vsub ci cj) (vsub ci cj) * ((- bi * bj) / (bi + bj))).
Proof. f_equal. vec_eval. unfold Rdiv. ring. Qed.

Lemma pair_coeff_fast2 (bi bj : R) (ci cj : vec3) :
  exp (((vx cj - vx ci) * (vx cj - vx ci) + (vy cj - vy ci) * (vy cj - vy ci)
        + (vz cj - vz ci) * (vz cj - vz ci)) * (- (bi * bj) / (bi + bj)))
  = exp (vdot (vsub ci cj) (vsub ci cj) * (- bi * bj / (bi + bj))).
Proof. f_equal. vec_eval. unfold Rdiv. ring. Qed.

(** The naive kernels are symmetric under exchange of the two primitives. *)
Lemma overlap_swap (aa bb : R) (A B : vec3) :
  Integrals.overlap bb aa B A = Integrals.overlap aa bb A B.
Proof.
  unfold Integrals.overlap, Integrals.gp.
  replace (bb + aa) with (aa + bb) by ring.
  replace (vdot (vsub B A) (vsub B A) * (- bb * aa / (aa + bb)))
    with (vdot (vsub A B) (vsub A B) * (- aa * bb / (aa + bb)))
    by (vec_eval; unfold Rdiv; ring).
  ring.
Qed.

Lemma kinetic_swap (aa bb : R) (A B : vec3) :
  Integrals.kinetic bb aa B A = Integrals.kinetic aa bb A B.
Proof.
  unfold Integrals.kinetic. rewrite overlap_swap.
  replace (bb + aa) with (aa + bb) by ring.
  replace (vdot (vsub B A) (vsub B A)) with (vdot (vsub A B) (vsub A B))
    by (vec_eval; ring).
  unfold Rdiv. ring.
Qed.

Variables (geom : list vec3) (basis : list R).

(** Exponent and centre of basis function [i] in the fast path: the centre
    is that of atom [i // 20]. *)
Definition fast_exp (i : nat) : R := nth i basis 0.
Definition fast_center (i : nat) : vec3 := nth (i / 20) geom vzero.

(** [tei_setup] returns exactly when there are 20 basis functions per atom,
    and then its two arrays hold, at [(i, j, k, l)], the factor and the Boys
    argument of [eri] for the exponents and centres of [i], [j], [k], [l]. *)
Lemma tei_setup_entries (n : nat) :
  length basis = (length geom * 20)%nat ->
  exists G ba,
    FastIntegrals.tei_setup geom basis n = Some (G, ba) /\
    forall i j k l : nat,
      nd_at G [i; j; k; l]
      = eri_factor (fast_exp i) (fast_exp j) (fast_exp k) (fast_exp l)
          (fast_center i) (fast_center j) (fast_center k) (fast_center l) /\
      nd_at ba [i; j; k; l]
      = eri_arg (fast_exp i) (fast_exp j) (fast_exp k) (fast_exp l)
          (fast_center i) (fast_center j) (fast_center k) (fast_center l).
Proof.
  intros Hlen. unfold FastIntegrals.tei_setup, broadcast_to, of_list.
  rewrite Hlen. nd_eval. rewrite !Nat.eqb_refl, ?mul20_neq_1. nd_eval.
  eexists _, _. split; [reflexivity|].
  intros i j k l. nd_eval. rewrite ?mul20_neq_1. nd_eval.
  unfold fast_exp, fast_center.
  generalize (nth i basis 0), (nth j basis 0), (nth k basis 0),
    (nth l basis 0), (nth (i / 20) geom vzero), (nth (j / 20) geom vzero),
    (nth (k / 20) geom vzero), (nth (l / 20) geom vzero).
  intros bi bj bk bl ci cj ck cl.
  unfold sum3. cbn [vget].
  replace (bj + bi) with (bi + bj) by ring.
  replace (bl + bk) with (bk + bl) by ring.
  split.
  - rewrite !pair_coeff_fast.
    unfold eri_factor, Integrals.normalize, Rdiv. ring.
  - unfold eri_arg. cbv zeta. vec_eval. unfold Rdiv. ring.
Qed.

Lemma tei_setup_none (n : nat) :
  length basis <> (length geom * 20)%nat ->
  FastIntegrals.tei_setup geom basis n = None.
Proof.
  intros Hlen. unfold FastIntegrals.tei_setup, broadcast_to, of_list.
  nd_eval. rewrite !Nat.eqb_refl, mul20_neq_1.
  apply not_eq_sym in Hlen. apply Nat.eqb_neq in Hlen. rewrite Hlen.
  reflexivity.
Qed.

Lemma oei_setup_entries (n : nat) (q : list R) :
  length basis = (length geom * 20)%nat ->
  exists S_ T Vtmp ba,
    FastIntegrals.oei_setup geom basis n q = Some (S_, T, Vtmp, ba) /\
    forall i j : nat,
      nd_at S_ [i; j]
      = Integrals.overlap (fast_exp i) (fast_exp j)
          (fast_center i) (fast_center j) /\
      nd_at T [i; j]
      = Integrals.kinetic (fast_exp i) (fast_exp j)
          (fast_center i) (fast_center j).
Proof.
  intros Hlen. unfold FastIntegrals.oei_setup, broadcast_to, of_list.
  rewrite Hlen. nd_eval. rewrite !Nat.eqb_refl, ?mul20_neq_1. nd_eval.
  eexists _, _, _, _. split; [reflexivity|].
  intros i j. nd_eval. rewrite ?mul20_neq_1. nd_eval.
  unfold fast_exp, fast_center.
  generalize (nth i basis 0), (nth j basis 0),
    (nth (i / 20) geom vzero), (nth (j / 20) geom vzero).
  intros bi bj ci cj.
  unfold sum3. cbn [vget].
  replace (bj + bi) with (bi + bj) by ring.
  rewrite pair_coeff_fast2.
  unfold Integrals.kinetic, Integrals.overlap, Integrals.gp, Integrals.normalize.
  replace (-1.0) with (-1) by lra.
  split; [reflexivity|].
  replace (-1 * vdot (vsub ci cj) (vsub ci cj))
    with (- ((vx cj - vx ci) * (vx cj - vx ci) + (vy cj - vy ci) * (vy cj - vy ci)
             + (vz cj - vz ci) * (vz cj - vz ci)))
    by (vec_eval; ring).
  reflexivity.
Qed.

End FastEntries.

(** ** Symmetry, agreement with [eri], and the unused [nbf_per_atom] *)

Section FastClaims.

Local Open Scope R_scope.

Lemma oei_setup_none (geom : list vec3) (basis : list R) (n : nat) (q : list R) :
  length basis <> (length geom * 20)%nat ->
  FastIntegrals.oei_setup geom basis n q = None.
Proof.
  intros Hlen. unfold FastIntegrals.oei_setup, broadcast_to, of_list.
  nd_eval. rewrite !Nat.eqb_refl, mul20_neq_1.
  apply not_eq_sym in Hlen. apply Nat.eqb_neq in Hlen. rewrite Hlen.
  reflexivity.
Qed.

(** Away from the threshold the masked Boys evaluation of the fast path is
    [torchboys] at order 0. *)
Lemma F_masked_torchboys (x : R) :
  x <> 1e-8 -> FastIntegrals.F_masked x = Integrals.torchboys 0 x.
Proof.
  intros Hx.
  unfold FastIntegrals.F_masked, FastIntegrals.mask1, FastIntegrals.mask2,
    Integrals.torchboys, Integrals.torchboys_small.
  destruct (Rgt_dec x 1e-8), (Rle_dec x 1e-8), (Rlt_dec x 1e-8);
    try lra; try reflexivity.
Qed.

(** C8.  When the fast path returns (20 basis functions per atom), the
    overlap and kinetic matrices of [oei_setup] are symmetric and the
    two-electron tensor of [tei_setup] followed by [tei_finish] is unchanged
    by the exchange of its two index pairs. *)
Theorem fast_path_symmetry (geom : list vec3) (basis : list R) (n : nat)
    (q : list R) :
  length basis = (length geom * 20)%nat ->
  (exists S_ T Vtmp ba,
     FastIntegrals.oei_setup geom basis n q = Some (S_, T, Vtmp, ba) /\
     forall i j : nat,
       nd_at S_ [i; j] = nd_at S_ [j; i] /\ nd_at T [i; j] = nd_at T [j; i]) /\
  (exists Gtmp ba,
     FastIntegrals.tei_setup geom basis n = Some (Gtmp, ba) /\
     forall i j k l : nat,
       nd_at (FastIntegrals.tei_finish Gtmp ba) [i; j; k; l]
       = nd_at (FastIntegrals.tei_finish Gtmp ba) [k; l; i; j]).
Proof.
  intros Hlen. split.
  - destruct (oei_setup_entries geom basis n q Hlen)
      as (S_ & T & Vtmp & ba & Hs & He).
    exists S_, T, Vtmp, ba. split; [exact Hs|].
    intros i j.
    destruct (He i j) as [HS HT]. destruct (He j i) as [HS' HT'].
    rewrite HS, HT, HS', HT'. split.
    + symmetry. apply overlap_swap.
    + symmetry. apply kinetic_swap.
  - destruct (tei_setup_entries geom basis n Hlen) as (G & ba & Hs & He).
    exists G, ba. split; [exact Hs|].
    intros i j k l. unfold FastIntegrals.tei_finish. nd_eval.
    destruct (He i j k l) as [HG Hb]. destruct (He k l i j) as [HG' Hb'].
    rewrite HG, Hb, HG', Hb'.
    rewrite eri_arg_swap, eri_factor_swap. reflexivity.
Qed.

(** C10.  [oei_setup] and [tei_setup] do not read [nbf_per_atom]: two calls
    that differ only there return the same thing.  The centre given to
    basis function [i] is that of atom [i // 20], and the functions return
    at all only when there are exactly 20 basis functions per atom. *)
Theorem setup_ignores_nbf_per_atom (geom : list vec3) (basis : list R)
    (q : list R) (n1 n2 : nat) :
  FastIntegrals.oei_setup geom basis n1 q = FastIntegrals.oei_setup geom basis n2 q /\
  FastIntegrals.tei_setup geom basis n1 = FastIntegrals.tei_setup geom basis n2 /\
  (forall i m : nat,
     nd_at (np_repeat0 (of_rows geom) 20) [i; m]
     = vget (nth (i / 20) geom vzero) m) /\
  (FastIntegrals.tei_setup geom basis n1 <> None
   <-> length basis = (length geom * 20)%nat) /\
  (FastIntegrals.oei_setup geom basis n1 q <> None
   <-> length basis = (length geom * 20)%nat).
Proof.
  split; [reflexivity|]. split; [reflexivity|]. split; [reflexivity|].
  split; split.
  - intros H. destruct (Nat.eq_dec (length basis) (length geom * 20)) as [E|E];
      [exact E|]. exfalso. apply H. now apply tei_setup_none.
  - intros E. destruct (tei_setup_entries geom basis n1 E) as (G & ba & Hs & _).
    rewrite Hs. discriminate.
  - intros H. destruct (Nat.eq_dec (length basis) (length geom * 20)) as [E|E];
      [exact E|]. exfalso. apply H. now apply oei_setup_none.
  - intros E.
    destruct (oei_setup_entries geom basis n1 q E) as (S_ & T & V & ba & Hs & _).
    rewrite Hs. discriminate.
Qed.

End FastClaims.

(** ** Bounds on the integral of the Gaussian *)

Section ErfBound.

Local Open Scope R_scope.

(** *** A lower bound on the error function near 0

    [exp(-t^2) >= (1 - t^2/2)^2 = 1 - t^2 + t^4/4], whose primitive is
    [t - t^3/3 + t^5/20]. *)
Definition gauss_low (t : R) : R := (1 - t * t + t * t * t * t / 4)%R.
Definition gauss_low_prim (t : R) : R := (t - t * t * t / 3 + t * t * t * t * t / 20)%R.

Lemma gauss_low_le (t : R) : t * t <= 2 -> gauss_low t <= gauss t.
Proof.
  intros Ht. unfold gauss_low, gauss.
  replace (- (t * t)) with (- (t * t) / 2 + - (t * t) / 2) by lra.
  rewrite exp_plus.
  pose proof (exp_ineq1_le (- (t * t) / 2)) as H.
  assert (0 <= 1 + - (t * t) / 2) by lra.
  replace (1 - t * t + t * t * t * t / 4)
    with ((1 + - (t * t) / 2) * (1 + - (t * t) / 2)) by lra.
  apply Rmult_le_compat; lra.
Qed.

Lemma gauss_low_prim_lim (x : R) :
  derivable_pt_lim gauss_low_prim x (gauss_low x).
Proof.
  assert (E : forall t, gauss_low_prim t =
     ((id - mult_real_fct (/ 3) (fun y => y ^ 3))
      + mult_real_fct (/ 20) (fun y => y ^ 5))%F t).
  { intros t. unfold gauss_low_prim, plus_fct, minus_fct, mult_real_fct, id.
    simpl. field. }
  assert (L : derivable_pt_lim
     ((id - mult_real_fct (/ 3) (fun y => y ^ 3))
      + mult_real_fct (/ 20) (fun y => y ^ 5))%F x
     (1 - / 3 * (INR 3 * x ^ pred 3) + / 20 * (INR 5 * x ^ pred 5))).
  { apply derivable_pt_lim_plus.
    - apply derivable_pt_lim_minus.
      + apply derivable_pt_lim_id.
      + apply derivable_pt_lim_scal. apply derivable_pt_lim_pow.
    - apply derivable_pt_lim_scal. apply derivable_pt_lim_pow. }
  replace (gauss_low x)
    with (1 - / 3 * (INR 3 * x ^ pred 3) + / 20 * (INR 5 * x ^ pred 5)).
  2:{ unfold gauss_low. simpl. field. }
  intros eps Heps. destruct (L eps Heps) as [d Hd]. exists d.
  intros h Hh Hhd. rewrite !E. apply Hd; assumption.
Qed.

Lemma gauss_low_prim_derivable : derivable gauss_low_prim.
Proof. intros x. exists (gauss_low x). apply gauss_low_prim_lim. Defined.

Lemma gauss_low_derive (x : R) :
  derive gauss_low_prim gauss_low_prim_derivable x = gauss_low x.
Proof.
  unfold derive. apply derive_pt_eq_0. apply gauss_low_prim_lim.
Qed.

Lemma gauss_low_continuity : continuity gauss_low.
Proof.
  unfold gauss_low. reg.
Qed.

Lemma gauss_low_derive_continuity :
  continuity (derive gauss_low_prim gauss_low_prim_derivable).
Proof.
  intros x eps Heps.
  destruct (gauss_low_continuity x eps Heps) as [d [Hd H]].
  exists d. split; [exact Hd|]. intros y Hy.
  rewrite !gauss_low_derive. apply H. exact Hy.
Qed.

Definition gauss_low_C1 : C1_fun := mkC1 gauss_low_derive_continuity.

(** The integral of the Gaussian over [[0, s]] exceeds [s - s^3/3]. *)
Lemma gauss_integral_lower (s : R) :
  0 < s -> s * s <= 2 ->
  s - s * s * s / 3 < RiemannInt (gauss_integrable 0 s).
Proof.
  intros Hs Hs2.
  assert (pr : Riemann_integrable (derive gauss_low_C1 (diff0 gauss_low_C1)) 0 s).
  { apply continuity_implies_RiemannInt; [lra|].
    intros x _. apply (cont1 gauss_low_C1). }
  pose proof (FTC_Riemann gauss_low_C1 pr) as HF.
  assert (HL : RiemannInt pr <= RiemannInt (gauss_integrable 0 s)).
  { apply RiemannInt_P19; [lra|].
    intros x Hx. simpl. rewrite gauss_low_derive.
    apply gauss_low_le. nra. }
  rewrite HF in HL. simpl in HL. unfold gauss_low_prim in HL.
  assert (0 < s * s * s * s * s / 20).
  { assert (0 < s * s * s * s * s) by (repeat apply Rmult_lt_0_compat; lra). lra. }
  lra.
Qed.

Lemma eri_factor_pos (aa bb cc dd : R) (A B C D : vec3) :
  0 < aa -> 0 < bb -> 0 < cc -> 0 < dd ->
  0 < eri_factor aa bb cc dd A B C D.
Proof.
  intros Ha Hb Hc Hd. unfold eri_factor, Integrals.normalize, Rpower.
  assert (0 < PI) by apply PI_RGT_0.
  assert (0 < sqrt (PI / (aa + bb + (cc + dd)))).
  { apply sqrt_lt_R0. apply Rdiv_lt_0_compat; lra. }
  assert (0 < / ((aa + bb) * (cc + dd))).
  { apply Rinv_0_lt_compat. apply Rmult_lt_0_compat; lra. }
  assert (0 < PI ^ 2) by (apply pow_lt; assumption).
  assert (0 < 2) by lra.
  unfold Rdiv.
  repeat first [assumption | apply exp_pos | apply Rmult_lt_0_compat].
Qed.

End ErfBound.

(** Forty basis functions of exponent 1/2: twenty on each of two atoms. *)
Definition basis_half : list R := repeat (1 / 2)%R 40.

(** ** [vectorized_tei] against [eri] *)

Section VectorizedTei.

Local Open Scope R_scope.

Lemma bcast_index (n i : nat) :
  (i < n)%nat -> (if (n =? 1)%nat then 0%nat else i) = i.
Proof.
  intros H. destruct (Nat.eqb_spec n 1); [lia | reflexivity].
Qed.

Lemma eri_delta (a c : R) :
  4 * (1 / (4 * a) + 1 / (4 * c)) = 1 / a + 1 / c.
Proof.
  unfold Rdiv. rewrite !Rinv_mult.
  generalize (/ a), (/ c). intros x y. lra.
Qed.

Variables (geom : list vec3) (basis : list R) (nbf_per_atom : list nat).
Variable centers : list vec3.
Hypothesis Hcenters : Integrals.repeat_interleave geom nbf_per_atom = Some centers.
Hypothesis Hlen : length centers = length basis.

(** Entry [(i, j, k, l)] of [vectorized_tei]: the factor of [eri], times the
    decimal constant, over the square root of the clamped Boys argument,
    times the error function of that square root. *)
Lemma vectorized_tei_entries :
  exists G,
    Integrals.vectorized_tei basis geom nbf_per_atom = Some G /\
    forall i j k l : nat,
      (i < length basis)%nat -> (j < length basis)%nat ->
      (k < length basis)%nat -> (l < length basis)%nat ->
      let s :=
        sqrt (Rmax 1e-12
                (eri_arg (nth i basis 0) (nth j basis 0) (nth k basis 0)
                   (nth l basis 0) (nth i centers vzero) (nth j centers vzero)
                   (nth k centers vzero) (nth l centers vzero))) in
      nd_at G [i; j; k; l]
      = eri_factor (nth i basis 0) (nth j basis 0) (nth k basis 0)
          (nth l basis 0) (nth i centers vzero) (nth j centers vzero)
          (nth k centers vzero) (nth l centers vzero)
        * 0.8862269254527580 / s * erf s.
Proof.
  unfold Integrals.vectorized_tei. rewrite Hcenters.
  unfold broadcast_to, of_list, of_rows. rewrite Hlen.
  nd_eval. rewrite !Nat.eqb_refl. nd_eval.
  eexists. split; [reflexivity|].
  intros i j k l Hi Hj Hk Hl. nd_eval.
  rewrite !(bcast_index _ i Hi), !(bcast_index _ j Hj),
    !(bcast_index _ k Hk), !(bcast_index _ l Hl).
  generalize (nth i basis 0), (nth j basis 0), (nth k basis 0),
    (nth l basis 0), (nth i centers vzero), (nth j centers vzero),
    (nth k centers vzero), (nth l centers vzero).
  intros bi bj bk bl ci cj ck cl.
  unfold sum3. cbn [vget].
  replace (bj + bi) with (bi + bj) by ring.
  replace (bl + bk) with (bk + bl) by ring.
  rewrite !pair_coeff_fast.
  match goal with
  | |- context [sqrt (Rmax 1e-12 ?a)] =>
      replace a with (eri_arg bi bj bk bl ci cj ck cl)
  end.
  2:{ unfold eri_arg. cbv zeta. rewrite eri_delta. vec_eval.
      unfold Rdiv. ring. }
  cbv zeta.
  unfold eri_factor, Integrals.normalize, Rdiv. ring.
Qed.

End VectorizedTei.

(** [vectorized_tei] against [eri].  When [vectorized_tei] returns, an entry
    whose Boys argument is at least [1e-8] is the value of [eri] with
    [sqrt(pi)/2] replaced by the decimal constant [0.8862269254527580]. *)
Theorem vectorized_tei_vs_eri (geom : list vec3) (basis : list R)
    (nbf_per_atom : list nat) (centers : list vec3) (i j k l : nat) :
  Integrals.repeat_interleave geom nbf_per_atom = Some centers ->
  length centers = length basis ->
  (i < length basis)%nat -> (j < length basis)%nat ->
  (k < length basis)%nat -> (l < length basis)%nat ->
  (1e-8 <= eri_arg (nth i basis 0) (nth j basis 0) (nth k basis 0)
             (nth l basis 0) (nth i centers vzero) (nth j centers vzero)
             (nth k centers vzero) (nth l centers vzero))%R ->
  exists G,
    Integrals.vectorized_tei basis geom nbf_per_atom = Some G /\
    (nd_at G [i; j; k; l] * (sqrt PI / 2)
     = 0.8862269254527580
       * Integrals.eri (nth i basis 0) (nth j basis 0) (nth k basis 0)
           (nth l basis 0) (nth i centers vzero) (nth j centers vzero)
           (nth k centers vzero) (nth l centers vzero))%R.
Proof.
  intros Hc Hlen Hi Hj Hk Hl Harg.
  destruct (vectorized_tei_entries geom basis nbf_per_atom centers Hc Hlen)
    as (G & HG & He).
  exists G. split; [exact HG|].
  rewrite (He i j k l Hi Hj Hk Hl). cbv zeta.
  rewrite eri_split.
  set (x := eri_arg _ _ _ _ _ _ _ _) in *.
  rewrite Rmax_right by lra.
  unfold Integrals.torchboys, Integrals.torchboys_small.
  destruct (Rlt_dec x 1e-8) as [Hlt|_]; [lra|].
  unfold Rdiv. rewrite Rinv_mult. ring.
Qed.

(** ** Scatter-add into a matrix *)

Section ScatterAdd.

Local Open Scope R_scope.

Lemma add_at_length (n : nat) (v : R) (a : list R) :
  length (add_at n v a) = length a.
Proof.
  revert n. induction a as [|x a IH]; intros [|n]; cbn; auto.
Qed.

Lemma nth_add_at (n k : nat) (v : R) (a : list R) :
  (n < length a)%nat ->
  nth k (add_at n v a) 0 = nth k a 0 + (if (k =? n)%nat then v else 0).
Proof.
  revert n k. induction a as [|x a IH]; intros n k Hn; [cbn in Hn; lia|].
  destruct n as [|n], k as [|k]; cbn [add_at nth Nat.eqb]; try ring.
  apply IH. cbn in Hn. lia.
Qed.

Lemma index_add_length (a : list R) (I : Z) (v : R) :
  length (index_add a I v) = length a.
Proof.
  unfold index_add. destruct (norm_index _ _); [apply add_at_length|reflexivity].
Qed.

Lemma norm_index_lt (len : nat) (I : Z) (n : nat) :
  norm_index len I = Some n -> (n < len)%nat.
Proof.
  unfold norm_index.
  destruct (I <? 0)%Z;
    destruct (Z.leb_spec 0 (I + Z.of_nat len));
    destruct (Z.leb_spec 0 I);
    destruct (Z.ltb_spec (I + Z.of_nat len) (Z.of_nat len));
    destruct (Z.ltb_spec I (Z.of_nat len));
    cbn; intros E; inversion E; lia.
Qed.

(** A non-negative index designates itself, when in range. *)
Lemma norm_index_nonneg (len : nat) (I : Z) :
  (0 <= I)%Z ->
  norm_index len I = if (I <? Z.of_nat len)%Z then Some (Z.to_nat I) else None.
Proof.
  intros H. unfold norm_index.
  destruct (Z.ltb_spec I 0); [lia|].
  destruct (Z.leb_spec 0 I); [|lia]. reflexivity.
Qed.

(** Whether a write at index [I] lands on position [k]. *)
Definition lands (len : nat) (I : Z) (k : nat) : bool :=
  match norm_index len I with
  | Some n => (k =? n)%nat
  | None => false
  end.

Lemma nth_index_add (a : list R) (I : Z) (v : R) (k : nat) :
  nth k (index_add a I v) 0
  = nth k a 0 + (if lands (length a) I k then v else 0).
Proof.
  unfold index_add, lands.
  destruct (norm_index (length a) I) as [n|] eqn:E.
  - apply nth_add_at. eapply norm_index_lt; eauto.
  - ring.
Qed.

(** Shape of a matrix: [n] rows of length [m]. *)
Definition mat_shape (n m : nat) (M : matrix) : Prop :=
  length M = n /\ Forall (fun r => length r = m) M.

Lemma zeros2_shape (n m : nat) : mat_shape n m (zeros2 n m).
Proof.
  unfold mat_shape, zeros2, zeros. split.
  - apply repeat_length.
  - apply Forall_forall. intros r Hr. apply repeat_spec in Hr. subst.
    apply repeat_length.
Qed.

Lemma update_row_length (n : nat) (f : list R -> list R) (M : matrix) :
  length (update_row n f M) = length M.
Proof.
  revert n. induction M as [|r M IH]; intros [|n]; cbn; auto.
Qed.

Lemma nth_update_row (n k : nat) (f : list R -> list R) (M : matrix) :
  (n < length M)%nat ->
  nth k (update_row n f M) [] = if (k =? n)%nat then f (nth k M []) else nth k M [].
Proof.
  revert n k. induction M as [|r M IH]; intros n k Hn; [cbn in Hn; lia|].
  destruct n as [|n], k as [|k]; cbn [update_row nth Nat.eqb]; try reflexivity.
  apply IH. cbn in Hn. lia.
Qed.

Lemma update_row_Forall (P : list R -> Prop) (n : nat) (f : list R -> list R)
    (M : matrix) :
  (forall r, P r -> P (f r)) -> Forall P M -> Forall P (update_row n f M).
Proof.
  intros Hf. revert n. induction M as [|r M IH]; intros n HM; [destruct n; exact HM|].
  inversion HM; subst. destruct n; cbn; constructor; auto.
Qed.

Lemma index_add2_shape (n m : nat) (M : matrix) (I J : Z) (v : R) :
  mat_shape n m M -> mat_shape n m (index_add2 M I J v).
Proof.
  intros [Hn Hm]. unfold index_add2.
  destruct (norm_index (length M) I) as [k|]; [|split; assumption].
  split.
  - rewrite update_row_length. exact Hn.
  - apply update_row_Forall; [|exact Hm].
    intros r Hr. rewrite index_add_length. exact Hr.
Qed.

(** One scatter-add changes the entry [(i, j)] by [v] exactly when the write
    lands there. *)
Lemma mat_get_index_add2 (n m : nat) (M : matrix) (I J : Z) (v : R)
    (i j : nat) :
  mat_shape n m M -> (i < n)%nat ->
  mat_get (index_add2 M I J v) i j
  = mat_get M i j + (if lands n I i && lands m J j then v else 0).
Proof.
  intros [Hn Hm] Hi. unfold mat_get, index_add2, lands at 1.
  rewrite Hn.
  destruct (norm_index n I) as [k|] eqn:E; cbn [andb]; [|ring].
  rewrite nth_update_row by (rewrite Hn; eapply norm_index_lt; eauto).
  destruct (Nat.eqb_spec i k) as [->|Hne]; cbn [andb]; [|ring].
  rewrite nth_index_add.
  assert (Hk : length (nth k M []) = m).
  { rewrite Forall_forall in Hm. apply Hm. apply nth_In. lia. }
  rewrite Hk. reflexivity.
Qed.

Lemma fold_left_Rplus (l : list R) (a : R) :
  fold_left Rplus l a = a + Rsum l.
Proof.
  unfold Rsum. revert a. induction l as [|x l IH]; intros a; cbn.
  - ring.
  - rewrite IH, (IH (0 + x)). ring.
Qed.

(** A sequence of scatter-adds: the entry [(i, j)] of the result is its
    initial value plus the sum of the values whose write lands on
    [(i, j)], each counted once, in the order of the sequence. *)
Lemma mat_get_scatter {Q : Type} (qi qj : Q -> Z) (qv : Q -> R) (n m : nat)
    (i j : nat) (l : list Q) : forall M,
  mat_shape n m M -> (i < n)%nat ->
  mat_get (fold_left (fun M q => index_add2 M (qi q) (qj q) (qv q)) l M) i j
  = mat_get M i j
    + Rsum (map qv (filter (fun q => lands n (qi q) i && lands m (qj q) j) l)).
Proof.
  induction l as [|q l IH]; intros M HM Hi; cbn [fold_left filter map].
  - unfold Rsum. cbn. ring.
  - rewrite IH by (try apply index_add2_shape; assumption).
    rewrite (mat_get_index_add2 n m) by assumption.
    destruct (lands n (qi q) i && lands m (qj q) j); cbn [map].
    + unfold Rsum at 2. cbn [fold_left]. rewrite fold_left_Rplus. ring.
    + ring.
Qed.

End ScatterAdd.

(** ** [oei_arrays]: the assembler *)

Section Assembler.

Local Open Scope R_scope.

Variable binomial_prefactor : Z -> Z -> Z -> R -> R -> R.
Variable new_binomial_prefactor : Z -> Z -> Z -> list R -> list R -> R.
Variable boys : Z -> R -> R.
Variable factorials : Z -> R.
Variable double_factorials : Z -> R.
Variable am_leading_indices : list Z.
Variable angular_momentum_combinations : list (Z * Z * Z).
Variable cartesian_product : list Z -> list Z -> list (Z * Z).

(** What is assumed of [cartesian_product]: it lists every pair of its two
    arguments, once. *)
Hypothesis cartesian_product_NoDup : forall xs ys,
  NoDup xs -> NoDup ys -> NoDup (cartesian_product xs ys).
Hypothesis cartesian_product_In : forall xs ys x y,
  In (x, y) (cartesian_product xs ys) <-> In x xs /\ In y ys.

Variables (geom : list vec3) (fb : Oei.flat_basis) (charges : list R).

Let duet_integrals :=
  Oei.duet_integrals binomial_prefactor new_binomial_prefactor boys factorials
    double_factorials am_leading_indices angular_momentum_combinations
    geom fb charges.
Let oei_b_loop :=
  Oei.oei_b_loop binomial_prefactor new_binomial_prefactor boys factorials
    double_factorials am_leading_indices angular_momentum_combinations
    geom fb charges.
Let oei_a_loop :=
  Oei.oei_a_loop binomial_prefactor new_binomial_prefactor boys factorials
    double_factorials am_leading_indices angular_momentum_combinations
    geom fb charges.
Let oei_arrays :=
  Oei.oei_arrays binomial_prefactor new_binomial_prefactor boys factorials
    double_factorials am_leading_indices angular_momentum_combinations
    cartesian_product.

(** The three matrices of a scope, and the effect of one pass of the
    innermost body on them. *)
Definition mats (s : Oei.oei_scope) : matrix * matrix * matrix :=
  (Oei.sS s, Oei.sT s, Oei.sV s).

Definition acc_m (q : Z * Z * (R * R * R)) (M : matrix * matrix * matrix)
    : matrix * matrix * matrix :=
  let '(i, j, (o, k, p)) := q in
  let '(S_, T, V) := M in
  (index_add2 S_ i j o, index_add2 T i j k, index_add2 V i j p).

Lemma mats_accumulate (q : Z * Z * (R * R * R)) (s : Oei.oei_scope) :
  mats (Oei.accumulate q s) = acc_m q (mats s) /\
  Oei.s_a (Oei.accumulate q s) = Oei.s_a s /\
  Oei.s_b (Oei.accumulate q s) = Oei.s_b s.
Proof.
  destruct q as [[i j] [[o k] p]]. destruct s. repeat split.
Qed.

Definition dims_at (p : Z) : Z := jnp_get 0%Z (Oei.dims fb) p.

(** The [b] loop exits by its condition and has run the body at
    [b = s_b, ..., dims[p2] - 1]. *)
Lemma oei_b_loop_eq (p1 p2 : Z) (s : Oei.oei_scope) :
  mats (oei_b_loop p1 p2 s)
  = fold_left (fun M b => acc_m (duet_integrals p1 p2 (Oei.s_a s) b) M)
      (zrange (Oei.s_b s) (dims_at p2)) (mats s)
  /\ Oei.s_a (oei_b_loop p1 p2 s) = Oei.s_a s.
Proof.
  unfold oei_b_loop, Oei.oei_b_loop.
  rewrite (while_countup Oei.s_b (dims_at p2) _
             (fun b s =>
                let s1 := Oei.accumulate (duet_integrals p1 p2 (Oei.s_a s) b) s in
                Oei.mkOei (Oei.sS s1) (Oei.sT s1) (Oei.sV s1) (Oei.s_a s1)
                          (Oei.s_b s1 + 1))).
  - cbn [run]. generalize (zrange (Oei.s_b s) (dims_at p2)) as l.
    intros l. revert s. induction l as [|b l IH]; intros s; cbn [fold_left].
    + split; reflexivity.
    + destruct (IH (Oei.mkOei
        (Oei.sS (Oei.accumulate (duet_integrals p1 p2 (Oei.s_a s) b) s))
        (Oei.sT (Oei.accumulate (duet_integrals p1 p2 (Oei.s_a s) b) s))
        (Oei.sV (Oei.accumulate (duet_integrals p1 p2 (Oei.s_a s) b) s))
        (Oei.s_a (Oei.accumulate (duet_integrals p1 p2 (Oei.s_a s) b) s))
        (Oei.s_b (Oei.accumulate (duet_integrals p1 p2 (Oei.s_a s) b) s) + 1)))
        as [IH1 IH2].
      cbv zeta. rewrite IH1, IH2. cbn [Oei.s_a].
      destruct (mats_accumulate (duet_integrals p1 p2 (Oei.s_a s) b) s)
        as (Hm & Ha & _).
      rewrite Ha. split; [|reflexivity].
      rewrite <- Hm. reflexivity.
  - intros s'. reflexivity.
  - intros s'. cbv zeta. cbn [Oei.s_b].
    destruct (mats_accumulate (duet_integrals p1 p2 (Oei.s_a s') (Oei.s_b s')) s')
      as (_ & _ & Hb).
    rewrite Hb. reflexivity.
  - unfold dims_at. lia.
Qed.

(** The [a] loop exits by its condition and has run the [b] loop at
    [a = s_a, ..., dims[p1] - 1]. *)
Lemma oei_a_loop_eq (p1 p2 : Z) (s : Oei.oei_scope) :
  mats (oei_a_loop p1 p2 s)
  = fold_left
      (fun M a =>
         fold_left (fun M b => acc_m (duet_integrals p1 p2 a b) M)
           (countup (dims_at p2)) M)
      (zrange (Oei.s_a s) (dims_at p1)) (mats s).
Proof.
  unfold oei_a_loop, Oei.oei_a_loop.
  rewrite (while_countup Oei.s_a (dims_at p1) _
             (fun a s =>
                let s2 := oei_b_loop p1 p2
                            (Oei.mkOei (Oei.sS s) (Oei.sT s) (Oei.sV s) a 0) in
                Oei.mkOei (Oei.sS s2) (Oei.sT s2) (Oei.sV s2) (a + 1)
                          (Oei.s_b s2))).
  - cbn [run]. generalize (zrange (Oei.s_a s) (dims_at p1)) as l.
    intros l. revert s. induction l as [|a l IH]; intros s; cbn [fold_left].
    + reflexivity.
    + rewrite IH. f_equal. cbv zeta.
      destruct (oei_b_loop_eq p1 p2
                  (Oei.mkOei (Oei.sS s) (Oei.sT s) (Oei.sV s) a 0)) as [Hm _].
      cbn [Oei.s_a Oei.s_b] in Hm. rewrite zrange_0 in Hm.
      unfold mats at 1. cbn [Oei.sS Oei.sT Oei.sV].
      exact Hm.
  - intros s'. cbv zeta.
    destruct (oei_b_loop_eq p1 p2
                (Oei.mkOei (Oei.sS s') (Oei.sT s') (Oei.sV s') (Oei.s_a s') 0))
      as [_ Ha].
    cbn [Oei.s_a] in Ha. fold oei_b_loop. rewrite Ha. reflexivity.
  - intros s'. reflexivity.
  - unfold dims_at. lia.
Qed.

(** Primitive duets with their components, in the order of the loops:
    [(p1, p2, a, b)] for every ordered pair of primitives, [a] below
    [dims[p1]] and [b] below [dims[p2]]. *)
Definition duet_quads : list (Z * Z * Z * Z) :=
  let nprim := Z.of_nat (length (Oei.coeffs fb)) in
  flat_map
    (fun d : Z * Z =>
       flat_map
         (fun a => map (fun b => (fst d, snd d, a, b)) (countup (dims_at (snd d))))
         (countup (dims_at (fst d))))
    (cartesian_product (countup nprim) (countup nprim)).

Definition quad_integrals (q : Z * Z * Z * Z) : Z * Z * (R * R * R) :=
  let '(p1, p2, a, b) := q in duet_integrals p1 p2 a b.

Lemma oei_arrays_mats (nbf : nat) :
  oei_arrays geom fb nbf charges
  = fold_left (fun M q => acc_m (quad_integrals q) M) duet_quads
      (zeros2 nbf nbf, zeros2 nbf nbf, zeros2 nbf nbf).
Proof.
  unfold oei_arrays, Oei.oei_arrays, duet_quads. cbv zeta.
  set (duets := cartesian_product _ _).
  set (s0 := Oei.mkOei _ _ _ 0 0).
  change (zeros2 nbf nbf, zeros2 nbf nbf, zeros2 nbf nbf) with (mats s0).
  generalize s0. clear s0. induction duets as [|[p1 p2] l IH]; intros s.
  - reflexivity.
  - cbn [fold_left flat_map]. rewrite fold_left_app.
    fold oei_a_loop. rewrite IH. f_equal.
    rewrite oei_a_loop_eq. cbn [Oei.s_a fst snd]. rewrite zrange_0.
    unfold mats at 1. cbn [Oei.sS Oei.sT Oei.sV]. fold (mats s).
    rewrite fold_left_flat_map. apply fold_left_ext_all. intros M a.
    rewrite fold_left_map. reflexivity.
Qed.

(** The projections of a fold of [acc_m]. *)
Lemma fold_acc_m {Q : Type} (f : Q -> Z * Z * (R * R * R)) (l : list Q) :
  forall S_ T V,
  fold_left (fun M q => acc_m (f q) M) l (S_, T, V)
  = (fold_left (fun M q => index_add2 M (fst (fst (f q))) (snd (fst (f q)))
                             (fst (fst (snd (f q))))) l S_,
     fold_left (fun M q => index_add2 M (fst (fst (f q))) (snd (fst (f q)))
                             (snd (fst (snd (f q))))) l T,
     fold_left (fun M q => index_add2 M (fst (fst (f q))) (snd (fst (f q)))
                             (snd (snd (f q)))) l V).
Proof.
  induction l as [|q l IH]; intros S_ T V; cbn [fold_left]; [reflexivity|].
  destruct (f q) as [[i j] [[o k] p]] eqn:E. cbn [acc_m fst snd].
  apply IH.
Qed.

Lemma jnp_get_Forall {X : Type} (P : X -> Prop) (d : X) (a : list X) (I : Z) :
  Forall P a -> P d -> P (jnp_get d a I).
Proof.
  intros Ha Hd. unfold jnp_get.
  destruct (nth_in_or_default
              (Z.to_nat (Z.max 0 (Z.min (if (I <? 0)%Z then (I + Z.of_nat (length a))%Z else I)
                                        (Z.of_nat (length a) - 1)))) a d) as [H|H].
  - rewrite Forall_forall in Ha. now apply Ha.
  - now rewrite H.
Qed.

Lemma lands_nonneg (n : nat) (I : Z) (k : nat) :
  (0 <= I)%Z -> (k < n)%nat -> lands n I k = (I =? Z.of_nat k)%Z.
Proof.
  intros HI Hk. unfold lands. rewrite norm_index_nonneg by exact HI.
  destruct (Z.ltb_spec I (Z.of_nat n)).
  - destruct (Nat.eqb_spec k (Z.to_nat I)), (Z.eqb_spec I (Z.of_nat k));
      try reflexivity; lia.
  - destruct (Z.eqb_spec I (Z.of_nat k)); [lia | reflexivity].
Qed.

Lemma in_duet_quads (p1 p2 a b : Z) :
  In (p1, p2, a, b) duet_quads <->
  (0 <= p1 < Z.of_nat (length (Oei.coeffs fb)))%Z /\
  (0 <= p2 < Z.of_nat (length (Oei.coeffs fb)))%Z /\
  (0 <= a < dims_at p1)%Z /\ (0 <= b < dims_at p2)%Z.
Proof.
  unfold duet_quads. cbv zeta. rewrite in_flat_map. split.
  - intros [[d1 d2] [Hd H]]. cbn [fst snd] in H.
    apply in_flat_map in H. destruct H as [a' [Ha H]].
    apply in_map_iff in H. destruct H as [b' [E Hb]].
    inversion E; subst.
    apply cartesian_product_In in Hd. destruct Hd as [H1 H2].
    apply in_countup in H1, H2, Ha, Hb. tauto.
  - intros (H1 & H2 & Ha & Hb). exists (p1, p2). split.
    + apply cartesian_product_In. split; now apply in_countup.
    + cbn [fst snd]. apply in_flat_map. exists a. split; [now apply in_countup|].
      apply in_map_iff. exists b. split; [reflexivity | now apply in_countup].
Qed.

Lemma NoDup_duet_quads : NoDup duet_quads.
Proof.
  unfold duet_quads. cbv zeta.
  apply (NoDup_flat_map _ (fun q : Z * Z * Z * Z => (fst (fst (fst q)), snd (fst (fst q))))).
  - apply cartesian_product_NoDup; apply NoDup_countup.
  - intros [d1 d2]. cbn [fst snd].
    apply (NoDup_flat_map _ (fun q : Z * Z * Z * Z => snd (fst q))).
    + apply NoDup_countup.
    + intros a. apply NoDup_map_inj; [|apply NoDup_countup].
      intros x y E. now inversion E.
    + intros a q Hq. apply in_map_iff in Hq. destruct Hq as [b [<- _]].
      reflexivity.
  - intros [d1 d2] q Hq. apply in_flat_map in Hq. destruct Hq as [a [_ Hq]].
    apply in_map_iff in Hq. destruct Hq as [b [<- _]]. reflexivity.
Qed.

(** The contributions of [(p1, p2, a, b)]: the product of the two
    contraction coefficients times the primitive integral. *)
Definition overlap_int (q : Z * Z * Z * Z) : R := fst (fst (snd (quad_integrals q))).
Definition kinetic_int (q : Z * Z * Z * Z) : R := snd (fst (snd (quad_integrals q))).
Definition potential_int (q : Z * Z * Z * Z) : R := snd (snd (quad_integrals q)).

(** Whether [(p1, p2, a, b)] maps to the global position [(i, j)]: shell
    offset plus component index, on both sides. *)
Definition maps_to (i j : nat) (q : Z * Z * Z * Z) : bool :=
  let '(p1, p2, a, b) := q in
  ((jnp_get 0 (Oei.indices fb) p1 + a =? Z.of_nat i)
   && (jnp_get 0 (Oei.indices fb) p2 + b =? Z.of_nat j))%Z.

(** The product of the two contraction coefficients of a duet. *)
Definition contraction (q : Z * Z * Z * Z) : R :=
  let '(p1, p2, a, b) := q in
  jnp_get 0 (Oei.coeffs fb) p1 * jnp_get 0 (Oei.coeffs fb) p2.

(** The single-primitive integrals of the duet [(p1, p2)] at the components
    [(a, b)]: exponents [aa], [bb] of the two primitives, centres [A], [B]
    of their atoms, momenta [La], [Lb] of the two components, product centre
    [P = (aa A + bb B) / (aa + bb)] and pair prefactor
    [exp(- aa bb |A - B|^2 / (aa + bb))]. *)
Definition primitive_overlap (q : Z * Z * Z * Z) : R :=
  let '(p1, p2, a, b) := q in
  let aa := jnp_get 0 (Oei.exps fb) p1 in
  let bb := jnp_get 0 (Oei.exps fb) p2 in
  let A := jnp_get vzero geom (jnp_get 0%Z (Oei.atoms fb) p1) in
  let B := jnp_get vzero geom (jnp_get 0%Z (Oei.atoms fb) p2) in
  let La := jnp_get (0, 0, 0)%Z angular_momentum_combinations
              (a + jnp_get 0%Z am_leading_indices (jnp_get 0%Z (Oei.ams fb) p1)) in
  let Lb := jnp_get (0, 0, 0)%Z angular_momentum_combinations
              (b + jnp_get 0%Z am_leading_indices (jnp_get 0%Z (Oei.ams fb) p2)) in
  let P := vdiv (vadd (vscale aa A) (vscale bb B)) (aa + bb) in
  Oei.overlap new_binomial_prefactor double_factorials aa La bb Lb
    (Oei.pow_table (vsub P A)) (Oei.pow_table (vsub P B))
    (exp (- aa * bb * vdot (vsub A B) (vsub A B) / (aa + bb))).

Definition primitive_kinetic (q : Z * Z * Z * Z) : R :=
  let '(p1, p2, a, b) := q in
  let aa := jnp_get 0 (Oei.exps fb) p1 in
  let bb := jnp_get 0 (Oei.exps fb) p2 in
  let A := jnp_get vzero geom (jnp_get 0%Z (Oei.atoms fb) p1) in
  let B := jnp_get vzero geom (jnp_get 0%Z (Oei.atoms fb) p2) in
  let La := jnp_get (0, 0, 0)%Z angular_momentum_combinations
              (a + jnp_get 0%Z am_leading_indices (jnp_get 0%Z (Oei.ams fb) p1)) in
  let Lb := jnp_get (0, 0, 0)%Z angular_momentum_combinations
              (b + jnp_get 0%Z am_leading_indices (jnp_get 0%Z (Oei.ams fb) p2)) in
  let P := vdiv (vadd (vscale aa A) (vscale bb B)) (aa + bb) in
  Oei.kinetic new_binomial_prefactor double_factorials aa La bb Lb
    (Oei.pow_table (vsub P A)) (Oei.pow_table (vsub P B))
    (exp (- aa * bb * vdot (vsub A B) (vsub A B) / (aa + bb))).

Definition primitive_potential (q : Z * Z * Z * Z) : R :=
  let '(p1, p2, a, b) := q in
  let aa := jnp_get 0 (Oei.exps fb) p1 in
  let bb := jnp_get 0 (Oei.exps fb) p2 in
  let A := jnp_get vzero geom (jnp_get 0%Z (Oei.atoms fb) p1) in
  let B := jnp_get vzero geom (jnp_get 0%Z (Oei.atoms fb) p2) in
  let La := jnp_get (0, 0, 0)%Z angular_momentum_combinations
              (a + jnp_get 0%Z am_leading_indices (jnp_get 0%Z (Oei.ams fb) p1)) in
  let Lb := jnp_get (0, 0, 0)%Z angular_momentum_combinations
              (b + jnp_get 0%Z am_leading_indices (jnp_get 0%Z (Oei.ams fb) p2)) in
  let P := vdiv (vadd (vscale aa A) (vscale bb B)) (aa + bb) in
  Oei.potential binomial_prefactor boys factorials aa La bb Lb
    (vsub P A) (vsub P B) P
    (exp (- aa * bb * vdot (vsub A B) (vsub A B) / (aa + bb)))
    geom charges.

(** What the loop body adds for a duet is the primitive integral times the
    contraction coefficients. *)
Lemma duet_contributions (q : Z * Z * Z * Z) :
  overlap_int q = primitive_overlap q * contraction q /\
  kinetic_int q = primitive_kinetic q * contraction q /\
  potential_int q = primitive_potential q * contraction q.
Proof.
  destruct q as [[[p1 p2] a] b]. repeat split.
Qed.

(** With non-negative offsets and every shell inside the [nbf] functions,
    a duet at given components is written at exactly one position. *)
Lemma quad_target (nbf : nat) (q : Z * Z * Z * Z) :
  Forall (fun x => 0 <= x)%Z (Oei.indices fb) ->
  (forall p : Z, (0 <= p < Z.of_nat (length (Oei.coeffs fb)))%Z ->
     (jnp_get 0 (Oei.indices fb) p + dims_at p <= Z.of_nat nbf)%Z) ->
  In q duet_quads ->
  exists i j : nat,
    (i < nbf)%nat /\ (j < nbf)%nat /\ maps_to i j q = true /\
    forall i' j' : nat, maps_to i' j' q = true -> i' = i /\ j' = j.
Proof.
  intros Hidx Hnbf Hin. destruct q as [[[p1 p2] a] b].
  apply in_duet_quads in Hin. destruct Hin as (Hp1 & Hp2 & Ha & Hb).
  assert (H1 : (0 <= jnp_get 0 (Oei.indices fb) p1)%Z)
    by (apply jnp_get_Forall; [exact Hidx | lia]).
  assert (H2 : (0 <= jnp_get 0 (Oei.indices fb) p2)%Z)
    by (apply jnp_get_Forall; [exact Hidx | lia]).
  pose proof (Hnbf p1 Hp1) as N1. pose proof (Hnbf p2 Hp2) as N2.
  exists (Z.to_nat (jnp_get 0 (Oei.indices fb) p1 + a)%Z),
         (Z.to_nat (jnp_get 0 (Oei.indices fb) p2 + b)%Z).
  split; [lia|]. split; [lia|]. unfold maps_to. split.
  - apply andb_true_iff. split; apply Z.eqb_eq; lia.
  - intros i' j' H. apply andb_true_iff in H. destruct H as [E1 E2].
    apply Z.eqb_eq in E1, E2. lia.
Qed.

(** C1.  [oei_arrays] runs over all [nprim^2] ordered duets of primitives
    (each once, symmetric duplicates included) and, within a duet, over all
    pairs of components.  For a basis with non-negative shell offsets whose
    shells all lie inside the [nbf] functions, every duet at given
    components is written at exactly one position [(i, j)] (none is left
    out, none is written twice), and the entry [(i, j)] of each of [S],
    [T], [V] is the sum, over the duets and components that map to
    [(i, j)], of the single-primitive integral ([overlap], [kinetic],
    [potential] at the exponents, centres and momenta of the duet) times the
    product of the two contraction coefficients. *)
Theorem oei_arrays_entries (nbf i j : nat) :
  (i < nbf)%nat -> (j < nbf)%nat ->
  Forall (fun x => 0 <= x)%Z (Oei.indices fb) ->
  (forall p : Z, (0 <= p < Z.of_nat (length (Oei.coeffs fb)))%Z ->
     (jnp_get 0 (Oei.indices fb) p + dims_at p <= Z.of_nat nbf)%Z) ->
  let nprim := length (Oei.coeffs fb) in
  let '(S_, T, V) := oei_arrays geom fb nbf charges in
  length (cartesian_product (countup (Z.of_nat nprim)) (countup (Z.of_nat nprim)))
    = (nprim * nprim)%nat /\
  NoDup duet_quads /\
  (forall p1 p2 a b : Z,
     In (p1, p2, a, b) duet_quads <->
     (0 <= p1 < Z.of_nat nprim)%Z /\ (0 <= p2 < Z.of_nat nprim)%Z /\
     (0 <= a < dims_at p1)%Z /\ (0 <= b < dims_at p2)%Z) /\
  (forall q : Z * Z * Z * Z, In q duet_quads ->
     exists i0 j0 : nat,
       (i0 < nbf)%nat /\ (j0 < nbf)%nat /\ maps_to i0 j0 q = true /\
       forall i' j' : nat, maps_to i' j' q = true -> i' = i0 /\ j' = j0) /\
  mat_get S_ i j
  = Rsum (map (fun q => primitive_overlap q * contraction q)
              (filter (maps_to i j) duet_quads)) /\
  mat_get T i j
  = Rsum (map (fun q => primitive_kinetic q * contraction q)
              (filter (maps_to i j) duet_quads)) /\
  mat_get V i j
  = Rsum (map (fun q => primitive_potential q * contraction q)
              (filter (maps_to i j) duet_quads)).
Proof.
  intros Hi Hj Hidx Hnbf. cbv zeta.
  rewrite oei_arrays_mats, fold_acc_m.
  split; [|split; [exact NoDup_duet_quads|split; [exact in_duet_quads|]]].
  { rewrite (Permutation.Permutation_length
               (l' := list_prod (countup (Z.of_nat (length (Oei.coeffs fb))))
                        (countup (Z.of_nat (length (Oei.coeffs fb)))))).
    - rewrite length_prod. unfold countup. rewrite length_map, length_seq. lia.
    - apply Permutation.NoDup_Permutation.
      + apply cartesian_product_NoDup; apply NoDup_countup.
      + apply NoDup_list_prod; apply NoDup_countup.
      + intros [x y]. rewrite cartesian_product_In, in_prod_iff. tauto. }
  split; [intros q Hq; now apply quad_target|].
  assert (Hf : filter (fun q =>
                 lands nbf (fst (fst (quad_integrals q))) i
                 && lands nbf (snd (fst (quad_integrals q))) j) duet_quads
               = filter (maps_to i j) duet_quads).
  { apply filter_ext_in. intros [[[p1 p2] a] b] Hin.
    apply in_duet_quads in Hin. destruct Hin as (_ & _ & Ha & Hb).
    assert (H1 : (0 <= jnp_get 0 (Oei.indices fb) p1)%Z)
      by (apply jnp_get_Forall; [exact Hidx | lia]).
    assert (H2 : (0 <= jnp_get 0 (Oei.indices fb) p2)%Z)
      by (apply jnp_get_Forall; [exact Hidx | lia]).
    unfold quad_integrals, duet_integrals, Oei.duet_integrals, maps_to.
    cbn [fst snd].
    rewrite !lands_nonneg by (assumption || lia). reflexivity. }
  assert (Hz : forall (M0 : R) (f g : Z * Z * Z * Z -> R) (l : list (Z * Z * Z * Z)),
            (forall q, f q = g q) -> M0 = 0 ->
            M0 + Rsum (map f l) = Rsum (map g l)).
  { intros M0 f g l E ->. rewrite (map_ext f g E). ring. }
  repeat split.
  - rewrite (mat_get_scatter _ _ _ nbf nbf) by (try apply zeros2_shape; assumption).
    rewrite Hf. apply Hz.
    + intros q. apply (duet_contributions q).
    + unfold mat_get, zeros2, zeros.
      rewrite (nth_indep _ [] (repeat 0 nbf)) by (rewrite repeat_length; lia).
      rewrite !nth_repeat. reflexivity.
  - rewrite (mat_get_scatter _ _ _ nbf nbf) by (try apply zeros2_shape; assumption).
    rewrite Hf. apply Hz.
    + intros q. apply (duet_contributions q).
    + unfold mat_get, zeros2, zeros.
      rewrite (nth_indep _ [] (repeat 0 nbf)) by (rewrite repeat_length; lia).
      rewrite !nth_repeat. reflexivity.
  - rewrite (mat_get_scatter _ _ _ nbf nbf) by (try apply zeros2_shape; assumption).
    rewrite Hf. apply Hz.
    + intros q. apply (duet_contributions q).
    + unfold mat_get, zeros2, zeros.
      rewrite (nth_indep _ [] (repeat 0 nbf)) by (rewrite repeat_length; lia).
      rewrite !nth_repeat. reflexivity.
Qed.

End Assembler.

(** ** [potential]: the loops over [I], [J], [K] *)

Section PotentialLoops.

Local Open Scope R_scope.

Variable boys : Z -> R -> R.
Variables (Ax Ay Az : list R) (nI nJ nK : Z) (boys_arg : R).

Let K_loop := Oei.potential_K_loop boys Ax Ay Az nK boys_arg.
Let J_loop := Oei.potential_J_loop boys Ax Ay Az nJ nK boys_arg.
Let I_loop := Oei.potential_I_loop boys Ax Ay Az nI nJ nK boys_arg.

(** The term added at [(I, J, K)]. *)
Definition V_term (I J K : Z) : R :=
  jnp_get 0 Ax I * jnp_get 0 Ay J * jnp_get 0 Az K * boys (I + J + K)%Z boys_arg.

Lemma potential_K_loop_eq (s : Oei.V_scope) :
  Oei.V_total (K_loop s)
  = fold_left (fun t K => t + V_term (Oei.V_I s) (Oei.V_J s) K)
      (zrange (Oei.V_K s) nK) (Oei.V_total s)
  /\ Oei.V_I (K_loop s) = Oei.V_I s /\ Oei.V_J (K_loop s) = Oei.V_J s.
Proof.
  unfold K_loop, Oei.potential_K_loop.
  rewrite (while_countup Oei.V_K nK _
             (fun K s => Oei.mkVs
                (Oei.V_total s + V_term (Oei.V_I s) (Oei.V_J s) K)
                (Oei.V_I s) (Oei.V_J s) (Oei.V_K s + 1))).
  - cbn [run]. generalize (zrange (Oei.V_K s) nK) as l. intros l. revert s.
    induction l as [|K l IH]; intros s; cbn [fold_left]; [repeat split|].
    destruct (IH (Oei.mkVs (Oei.V_total s + V_term (Oei.V_I s) (Oei.V_J s) K)
                           (Oei.V_I s) (Oei.V_J s) (Oei.V_K s + 1)))
      as (H1 & H2 & H3).
    rewrite H1, H2, H3. repeat split.
  - intros s'. reflexivity.
  - intros s'. reflexivity.
  - lia.
Qed.

Lemma potential_J_loop_eq (s : Oei.V_scope) :
  Oei.V_total (J_loop s)
  = fold_left
      (fun t J => fold_left (fun t K => t + V_term (Oei.V_I s) J K)
                    (countup nK) t)
      (zrange (Oei.V_J s) nJ) (Oei.V_total s)
  /\ Oei.V_I (J_loop s) = Oei.V_I s.
Proof.
  unfold J_loop, Oei.potential_J_loop.
  rewrite (while_countup Oei.V_J nJ _
             (fun J s =>
                let s2 := K_loop (Oei.mkVs (Oei.V_total s) (Oei.V_I s) J 0) in
                Oei.mkVs (Oei.V_total s2) (Oei.V_I s2) (J + 1) (Oei.V_K s2))).
  - cbn [run]. generalize (zrange (Oei.V_J s) nJ) as l. intros l. revert s.
    induction l as [|J l IH]; intros s; cbn [fold_left]; [repeat split|].
    cbv zeta.
    destruct (potential_K_loop_eq (Oei.mkVs (Oei.V_total s) (Oei.V_I s) J 0))
      as (K1 & K2 & _).
    cbn [Oei.V_total Oei.V_I Oei.V_J Oei.V_K] in K1, K2. rewrite zrange_0 in K1.
    match goal with
    | |- context [fold_left _ l ?s'] => destruct (IH s') as (H1 & H2)
    end.
    rewrite H1, H2. cbn [Oei.V_total Oei.V_I]. rewrite K1, K2.
    split; reflexivity.
  - intros s'. cbv zeta.
    destruct (potential_K_loop_eq
                (Oei.mkVs (Oei.V_total s') (Oei.V_I s') (Oei.V_J s') 0))
      as (_ & _ & K3).
    cbn [Oei.V_J] in K3. fold K_loop. rewrite K3. reflexivity.
  - intros s'. reflexivity.
  - lia.
Qed.

(** The nest exits by its conditions, and its total is the sum, in loop
    order, of the terms at all [(I, J, K)] below [(nI, nJ, nK)]. *)
Lemma potential_I_loop_eq (s : Oei.V_scope) :
  Oei.V_total (I_loop s)
  = fold_left
      (fun t I =>
         fold_left
           (fun t J => fold_left (fun t K => t + V_term I J K) (countup nK) t)
           (countup nJ) t)
      (zrange (Oei.V_I s) nI) (Oei.V_total s).
Proof.
  unfold I_loop, Oei.potential_I_loop.
  rewrite (while_countup Oei.V_I nI _
             (fun I s =>
                let s2 := J_loop (Oei.mkVs (Oei.V_total s) I 0 (Oei.V_K s)) in
                Oei.mkVs (Oei.V_total s2) (I + 1) (Oei.V_J s2) (Oei.V_K s2))).
  - cbn [run]. generalize (zrange (Oei.V_I s) nI) as l. intros l. revert s.
    induction l as [|I l IH]; intros s; cbn [fold_left]; [reflexivity|].
    cbv zeta. rewrite IH. cbn [Oei.V_total].
    destruct (potential_J_loop_eq (Oei.mkVs (Oei.V_total s) I 0 (Oei.V_K s)))
      as (J1 & _).
    cbn [Oei.V_total Oei.V_I Oei.V_J] in J1. rewrite zrange_0 in J1.
    rewrite J1. reflexivity.
  - intros s'. cbv zeta.
    destruct (potential_J_loop_eq
                (Oei.mkVs (Oei.V_total s') (Oei.V_I s') 0 (Oei.V_K s')))
      as (_ & J2).
    cbn [Oei.V_I] in J2. fold J_loop. rewrite J2. reflexivity.
  - intros s'. reflexivity.
  - lia.
Qed.

End PotentialLoops.

(** ** No validation of the angular momentum *)

Section NoValidation.

Local Open Scope R_scope.

Variable binomial_prefactor : Z -> Z -> Z -> R -> R -> R.
Variable new_binomial_prefactor : Z -> Z -> Z -> list R -> list R -> R.
Variable boys : Z -> R -> R.
Variable factorials : Z -> R.
Variable double_factorials : Z -> R.
Variable am_leading_indices : list Z.
Variable angular_momentum_combinations : list (Z * Z * Z).
Variable cartesian_product : list Z -> list Z -> list (Z * Z).

Lemma acc_m_shape (n : nat) (q : Z * Z * (R * R * R))
    (M : matrix * matrix * matrix) :
  mat_shape n n (fst (fst M)) /\ mat_shape n n (snd (fst M))
    /\ mat_shape n n (snd M) ->
  mat_shape n n (fst (fst (acc_m q M))) /\ mat_shape n n (snd (fst (acc_m q M)))
    /\ mat_shape n n (snd (acc_m q M)).
Proof.
  destruct q as [[i j] [[o k] p]], M as [[S_ T] V]. cbn [acc_m fst snd].
  intros (H1 & H2 & H3).
  split; [|split]; apply index_add2_shape; assumption.
Qed.

(** Whatever the flattened basis, the three arrays of [oei_arrays] have
    shape [(nbf, nbf)]. *)
Lemma oei_arrays_shape (geom : list vec3) (fb : Oei.flat_basis) (nbf : nat)
    (charges : list R) :
  let M := Oei.oei_arrays binomial_prefactor new_binomial_prefactor boys
             factorials double_factorials am_leading_indices
             angular_momentum_combinations cartesian_product geom fb nbf
             charges in
  mat_shape nbf nbf (fst (fst M)) /\ mat_shape nbf nbf (snd (fst M))
    /\ mat_shape nbf nbf (snd M).
Proof.
  cbv zeta. rewrite oei_arrays_mats.
  generalize (duet_quads cartesian_product fb) as l.
  assert (H0 : mat_shape nbf nbf (fst (fst (zeros2 nbf nbf, zeros2 nbf nbf, zeros2 nbf nbf)))
               /\ mat_shape nbf nbf (snd (fst (zeros2 nbf nbf, zeros2 nbf nbf, zeros2 nbf nbf)))
               /\ mat_shape nbf nbf (snd (zeros2 nbf nbf, zeros2 nbf nbf, zeros2 nbf nbf)))
    by (cbn [fst snd]; split; [|split]; apply zeros2_shape).
  revert H0. generalize (zeros2 nbf nbf, zeros2 nbf nbf, zeros2 nbf nbf) as M.
  intros M HM l. revert M HM.
  induction l as [|q l IH]; intros M HM; cbn [fold_left]; [exact HM|].
  apply IH. apply acc_m_shape. exact HM.
Qed.

(** [A_array] returns 7 entries whatever [l1] and [l2]. *)
Lemma A_array_length (l1 l2 : Z) (PA PB CP g : R) :
  length (Oei.A_array binomial_prefactor factorials l1 l2 PA PB CP g) = 7%nat.
Proof.
  unfold Oei.A_array. rewrite A_loops_runs by lia. cbn [run].
  generalize (Oei.A_triples l1 l2) as l.
  assert (H0 : length (zeros 7) = 7%nat) by reflexivity.
  revert H0. generalize (zeros 7) as A. intros A HA l. revert A HA.
  induction l as [|[[i r] u] l IH]; intros A HA; cbn [fold_left]; [exact HA|].
  apply IH. rewrite index_add_length. exact HA.
Qed.

(** A write at an index of 7 or more into an array of 7 entries is dropped. *)
Lemma index_add_dropped (A : list R) (I : Z) (v : R) :
  length A = 7%nat -> (7 <= I)%Z -> index_add A I v = A.
Proof.
  intros HA HI. unfold index_add. rewrite norm_index_nonneg by lia.
  rewrite HA. destruct (Z.ltb_spec I (Z.of_nat 7)); [lia | reflexivity].
Qed.

(** C7, as amended.  [oei_arrays] and [A_array] check no angular momentum:
    for every flattened basis, whatever the angular momenta of its shells,
    [oei_arrays] returns three arrays of shape [(nbf, nbf)] and raises
    nothing.  The hard-coded maximum fixes only the sizes of the power
    tables (4 powers per axis) and of the array of [A_array] (7 entries,
    whatever [l1] and [l2]); a contribution of [A_array] whose index is 7 or
    more is dropped. *)
Theorem oei_arrays_never_raises (geom : list vec3) (fb : Oei.flat_basis)
    (nbf : nat) (charges : list R) :
  (exists S_ T V,
     Oei.oei_arrays_outcome binomial_prefactor new_binomial_prefactor boys
       factorials double_factorials am_leading_indices
       angular_momentum_combinations cartesian_product geom fb nbf charges
     = Returns (S_, T, V)
     /\ mat_shape nbf nbf S_ /\ mat_shape nbf nbf T /\ mat_shape nbf nbf V) /\
  (forall v : vec3,
     length (Oei.pow_table v) = 3%nat
     /\ Forall (fun r => length r = 4%nat) (Oei.pow_table v)) /\
  (forall (l1 l2 : Z) (PA PB CP g : R),
     length (Oei.A_array binomial_prefactor factorials l1 l2 PA PB CP g) = 7%nat) /\
  (forall (A : list R) (i r u : Z) (v : R),
     length A = 7%nat -> (7 <= i - 2 * r - u)%Z ->
     index_add A (i - 2 * r - u) v = A).
Proof.
  split; [|split; [|split]].
  - pose proof (oei_arrays_shape geom fb nbf charges) as H. cbv zeta in H.
    unfold Oei.oei_arrays_outcome.
    destruct (Oei.oei_arrays _ _ _ _ _ _ _ _ geom fb nbf charges) as [[S_ T] V].
    exists S_, T, V. cbn [fst snd] in H. tauto.
  - intros v. split; [reflexivity|]. repeat constructor.
  - apply A_array_length.
  - intros A i r u v. apply index_add_dropped.
Qed.

End NoValidation.

(** A flattened basis with a single primitive on a g shell (angular momentum
    4, 15 components), on one atom. *)
Definition g_shell_basis : Oei.flat_basis :=
  Oei.mkBasis [1%R] [1%R] [0] [4] [0] [15].

(** C7 as stated fails: for a basis with a shell of angular momentum 4,
    above the maximum 3, [oei_arrays] raises nothing and returns three
    arrays of shape [(15, 15)]. *)
Lemma oei_arrays_accepts_g_shell :
  In 4 (Oei.ams g_shell_basis) /\ Z.of_nat Oei.max_am < 4 /\
  exists S_ T V,
    Oei.oei_arrays_outcome Tables.binomial_prefactor
      Tables.new_binomial_prefactor Tables.boys Tables.factorials
      Tables.double_factorials Tables.am_leading_indices
      Tables.angular_momentum_combinations Tables.cartesian_product [vzero]
      g_shell_basis 15 [1%R]
    = Returns (S_, T, V)
    /\ mat_shape 15 15 S_ /\ mat_shape 15 15 T /\ mat_shape 15 15 V.
Proof.
  split; [left; reflexivity|]. split; [reflexivity|].
  pose proof (oei_arrays_shape Tables.binomial_prefactor
                Tables.new_binomial_prefactor Tables.boys Tables.factorials
                Tables.double_factorials Tables.am_leading_indices
                Tables.angular_momentum_combinations Tables.cartesian_product
                [vzero] g_shell_basis 15 [1%R]) as H.
  cbv zeta in H. unfold Oei.oei_arrays_outcome.
  destruct (Oei.oei_arrays _ _ _ _ _ _ _ _ [vzero] g_shell_basis 15 [1%R])
    as [[S_ T] V].
  exists S_, T, V. cbn [fst snd] in H. tauto.
Qed.

(** ** Closed instances *)

(** The fast-path input of one atom at the origin carrying 20 basis
    functions of exponent 1. *)
Definition basis_ones : list R := repeat 1%R 20.

(** Two atoms on the z axis; a function contracted from two s primitives on
    the first atom, and a function made of one s primitive on the second. *)
Definition geom_two : list vec3 := [vzero; mkV 0 0 1].
Definition contracted_basis : Oei.flat_basis :=
  Oei.mkBasis [1%R; 2%R; 1%R] [1%R; 3%R; (1 / 2)%R] [0; 0; 1] [0; 0; 0]
    [0; 0; 1] [1; 1; 1].

Lemma oei_arrays_entries_witness :
  let nprim := length (Oei.coeffs contracted_basis) in
  let quads := duet_quads Tables.cartesian_product contracted_basis in
  let '(S_, T, V) :=
    Oei.oei_arrays Tables.binomial_prefactor Tables.new_binomial_prefactor
      Tables.boys Tables.factorials Tables.double_factorials
      Tables.am_leading_indices Tables.angular_momentum_combinations
      Tables.cartesian_product geom_two contracted_basis 2 [1%R; 1%R] in
  length (Tables.cartesian_product (countup (Z.of_nat nprim))
            (countup (Z.of_nat nprim)))
    = (nprim * nprim)%nat /\
  NoDup quads /\
  (forall p1 p2 a b : Z,
     In (p1, p2, a, b) quads <->
     0 <= p1 < Z.of_nat nprim /\ 0 <= p2 < Z.of_nat nprim /\
     0 <= a < dims_at contracted_basis p1 /\
     0 <= b < dims_at contracted_basis p2) /\
  (forall q : Z * Z * Z * Z, In q quads ->
     exists i0 j0 : nat,
       (i0 < 2)%nat /\ (j0 < 2)%nat /\
       maps_to contracted_basis i0 j0 q = true /\
       forall i' j' : nat,
         maps_to contracted_basis i' j' q = true -> i' = i0 /\ j' = j0) /\
  mat_get S_ 0 1
  = Rsum (map (fun q =>
                 (primitive_overlap Tables.new_binomial_prefactor
                    Tables.double_factorials Tables.am_leading_indices
                    Tables.angular_momentum_combinations geom_two
                    contracted_basis q
                  * contraction contracted_basis q)%R)
              (filter (maps_to contracted_basis 0 1) quads)) /\
  mat_get T 0 1
  = Rsum (map (fun q =>
                 (primitive_kinetic Tables.new_binomial_prefactor
                    Tables.double_factorials Tables.am_leading_indices
                    Tables.angular_momentum_combinations geom_two
                    contracted_basis q
                  * contraction contracted_basis q)%R)
              (filter (maps_to contracted_basis 0 1) quads)) /\
  mat_get V 0 1
  = Rsum (map (fun q =>
                 (primitive_potential Tables.binomial_prefactor Tables.boys
                    Tables.factorials Tables.am_leading_indices
                    Tables.angular_momentum_combinations geom_two
                    contracted_basis [1%R; 1%R] q
                  * contraction contracted_basis q)%R)
              (filter (maps_to contracted_basis 0 1) quads)).
Proof.
  apply (oei_arrays_entries Tables.binomial_prefactor
           Tables.new_binomial_prefactor Tables.boys Tables.factorials
           Tables.double_factorials Tables.am_leading_indices
           Tables.angular_momentum_combinations Tables.cartesian_product
           (fun xs ys => @NoDup_list_prod Z Z xs ys)
           (fun xs ys x y => in_prod_iff xs ys x y)
           geom_two contracted_basis [1%R; 1%R] 2 0 1).
  - lia.
  - lia.
  - repeat constructor; lia.
  - intros p Hp. cbn [contracted_basis Oei.coeffs length] in Hp.
    assert (E : p = 0 \/ p = 1 \/ p = 2) by lia.
    destruct E as [E|[E|E]]; subst p; vm_compute; discriminate.
Defined.

Lemma fast_path_symmetry_witness :
  (exists S_ T Vtmp ba,
     FastIntegrals.oei_setup [vzero] basis_ones 20 [1%R] = Some (S_, T, Vtmp, ba) /\
     forall i j : nat,
       nd_at S_ [i; j] = nd_at S_ [j; i] /\ nd_at T [i; j] = nd_at T [j; i]) /\
  (exists Gtmp ba,
     FastIntegrals.tei_setup [vzero] basis_ones 20 = Some (Gtmp, ba) /\
     forall i j k l : nat,
       nd_at (FastIntegrals.tei_finish Gtmp ba) [i; j; k; l]
       = nd_at (FastIntegrals.tei_finish Gtmp ba) [k; l; i; j]).
Proof.
  apply (fast_path_symmetry [vzero] basis_ones 20 [1%R]). reflexivity.
Defined.

(** Two atoms at distance 2 along z. *)
Definition geom_far : list vec3 := [vzero; mkV 0 0 2].

Lemma vectorized_tei_vs_eri_witness :
  exists G,
    Integrals.vectorized_tei basis_half geom_far [20; 20]%nat = Some G /\
    (nd_at G [0; 0; 20; 20]%nat * (sqrt PI / 2)
     = 0.8862269254527580
       * Integrals.eri (nth 0 basis_half 0) (nth 0 basis_half 0)
           (nth 20 basis_half 0) (nth 20 basis_half 0)
           (nth 0 (repeat vzero 20 ++ repeat (mkV 0 0 2) 20) vzero)
           (nth 0 (repeat vzero 20 ++ repeat (mkV 0 0 2) 20) vzero)
           (nth 20 (repeat vzero 20 ++ repeat (mkV 0 0 2) 20) vzero)
           (nth 20 (repeat vzero 20 ++ repeat (mkV 0 0 2) 20) vzero))%R.
Proof.
  apply (vectorized_tei_vs_eri geom_far basis_half [20; 20]%nat
           (repeat vzero 20 ++ repeat (mkV 0 0 2) 20) 0 0 20 20).
  - reflexivity.
  - reflexivity.
  - cbn. lia.
  - cbn. lia.
  - cbn. lia.
  - cbn. lia.
  - unfold eri_arg, basis_half. cbn [nth repeat app]. cbv zeta.
    unfold vdot, vsub, vadd, vscale, vdiv, vzero. cbn [vx vy vz]. lra.
Defined.

(** ** The order-0 Boys function: range and accuracy of the series branch *)

Section BoysBounds.

Local Open Scope R_scope.

Lemma gauss_pos (t : R) : 0 < gauss t.
Proof. apply exp_pos. Qed.

Lemma gauss_le_1 (t : R) : gauss t <= 1.
Proof.
  unfold gauss. rewrite <- exp_0.
  destruct (Req_dec (t * t) 0) as [E|E].
  - rewrite E, Ropp_0. lra.
  - left. apply exp_increasing. nra.
Qed.

(** The integral of the Gaussian over [[a, b]] is non-negative. *)
Lemma gauss_integral_nonneg (a b : R) :
  a <= b -> 0 <= RiemannInt (gauss_integrable a b).
Proof.
  intros Hab.
  pose proof (RiemannInt_P19 (RiemannInt_P14 a b 0) (gauss_integrable a b) Hab) as H.
  rewrite RiemannInt_P15 in H. rewrite Rmult_0_l in H. apply H.
  intros x _. unfold fct_cte. left. apply gauss_pos.
Qed.

Lemma gauss_integral_le (s : R) :
  0 <= s -> RiemannInt (gauss_integrable 0 s) <= s.
Proof.
  intros Hs.
  pose proof (RiemannInt_P19 (gauss_integrable 0 s) (RiemannInt_P14 0 s 1) Hs) as H.
  rewrite RiemannInt_P15 in H.
  replace (1 * (s - 0)) with s in H by ring. apply H.
  intros x _. unfold fct_cte. apply gauss_le_1.
Qed.

Lemma gauss_integral_pos (s : R) :
  0 < s -> 0 < RiemannInt (gauss_integrable 0 s).
Proof.
  intros Hs. destruct (Rle_dec s 1) as [H1|H1].
  - pose proof (gauss_integral_lower s Hs ltac:(nra)) as HL.
    assert (Hss : s * s <= 1) by nra.
    assert (s * (s * s) <= s * 1) by (apply Rmult_le_compat_l; lra).
    lra.
  - pose proof (gauss_integral_lower 1 ltac:(lra) ltac:(lra)) as HL.
    pose proof (gauss_integral_nonneg 1 s ltac:(lra)) as HN.
    pose proof (RiemannInt_P26 (gauss_integrable 0 1) (gauss_integrable 1 s)
                  (gauss_integrable 0 s)) as HC.
    lra.
Qed.

(** *** An upper bound on the Gaussian

    [exp(-u) <= 1 / (1 + u/2)^2 <= 1 - u + 3u^2/4] for [u >= 0]. *)
Definition gauss_up (t : R) : R := 1 - t * t + 3 * (t * t * t * t) / 4.
Definition gauss_up_prim (t : R) : R :=
  t - t * t * t / 3 + 3 * (t * t * t * t * t) / 20.

Lemma gauss_le_up (t : R) : gauss t <= gauss_up t.
Proof.
  unfold gauss, gauss_up.
  replace (t * t * t * t) with ((t * t) * (t * t)) by ring.
  set (u := t * t).
  assert (Hu : 0 <= u) by (unfold u; nra).
  clearbody u. rewrite exp_Ropp.
  pose proof (exp_ineq1_le (u / 2)) as H.
  assert (Hq : (1 + u / 2) * (1 + u / 2) <= exp u).
  { replace u with (u / 2 + u / 2) at 3 by field. rewrite exp_plus.
    apply Rmult_le_compat; lra. }
  assert (Hq0 : 0 < (1 + u / 2) * (1 + u / 2)) by nra.
  apply Rle_trans with (/ ((1 + u / 2) * (1 + u / 2))).
  - apply Rinv_le_contravar; assumption.
  - assert (Hp : 1 <= (1 - u + 3 * (u * u) / 4) * ((1 + u / 2) * (1 + u / 2))).
    { assert (0 <= u * u * u) by (repeat apply Rmult_le_pos; assumption).
      assert (0 <= u * u * u * u) by (repeat apply Rmult_le_pos; assumption).
      nra. }
    apply (Rmult_le_reg_r ((1 + u / 2) * (1 + u / 2))); [exact Hq0|].
    rewrite Rinv_l by lra. exact Hp.
Qed.

Lemma gauss_up_prim_lim (x : R) :
  derivable_pt_lim gauss_up_prim x (gauss_up x).
Proof.
  assert (E : forall t, gauss_up_prim t =
     ((id - mult_real_fct (/ 3) (fun y => y ^ 3))
      + mult_real_fct (3 / 20) (fun y => y ^ 5))%F t).
  { intros t. unfold gauss_up_prim, plus_fct, minus_fct, mult_real_fct, id.
    simpl. field. }
  assert (L : derivable_pt_lim
     ((id - mult_real_fct (/ 3) (fun y => y ^ 3))
      + mult_real_fct (3 / 20) (fun y => y ^ 5))%F x
     (1 - / 3 * (INR 3 * x ^ pred 3) + 3 / 20 * (INR 5 * x ^ pred 5))).
  { apply derivable_pt_lim_plus.
    - apply derivable_pt_lim_minus.
      + apply derivable_pt_lim_id.
      + apply derivable_pt_lim_scal. apply derivable_pt_lim_pow.
    - apply derivable_pt_lim_scal. apply derivable_pt_lim_pow. }
  replace (gauss_up x)
    with (1 - / 3 * (INR 3 * x ^ pred 3) + 3 / 20 * (INR 5 * x ^ pred 5)).
  2:{ unfold gauss_up. simpl. field. }
  intros eps Heps. destruct (L eps Heps) as [d Hd]. exists d.
  intros h Hh Hhd. rewrite !E. apply Hd; assumption.
Qed.

Lemma gauss_up_prim_derivable : derivable gauss_up_prim.
Proof. intros x. exists (gauss_up x). apply gauss_up_prim_lim. Defined.

Lemma gauss_up_derive (x : R) :
  derive gauss_up_prim gauss_up_prim_derivable x = gauss_up x.
Proof.
  unfold derive. apply derive_pt_eq_0. apply gauss_up_prim_lim.
Qed.

Lemma gauss_up_continuity : continuity gauss_up.
Proof.
  unfold gauss_up. reg.
Qed.

Lemma gauss_up_derive_continuity :
  continuity (derive gauss_up_prim gauss_up_prim_derivable).
Proof.
  intros x eps Heps.
  destruct (gauss_up_continuity x eps Heps) as [d [Hd H]].
  exists d. split; [exact Hd|]. intros y Hy.
  rewrite !gauss_up_derive. apply H. exact Hy.
Qed.

Definition gauss_up_C1 : C1_fun := mkC1 gauss_up_derive_continuity.

Lemma gauss_integral_upper (s : R) :
  0 <= s ->
  RiemannInt (gauss_integrable 0 s)
  <= s - s * s * s / 3 + 3 * (s * s * s * s * s) / 20.
Proof.
  intros Hs.
  assert (pr : Riemann_integrable (derive gauss_up_C1 (diff0 gauss_up_C1)) 0 s).
  { apply continuity_implies_RiemannInt; [lra|].
    intros x _. apply (cont1 gauss_up_C1). }
  pose proof (FTC_Riemann gauss_up_C1 pr) as HF.
  assert (HL : RiemannInt (gauss_integrable 0 s) <= RiemannInt pr).
  { apply RiemannInt_P19; [lra|].
    intros x Hx. simpl. rewrite gauss_up_derive. apply gauss_le_up. }
  rewrite HF in HL. simpl in HL. unfold gauss_up_prim in HL. lra.
Qed.

(** The error-function form of the Boys function of order 0, the
    expression both [torchboys] and the masked update of the fast path use
    above their threshold. *)
Definition boys_erf_form (x : R) : R := erf (sqrt x) * sqrt PI / (2 * sqrt x).

Lemma boys_erf_form_integral (x : R) :
  0 < x ->
  boys_erf_form x = RiemannInt (gauss_integrable 0 (sqrt x)) / sqrt x.
Proof.
  intros Hx. unfold boys_erf_form, erf.
  assert (0 < sqrt x) by (apply sqrt_lt_R0; exact Hx).
  assert (0 < sqrt PI) by (apply sqrt_lt_R0, PI_RGT_0).
  field. split; lra.
Qed.

Lemma boys_erf_form_range (x : R) :
  0 < x -> 0 < boys_erf_form x <= 1.
Proof.
  intros Hx. rewrite boys_erf_form_integral by exact Hx.
  assert (Hs : 0 < sqrt x) by (apply sqrt_lt_R0; exact Hx).
  pose proof (gauss_integral_pos (sqrt x) Hs).
  pose proof (gauss_integral_le (sqrt x) ltac:(lra)).
  split.
  - apply Rdiv_lt_0_compat; assumption.
  - apply (Rmult_le_reg_r (sqrt x)); [exact Hs|].
    replace (RiemannInt (gauss_integrable 0 (sqrt x)) / sqrt x * sqrt x)
      with (RiemannInt (gauss_integrable 0 (sqrt x))) by (field; lra).
    lra.
Qed.

Lemma boys_erf_form_series (x : R) :
  0 < x -> x <= 2 ->
  1 - x / 3 < boys_erf_form x <= 1 - x / 3 + 3 * (x * x) / 20.
Proof.
  intros Hx Hx2. rewrite boys_erf_form_integral by exact Hx.
  assert (Hs : 0 < sqrt x) by (apply sqrt_lt_R0; exact Hx).
  assert (Hss : sqrt x * sqrt x = x) by (apply sqrt_sqrt; lra).
  pose proof (gauss_integral_lower (sqrt x) Hs ltac:(lra)) as HL.
  pose proof (gauss_integral_upper (sqrt x) ltac:(lra)) as HU.
  set (s := sqrt x) in *. set (I := RiemannInt (gauss_integrable 0 s)) in *.
  assert (E3 : s * s * s = s * x) by (rewrite <- Hss; ring).
  assert (E5 : s * s * s * s * s = s * (x * x)) by (rewrite <- Hss; ring).
  rewrite E5 in HU. rewrite E3 in HL, HU.
  split.
  - apply (Rmult_lt_reg_r s); [exact Hs|].
    replace (I / s * s) with I by (field; lra). lra.
  - apply (Rmult_le_reg_r s); [exact Hs|].
    replace (I / s * s) with I by (field; lra). lra.
Qed.

End BoysBounds.

(** ** Range and accuracy of the Boys evaluations, and the signs they give *)

Section BoysProperties.

Local Open Scope R_scope.

Lemma vdot_self_nonneg (v : vec3) : 0 <= vdot v v.
Proof. unfold vdot. nra. Qed.

Lemma torchboys_above (x : R) :
  1e-8 <= x -> Integrals.torchboys 0 x = boys_erf_form x.
Proof.
  intros Hx. unfold Integrals.torchboys, Integrals.torchboys_small.
  destruct (Rlt_dec x 1e-8); [lra | reflexivity].
Qed.

Lemma torchboys_below (x : R) :
  x < 1e-8 -> Integrals.torchboys 0 x = 1 - x / 3.
Proof.
  intros Hx. unfold Integrals.torchboys, Integrals.torchboys_small.
  destruct (Rlt_dec x 1e-8); [field | lra].
Qed.

Lemma F_masked_above (x : R) :
  1e-8 < x -> FastIntegrals.F_masked x = boys_erf_form x.
Proof.
  intros Hx. unfold FastIntegrals.F_masked, FastIntegrals.mask2.
  destruct (Rgt_dec x 1e-8); [reflexivity | lra].
Qed.

Lemma F_masked_below (x : R) :
  x <= 1e-8 -> FastIntegrals.F_masked x = 1 - x / 3.
Proof.
  intros Hx.
  unfold FastIntegrals.F_masked, FastIntegrals.mask1, FastIntegrals.mask2.
  destruct (Rgt_dec x 1e-8), (Rle_dec x 1e-8); try lra; reflexivity.
Qed.

Lemma torchboys_range (x : R) : 0 <= x -> 0 < Integrals.torchboys 0 x <= 1.
Proof.
  intros Hx. destruct (Rlt_dec x 1e-8) as [H|H].
  - rewrite torchboys_below by exact H. lra.
  - rewrite torchboys_above by lra. apply boys_erf_form_range. lra.
Qed.

Lemma F_masked_range (x : R) : 0 <= x -> 0 < FastIntegrals.F_masked x <= 1.
Proof.
  intros Hx. destruct (Rle_dec x 1e-8) as [H|H].
  - rewrite F_masked_below by exact H. lra.
  - rewrite F_masked_above by lra. apply boys_erf_form_range. lra.
Qed.

(** The Boys function of order 0, as [torchboys] and as the masked update of
    [tei_finish] and [oei_finish] evaluate it, lies in [(0, 1]] for every
    non-negative argument; and the two masks of the fast path are
    complementary, so that no entry of [F] keeps the initial zero of
    [zeros_like]. *)
Theorem boys0_range (x : R) :
  0 <= x ->
  0 < Integrals.torchboys 0 x <= 1 /\
  0 < FastIntegrals.F_masked x <= 1 /\
  FastIntegrals.mask1 x = negb (FastIntegrals.mask2 x).
Proof.
  intros Hx. split; [now apply torchboys_range|].
  split; [now apply F_masked_range|].
  unfold FastIntegrals.mask1, FastIntegrals.mask2.
  destruct (Rle_dec x 1e-8), (Rgt_dec x 1e-8); try lra; reflexivity.
Qed.

Lemma boys0_range_witness :
  0 < Integrals.torchboys 0 1 <= 1 /\
  0 < FastIntegrals.F_masked 1 <= 1 /\
  FastIntegrals.mask1 1 = negb (FastIntegrals.mask2 1).
Proof.
  apply (boys0_range 1). lra.
Defined.

(** Accuracy of the series branch.  For a positive argument, the value
    returned by [torchboys] at order 0, and the one written by the masked
    update of the fast path, never exceed the error-function form and fall
    short of it by at most [1.5e-17]: above the threshold they are that
    form, and below it the truncated series [1 - x/3] is that close. *)
Theorem boys0_series_accuracy (x : R) :
  0 < x ->
  0 <= boys_erf_form x - Integrals.torchboys 0 x <= 1.5e-17 /\
  0 <= boys_erf_form x - FastIntegrals.F_masked x <= 1.5e-17.
Proof.
  intros Hx.
  assert (Hsmall : x <= 1e-8 ->
            0 <= boys_erf_form x - (1 - x / 3) <= 1.5e-17).
  { intros Hle.
    destruct (boys_erf_form_series x Hx ltac:(lra)) as [HL HU].
    assert (x * x <= 1e-8 * 1e-8) by (apply Rmult_le_compat; lra).
    lra. }
  split.
  - destruct (Rlt_dec x 1e-8) as [H|H].
    + rewrite torchboys_below by exact H. apply Hsmall. lra.
    + rewrite torchboys_above by lra. lra.
  - destruct (Rle_dec x 1e-8) as [H|H].
    + rewrite F_masked_below by exact H. apply Hsmall. exact H.
    + rewrite F_masked_above by lra. lra.
Qed.

Lemma boys0_series_accuracy_witness :
  0 <= boys_erf_form 1e-9 - Integrals.torchboys 0 1e-9 <= 1.5e-17 /\
  0 <= boys_erf_form 1e-9 - FastIntegrals.F_masked 1e-9 <= 1.5e-17.
Proof.
  apply (boys0_series_accuracy 1e-9). lra.
Defined.

Lemma normalize_pos (aa : R) : 0 < Integrals.normalize aa.
Proof. unfold Integrals.normalize, Rpower. apply exp_pos. Qed.

(** The attraction of a positive nuclear charge is negative: for positive
    exponents and a positive charge, [potential] returns a negative
    number. *)
Theorem potential_negative (aa bb : R) (A B atom : vec3) (charge : R) :
  0 < aa -> 0 < bb -> 0 < charge ->
  Integrals.potential aa bb A B atom charge < 0.
Proof.
  intros Ha Hb Hq. unfold Integrals.potential, Integrals.gp.
  replace 0.0 with 0 by lra.
  set (P := vdiv _ _).
  assert (Harg : 0 <= (aa + bb) * vdot (vsub P atom) (vsub P atom)).
  { apply Rmult_le_pos; [lra | apply vdot_self_nonneg]. }
  destruct (torchboys_range _ Harg) as [HF _].
  set (F := Integrals.torchboys 0 _) in *.
  pose proof (normalize_pos aa). pose proof (normalize_pos bb).
  pose proof PI_RGT_0.
  assert (Hc : 0 < exp (vdot (vsub A B) (vsub A B) * (- aa * bb / (aa + bb))))
    by apply exp_pos.
  set (c := exp _) in *.
  assert (Hpos : 0 < charge * F * Integrals.normalize aa * Integrals.normalize bb
                       * c * 2 * PI / (aa + bb)).
  { assert (0 < 2) by lra.
    apply Rdiv_lt_0_compat; [|lra].
    repeat first [assumption | apply Rmult_lt_0_compat]. }
  replace (- charge * F * Integrals.normalize aa * Integrals.normalize bb * c * 2
           * PI / (aa + bb))
    with (- (charge * F * Integrals.normalize aa * Integrals.normalize bb
             * c * 2 * PI / (aa + bb)))
    by (unfold Rdiv; ring).
  lra.
Qed.

Lemma potential_negative_witness :
  Integrals.potential 1 1 vzero vzero vzero 1 < 0.
Proof.
  apply (potential_negative 1 1 vzero vzero vzero 1); lra.
Defined.

Lemma eri_arg_nonneg (aa bb cc dd : R) (A B C D : vec3) :
  0 < aa -> 0 < bb -> 0 < cc -> 0 < dd ->
  0 <= eri_arg aa bb cc dd A B C D.
Proof.
  intros Ha Hb Hc Hd. unfold eri_arg. cbv zeta.
  apply Rmult_le_pos; [apply vdot_self_nonneg|].
  left. apply Rinv_0_lt_compat.
  assert (0 < 1 / (4 * (aa + bb))) by (apply Rdiv_lt_0_compat; lra).
  assert (0 < 1 / (4 * (cc + dd))) by (apply Rdiv_lt_0_compat; lra).
  lra.
Qed.

(** The repulsion of two charge clouds is positive and below its value at
    coinciding product centres: for positive exponents, [eri] is positive
    and at most the same expression with the Boys factor replaced by 1. *)
Theorem eri_positive (aa bb cc dd : R) (A B C D : vec3) :
  0 < aa -> 0 < bb -> 0 < cc -> 0 < dd ->
  0 < Integrals.eri aa bb cc dd A B C D
  <= Integrals.normalize aa * Integrals.normalize bb
     * Integrals.normalize cc * Integrals.normalize dd
     * snd (Integrals.gp aa bb A B) * snd (Integrals.gp cc dd C D)
     * 2 * PI ^ 2 / ((aa + bb) * (cc + dd))
     * sqrt (PI / (aa + bb + (cc + dd))).
Proof.
  intros Ha Hb Hc Hd. rewrite eri_split.
  destruct (torchboys_range _ (eri_arg_nonneg aa bb cc dd A B C D Ha Hb Hc Hd))
    as [HF0 HF1].
  pose proof (eri_factor_pos aa bb cc dd A B C D Ha Hb Hc Hd) as Hf.
  change (Integrals.normalize aa * Integrals.normalize bb
          * Integrals.normalize cc * Integrals.normalize dd
          * snd (Integrals.gp aa bb A B) * snd (Integrals.gp cc dd C D)
          * 2 * PI ^ 2 / ((aa + bb) * (cc + dd))
          * sqrt (PI / (aa + bb + (cc + dd))))
    with (eri_factor aa bb cc dd A B C D).
  set (F := Integrals.torchboys 0 _) in *.
  set (f := eri_factor _ _ _ _ _ _ _ _) in *.
  split; nra.
Qed.

Lemma eri_positive_witness :
  0 < Integrals.eri 1 1 1 1 vzero vzero vzero vzero
  <= Integrals.normalize 1 * Integrals.normalize 1
     * Integrals.normalize 1 * Integrals.normalize 1
     * snd (Integrals.gp 1 1 vzero vzero) * snd (Integrals.gp 1 1 vzero vzero)
     * 2 * PI ^ 2 / ((1 + 1) * (1 + 1))
     * sqrt (PI / (1 + 1 + (1 + 1))).
Proof.
  apply (eri_positive 1 1 1 1 vzero vzero vzero vzero); lra.
Defined.

End BoysProperties.

(** ** The naive s-orbital kernels: normalisation, symmetry *)

Section NaiveKernels.

Local Open Scope R_scope.

Lemma Rpower_base_1 (y : R) : Rpower 1 y = 1.
Proof. unfold Rpower. rewrite ln_1, Rmult_0_r. apply exp_0. Qed.

(** The two normalisation constants times [(pi / (aa + bb))^(3/2)]. *)
Lemma normalize_pair (aa bb : R) :
  0 < aa -> 0 < bb ->
  Integrals.normalize aa * Integrals.normalize bb
  * Rpower (PI / (aa + bb)) (3 / 2)
  = Rpower (4 * aa * bb / ((aa + bb) * (aa + bb))) (3 / 4).
Proof.
  intros Ha Hb. unfold Integrals.normalize.
  pose proof PI_RGT_0 as Hpi.
  assert (H1 : 0 < 2 * aa / PI) by (apply Rdiv_lt_0_compat; lra).
  assert (H2 : 0 < 2 * bb / PI) by (apply Rdiv_lt_0_compat; lra).
  assert (H3 : 0 < PI / (aa + bb)) by (apply Rdiv_lt_0_compat; lra).
  replace (3 / 2) with (3 / 4 + 3 / 4) by field.
  rewrite Rpower_plus.
  rewrite (Rpower_mult_distr (2 * aa / PI)) by assumption.
  rewrite (Rpower_mult_distr (PI / (aa + bb))) by assumption.
  rewrite Rpower_mult_distr.
  - f_equal. field. split; lra.
  - apply Rmult_lt_0_compat; assumption.
  - apply Rmult_lt_0_compat; assumption.
Qed.

(** [overlap] in terms of the combined normalisation factor. *)
Lemma overlap_form (a b : R) (P Q : vec3) :
  0 < a -> 0 < b ->
  Integrals.overlap a b P Q
  = Rpower (4 * a * b / ((a + b) * (a + b))) (3 / 4)
    * exp (vdot (vsub P Q) (vsub P Q) * (- a * b / (a + b))).
Proof.
  intros H1 H2. rewrite <- normalize_pair by assumption.
  unfold Integrals.overlap, Integrals.gp. ring.
Qed.

Lemma overlap_self (aa : R) (A : vec3) :
  0 < aa -> Integrals.overlap aa aa A A = 1.
Proof.
  intros Ha. rewrite overlap_form by assumption.
  replace (4 * aa * aa / ((aa + aa) * (aa + aa))) with 1 by (field; lra).
  rewrite Rpower_base_1.
  replace (vdot (vsub A A) (vsub A A) * (- aa * aa / (aa + aa))) with 0
    by (vec_eval; unfold Rdiv; ring).
  rewrite exp_0. ring.
Qed.

Lemma overlap_range (aa bb : R) (A B : vec3) :
  0 < aa -> 0 < bb -> 0 < Integrals.overlap aa bb A B <= 1.
Proof.
  intros Ha Hb.
  rewrite overlap_form by assumption.
  set (t := 4 * aa * bb / ((aa + bb) * (aa + bb))).
  assert (Ht0 : 0 < t).
  { unfold t. apply Rdiv_lt_0_compat; nra. }
  assert (Ht1 : t <= 1).
  { unfold t. apply (Rmult_le_reg_r ((aa + bb) * (aa + bb))); [nra|].
    replace (4 * aa * bb / ((aa + bb) * (aa + bb)) * ((aa + bb) * (aa + bb)))
      with (4 * aa * bb) by (field; lra).
    pose proof (Rle_0_sqr (aa - bb)) as Hsq. unfold Rsqr in Hsq. lra. }
  assert (Hp0 : 0 < Rpower t (3 / 4)) by (unfold Rpower; apply exp_pos).
  assert (Hp1 : Rpower t (3 / 4) <= 1).
  { rewrite <- (Rpower_base_1 (3 / 4)). apply Rle_Rpower_l; lra. }
  set (e := vdot (vsub A B) (vsub A B) * (- aa * bb / (aa + bb))).
  assert (He : e <= 0).
  { unfold e. pose proof (vdot_self_nonneg (vsub A B)).
    assert (0 < aa * bb / (aa + bb)) by (apply Rdiv_lt_0_compat; nra).
    replace (- aa * bb / (aa + bb)) with (- (aa * bb / (aa + bb)))
      by (unfold Rdiv; ring).
    nra. }
  assert (Hx0 : 0 < exp e) by apply exp_pos.
  assert (Hx1 : exp e <= 1).
  { rewrite <- exp_0. destruct He as [He|He].
    - left. apply exp_increasing. exact He.
    - rewrite He. lra. }
  split; nra.
Qed.

(** Two normalised primitives overlap by at most 1, and a primitive
    overlaps with itself by exactly 1. *)
Theorem overlap_normalized (aa bb : R) (A B : vec3) :
  0 < aa -> 0 < bb ->
  0 < Integrals.overlap aa bb A B <= 1 /\ Integrals.overlap aa aa A A = 1.
Proof.
  intros Ha Hb. split.
  - now apply overlap_range.
  - now apply overlap_self.
Qed.

Lemma overlap_normalized_witness :
  0 < Integrals.overlap 1 2 vzero (mkV 0 0 1) <= 1
  /\ Integrals.overlap 1 1 vzero vzero = 1.
Proof.
  apply (overlap_normalized 1 2 vzero (mkV 0 0 1)); lra.
Defined.

Lemma kinetic_same (aa : R) (A : vec3) :
  0 < aa -> Integrals.kinetic aa aa A A = 3 * aa / 2.
Proof.
  intros Ha. unfold Integrals.kinetic.
  rewrite overlap_self by exact Ha.
  replace (vdot (vsub A A) (vsub A A)) with 0 by (vec_eval; ring).
  field. lra.
Qed.

(** The kinetic energy of a normalised s primitive of exponent [aa] is
    [3 aa / 2]. *)
Theorem kinetic_self (aa : R) (A : vec3) :
  0 < aa -> Integrals.kinetic aa aa A A = 3 * aa / 2.
Proof.
  intros Ha. rewrite kinetic_same by exact Ha. reflexivity.
Qed.

Lemma kinetic_self_witness : Integrals.kinetic 1 1 vzero vzero = 3 * 1 / 2.
Proof.
  apply (kinetic_self 1 vzero). lra.
Defined.

Lemma sqrt_inv_self (y : R) : 0 < y -> y * sqrt (/ y) = sqrt y.
Proof.
  intros Hy. rewrite sqrt_inv.
  assert (Hs : 0 < sqrt y) by (apply sqrt_lt_R0; exact Hy).
  rewrite <- (sqrt_sqrt y) at 1 by lra. field. lra.
Qed.

Lemma normalize_pow4 (aa : R) :
  0 < aa ->
  Integrals.normalize aa * Integrals.normalize aa
  * Integrals.normalize aa * Integrals.normalize aa
  = (2 * aa / PI) ^ 3.
Proof.
  intros Ha. unfold Integrals.normalize.
  assert (H : 0 < 2 * aa / PI)
    by (apply Rdiv_lt_0_compat; [lra | apply PI_RGT_0]).
  rewrite <- !Rpower_plus.
  replace (3 / 4 + 3 / 4 + 3 / 4 + 3 / 4) with (INR 3) by (simpl; lra).
  apply Rpower_pow. exact H.
Qed.

Lemma normalize_sq (aa : R) :
  0 < aa ->
  Integrals.normalize aa * Integrals.normalize aa
  = 2 * aa / PI * sqrt (2 * aa / PI).
Proof.
  intros Ha. unfold Integrals.normalize.
  assert (H : 0 < 2 * aa / PI)
    by (apply Rdiv_lt_0_compat; [lra | apply PI_RGT_0]).
  rewrite <- Rpower_plus.
  replace (3 / 4 + 3 / 4) with (1 + / 2) by lra.
  rewrite Rpower_plus, Rpower_1, Rpower_sqrt by exact H. reflexivity.
Qed.

(** Closed forms on one centre.  For a normalised s primitive of exponent
    [aa] centred on a nucleus of charge [charge], the attraction is
    [- 2 charge sqrt(2 aa / pi)], and the repulsion of the primitive's
    density with itself is [2 sqrt(aa / pi)]. *)
Theorem single_centre_values (aa : R) (A : vec3) (charge : R) :
  0 < aa ->
  Integrals.potential aa aa A A A charge = - 2 * charge * sqrt (2 * aa / PI) /\
  Integrals.eri aa aa aa aa A A A A = 2 * sqrt (aa / PI).
Proof.
  intros Ha. pose proof PI_RGT_0 as Hpi.
  assert (HP : vdiv (vadd (vscale aa A) (vscale aa A)) (aa + aa) = A).
  { destruct A as [x y z]. unfold vdiv, vadd, vscale. cbn [vx vy vz].
    f_equal; field; lra. }
  assert (Hd : vdot (vsub A A) (vsub A A) = 0) by (vec_eval; ring).
  split.
  - unfold Integrals.potential, Integrals.gp. rewrite HP, Hd.
    replace 0.0 with 0 by lra.
    rewrite Rmult_0_r, Rmult_0_l, exp_0, torchboys_below by lra.
    replace (- charge * (1 - 0 / 3) * Integrals.normalize aa
             * Integrals.normalize aa * 1 * 2 * PI / (aa + aa))
      with (- charge * (Integrals.normalize aa * Integrals.normalize aa)
            * (PI / aa)) by (field; lra).
    rewrite normalize_sq by exact Ha. field. lra.
  - rewrite eri_split. unfold eri_arg, eri_factor. cbv zeta.
    rewrite HP, Hd.
    replace (vdot (vsub A A) (vsub A A) / (4 * (1 / (4 * (aa + aa)) + 1 / (4 * (aa + aa)))))
      with 0 by (rewrite Hd; unfold Rdiv; ring).
    rewrite torchboys_below by lra.
    rewrite !Rmult_0_l, exp_0, normalize_pow4 by exact Ha.
    replace (PI / (aa + aa + (aa + aa))) with (/ (4 * aa / PI)) by (field; lra).
    replace (aa / PI) with (4 * aa / PI / 4) by (field; lra).
    rewrite (sqrt_div_alt (4 * aa / PI) 4) by lra.
    replace (sqrt 4) with 2 by (symmetry; apply sqrt_lem_1; lra).
    rewrite <- (sqrt_inv_self (4 * aa / PI))
      by (apply Rdiv_lt_0_compat; lra).
    field. lra.
Qed.

Lemma single_centre_values_witness :
  Integrals.potential 1 1 vzero vzero vzero 1 = - 2 * 1 * sqrt (2 * 1 / PI) /\
  Integrals.eri 1 1 1 1 vzero vzero vzero vzero = 2 * sqrt (1 / PI).
Proof.
  apply (single_centre_values 1 vzero 1). lra.
Defined.

Lemma gp_swap (aa bb : R) (A B : vec3) :
  Integrals.gp bb aa B A = Integrals.gp aa bb A B.
Proof.
  unfold Integrals.gp. f_equal.
  - replace (bb + aa) with (aa + bb) by ring.
    unfold vdiv, vadd, vscale. cbn [vx vy vz].
    f_equal; f_equal; ring.
  - f_equal. replace (bb + aa) with (aa + bb) by ring.
    vec_eval. unfold Rdiv. ring.
Qed.

(** The one-electron kernels do not depend on the order of the two
    primitives. *)
Theorem naive_oei_symmetric (aa bb : R) (A B atom : vec3) (charge : R) :
  Integrals.overlap bb aa B A = Integrals.overlap aa bb A B /\
  Integrals.kinetic bb aa B A = Integrals.kinetic aa bb A B /\
  Integrals.potential bb aa B A atom charge
  = Integrals.potential aa bb A B atom charge.
Proof.
  split; [apply overlap_swap|]. split; [apply kinetic_swap|].
  unfold Integrals.potential. rewrite gp_swap.
  destruct (Integrals.gp aa bb A B) as [P c].
  replace (bb + aa) with (aa + bb) by ring. cbv zeta. unfold Rdiv. ring.
Qed.

Lemma eri_arg_swap_pair (aa bb cc dd : R) (A B C D : vec3) :
  eri_arg bb aa cc dd B A C D = eri_arg aa bb cc dd A B C D.
Proof.
  unfold eri_arg. cbv zeta.
  replace (bb + aa) with (aa + bb) by ring.
  vec_eval. unfold Rdiv. ring.
Qed.

Lemma eri_factor_swap_pair (aa bb cc dd : R) (A B C D : vec3) :
  eri_factor bb aa cc dd B A C D = eri_factor aa bb cc dd A B C D.
Proof.
  unfold eri_factor.
  replace (bb + aa) with (aa + bb) by ring.
  replace (vdot (vsub B A) (vsub B A) * (- bb * aa / (aa + bb)))
    with (vdot (vsub A B) (vsub A B) * (- aa * bb / (aa + bb)))
    by (vec_eval; unfold Rdiv; ring).
  unfold Rdiv. ring.
Qed.

Lemma eri_arg_swap_pair2 (aa bb cc dd : R) (A B C D : vec3) :
  eri_arg aa bb dd cc A B D C = eri_arg aa bb cc dd A B C D.
Proof.
  rewrite <- (eri_arg_swap aa bb dd cc), eri_arg_swap_pair.
  apply eri_arg_swap.
Qed.

Lemma eri_factor_swap_pair2 (aa bb cc dd : R) (A B C D : vec3) :
  eri_factor aa bb dd cc A B D C = eri_factor aa bb cc dd A B C D.
Proof.
  rewrite <- (eri_factor_swap aa bb dd cc), eri_factor_swap_pair.
  apply eri_factor_swap.
Qed.

(** The eightfold symmetry of the two-electron integral: [eri] is unchanged
    by the exchange of the two functions of the first pair, of the two
    functions of the second pair, and of the two pairs. *)
Theorem eri_eightfold (aa bb cc dd : R) (A B C D : vec3) :
  Integrals.eri bb aa cc dd B A C D = Integrals.eri aa bb cc dd A B C D /\
  Integrals.eri aa bb dd cc A B D C = Integrals.eri aa bb cc dd A B C D /\
  Integrals.eri cc dd aa bb C D A B = Integrals.eri aa bb cc dd A B C D.
Proof.
  rewrite !eri_split. split; [|split].
  - rewrite eri_arg_swap_pair, eri_factor_swap_pair. reflexivity.
  - rewrite eri_arg_swap_pair2, eri_factor_swap_pair2. reflexivity.
  - rewrite eri_arg_swap, eri_factor_swap. reflexivity.
Qed.

End NaiveKernels.

(** ** The fast path against the naive one-electron kernels *)

Section FastOei.

Local Open Scope R_scope.

Lemma Rsum_map_scale {X : Type} (f : X -> R) (k : R) (l : list X) :
  Rsum (map (fun a => f a * k) l) = Rsum (map f l) * k.
Proof.
  unfold Rsum.
  assert (G : forall a0, fold_left Rplus (map (fun a => f a * k) l) (a0 * k)
                         = fold_left Rplus (map f l) a0 * k).
  { induction l as [|x l IH]; intros a0; cbn [map fold_left]; [reflexivity|].
    rewrite <- IH. f_equal. ring. }
  rewrite <- G. f_equal. ring.
Qed.

Variables (geom : list vec3) (basis : list R).

(** The arrays [Vtmp] and [boys_arg] of [oei_setup], entry by entry. *)
Lemma oei_setup_V_entries (n : nat) (q : list R) :
  length basis = (length geom * 20)%nat ->
  exists S_ T Vtmp ba,
    FastIntegrals.oei_setup geom basis n q = Some (S_, T, Vtmp, ba) /\
    shape ba = [length geom; length basis; length basis] /\
    forall i j : nat,
      nd_at Vtmp [i; j]
      = Integrals.normalize (fast_exp basis i) * Integrals.normalize (fast_exp basis j)
        * snd (Integrals.gp (fast_exp basis i) (fast_exp basis j)
                 (fast_center geom i) (fast_center geom j))
        * 2 * PI / (fast_exp basis i + fast_exp basis j) /\
      forall a : nat, (a < length geom)%nat ->
        nd_at ba [a; i; j]
        = (fast_exp basis i + fast_exp basis j)
          * vdot (vsub (fst (Integrals.gp (fast_exp basis i) (fast_exp basis j)
                               (fast_center geom i) (fast_center geom j)))
                       (nth a geom vzero))
                 (vsub (fst (Integrals.gp (fast_exp basis i) (fast_exp basis j)
                               (fast_center geom i) (fast_center geom j)))
                       (nth a geom vzero)).
Proof.
  intros Hlen. unfold FastIntegrals.oei_setup, broadcast_to, of_list.
  rewrite Hlen. nd_eval. rewrite !Nat.eqb_refl, ?mul20_neq_1. nd_eval.
  eexists _, _, _, _. split; [reflexivity|]. split; [reflexivity|].
  intros i j. nd_eval. rewrite ?mul20_neq_1. nd_eval.
  unfold fast_exp, fast_center, Integrals.gp. cbn [fst snd].
  split.
  - generalize (nth i basis 0), (nth j basis 0),
      (nth (i / 20) geom vzero), (nth (j / 20) geom vzero).
    intros bi bj ci cj. unfold sum3. cbn [vget].
    replace (bj + bi) with (bi + bj) by ring.
    rewrite pair_coeff_fast2. unfold Integrals.normalize. reflexivity.
  - intros a Ha. rewrite ?(bcast_index _ a Ha).
    generalize (nth i basis 0), (nth j basis 0),
      (nth (i / 20) geom vzero), (nth (j / 20) geom vzero), (nth a geom vzero).
    intros bi bj ci cj ca. unfold sum3. cbn [vget].
    replace (bj + bi) with (bi + bj) by ring.
    vec_eval. unfold Rdiv. ring.
Qed.

End FastOei.

Section FastOeiClaims.

Local Open Scope R_scope.

(** The entries of [oei_finish], given the shape of [boys_arg] and one
    charge per atom. *)
Lemma oei_finish_entries (Vtmp ba : ndarray) (q : list R) (natoms nbf : nat) :
  shape ba = [natoms; nbf; nbf] -> length q = natoms ->
  exists V,
    FastIntegrals.oei_finish Vtmp ba q = Some V /\
    forall i j : nat,
      nd_at V [i; j]
      = nd_at Vtmp [i; j]
        * Rsum (map (fun a => - nth a q 0 * FastIntegrals.F_masked (nd_at ba [a; i; j]))
                    (seq 0 natoms)).
Proof.
  intros Hsh Hq. unfold FastIntegrals.oei_finish.
  cbn [nd_map shape]. rewrite Hsh, Hq. cbn [nth tl].
  rewrite Nat.eqb_refl. cbn [orb]. eexists. split; [reflexivity|].
  intros i j. cbn [nd_map2 nd_at elementwise nd_map]. f_equal.
  rewrite Nat.max_id. f_equal. apply map_ext_in. intros a Ha.
  apply in_seq in Ha.
  rewrite !(bcast_index natoms a) by lia. reflexivity.
Qed.

(** The fast path computes the naive kernels.  With 20 basis functions per
    atom and one charge per atom, [oei_setup] followed by [oei_finish]
    returns matrices whose entries are [overlap] and [kinetic] of the two
    primitives, and, where no Boys argument is exactly the threshold [1e-8],
    the sum over the atoms of [potential]. *)
Theorem fast_oei_refines_naive (geom : list vec3) (basis : list R) (n : nat)
    (q : list R) :
  length basis = (length geom * 20)%nat ->
  length q = length geom ->
  exists S_ T Vtmp ba V,
    FastIntegrals.oei_setup geom basis n q = Some (S_, T, Vtmp, ba) /\
    FastIntegrals.oei_finish Vtmp ba q = Some V /\
    forall i j : nat,
      nd_at S_ [i; j]
      = Integrals.overlap (fast_exp basis i) (fast_exp basis j)
          (fast_center geom i) (fast_center geom j) /\
      nd_at T [i; j]
      = Integrals.kinetic (fast_exp basis i) (fast_exp basis j)
          (fast_center geom i) (fast_center geom j) /\
      ((forall a : nat, (a < length geom)%nat -> nd_at ba [a; i; j] <> 1e-8) ->
       nd_at V [i; j]
       = Rsum (map (fun a =>
                      Integrals.potential (fast_exp basis i) (fast_exp basis j)
                        (fast_center geom i) (fast_center geom j)
                        (nth a geom vzero) (nth a q 0))
                   (seq 0 (length geom)))).
Proof.
  intros Hlen Hq.
  destruct (oei_setup_entries geom basis n q Hlen)
    as (S_ & T & Vtmp & ba & Hs & He).
  destruct (oei_setup_V_entries geom basis n q Hlen)
    as (S' & T' & Vtmp' & ba' & Hs' & Hsh & Hv).
  rewrite Hs in Hs'. injection Hs' as <- <- <- <-.
  destruct (oei_finish_entries Vtmp ba q _ _ Hsh Hq) as (V & HV & HVe).
  exists S_, T, Vtmp, ba, V. split; [exact Hs|]. split; [exact HV|].
  intros i j. destruct (He i j) as [HS HT]. split; [exact HS|].
  split; [exact HT|]. intros Hne.
  rewrite HVe. destruct (Hv i j) as [HVt Hba].
  rewrite Rmult_comm, <- Rsum_map_scale. f_equal.
  apply map_ext_in. intros a Ha. apply in_seq in Ha.
  rewrite F_masked_torchboys by (apply Hne; lia).
  rewrite HVt, (Hba a) by lia.
  unfold Integrals.potential.
  destruct (Integrals.gp (fast_exp basis i) (fast_exp basis j)
              (fast_center geom i) (fast_center geom j)) as [P c].
  cbn [fst snd]. replace 0.0 with 0 by lra. unfold Rdiv. ring.
Qed.

Lemma fast_oei_refines_naive_witness :
  exists S_ T Vtmp ba V,
    FastIntegrals.oei_setup [vzero] basis_ones 20 [1] = Some (S_, T, Vtmp, ba) /\
    FastIntegrals.oei_finish Vtmp ba [1] = Some V /\
    forall i j : nat,
      nd_at S_ [i; j]
      = Integrals.overlap (fast_exp basis_ones i) (fast_exp basis_ones j)
          (fast_center [vzero] i) (fast_center [vzero] j) /\
      nd_at T [i; j]
      = Integrals.kinetic (fast_exp basis_ones i) (fast_exp basis_ones j)
          (fast_center [vzero] i) (fast_center [vzero] j) /\
      ((forall a : nat, (a < length [vzero])%nat -> nd_at ba [a; i; j] <> 1e-8) ->
       nd_at V [i; j]
       = Rsum (map (fun a =>
                      Integrals.potential (fast_exp basis_ones i)
                        (fast_exp basis_ones j)
                        (fast_center [vzero] i) (fast_center [vzero] j)
                        (nth a [vzero] vzero) (nth a [1] 0))
                   (seq 0 (length [vzero])))).
Proof.
  apply (fast_oei_refines_naive [vzero] basis_ones 20 [1]); reflexivity.
Defined.

(** The potential matrix of the fast path is symmetric. *)
Theorem fast_potential_symmetric (geom : list vec3) (basis : list R) (n : nat)
    (q : list R) :
  length basis = (length geom * 20)%nat ->
  length q = length geom ->
  exists S_ T Vtmp ba V,
    FastIntegrals.oei_setup geom basis n q = Some (S_, T, Vtmp, ba) /\
    FastIntegrals.oei_finish Vtmp ba q = Some V /\
    forall i j : nat, nd_at V [i; j] = nd_at V [j; i].
Proof.
  intros Hlen Hq.
  destruct (oei_setup_V_entries geom basis n q Hlen)
    as (S_ & T & Vtmp & ba & Hs & Hsh & Hv).
  destruct (oei_finish_entries Vtmp ba q _ _ Hsh Hq) as (V & HV & HVe).
  exists S_, T, Vtmp, ba, V. split; [exact Hs|]. split; [exact HV|].
  intros i j. rewrite !HVe.
  destruct (Hv i j) as [HVt Hba]. destruct (Hv j i) as [HVt' Hba'].
  rewrite HVt, HVt'. rewrite (gp_swap (fast_exp basis i) (fast_exp basis j)).
  apply (f_equal2 Rmult).
  - replace (fast_exp basis j + fast_exp basis i)
      with (fast_exp basis i + fast_exp basis j) by ring.
    unfold Rdiv. ring.
  - f_equal. apply map_ext_in. intros a Ha. apply in_seq in Ha.
    rewrite (Hba a), (Hba' a) by lia.
    rewrite (gp_swap (fast_exp basis i) (fast_exp basis j)).
    replace (fast_exp basis j + fast_exp basis i)
      with (fast_exp basis i + fast_exp basis j) by ring.
    reflexivity.
Qed.

Lemma fast_potential_symmetric_witness :
  exists S_ T Vtmp ba V,
    FastIntegrals.oei_setup [vzero] basis_ones 20 [1] = Some (S_, T, Vtmp, ba) /\
    FastIntegrals.oei_finish Vtmp ba [1] = Some V /\
    forall i j : nat, nd_at V [i; j] = nd_at V [j; i].
Proof.
  apply (fast_potential_symmetric [vzero] basis_ones 20 [1]); reflexivity.
Defined.

(** Sanity of the fast one-electron matrices.  With 20 basis functions per
    atom and positive exponents, the overlap matrix of [oei_setup] has a
    unit diagonal and entries in [(0, 1]], and the diagonal of the kinetic
    matrix is [3/2] times the exponent. *)
Theorem fast_overlap_unit_diagonal (geom : list vec3) (basis : list R)
    (n : nat) (q : list R) :
  length basis = (length geom * 20)%nat ->
  Forall (fun b => 0 < b) basis ->
  exists S_ T Vtmp ba,
    FastIntegrals.oei_setup geom basis n q = Some (S_, T, Vtmp, ba) /\
    forall i j : nat, (i < length basis)%nat -> (j < length basis)%nat ->
      nd_at S_ [i; i] = 1 /\
      nd_at T [i; i] = 3 * nth i basis 0 / 2 /\
      0 < nd_at S_ [i; j] <= 1.
Proof.
  intros Hlen Hpos.
  destruct (oei_setup_entries geom basis n q Hlen)
    as (S_ & T & Vtmp & ba & Hs & He).
  exists S_, T, Vtmp, ba. split; [exact Hs|].
  intros i j Hi Hj.
  assert (Hbi : 0 < fast_exp basis i).
  { unfold fast_exp. rewrite Forall_forall in Hpos. apply Hpos.
    apply nth_In. exact Hi. }
  assert (Hbj : 0 < fast_exp basis j).
  { unfold fast_exp. rewrite Forall_forall in Hpos. apply Hpos.
    apply nth_In. exact Hj. }
  destruct (He i i) as [HS HT]. destruct (He i j) as [HS' _].
  rewrite HS, HT, HS'. split; [|split].
  - apply overlap_self. exact Hbi.
  - apply kinetic_same. exact Hbi.
  - apply overlap_range; assumption.
Qed.

Lemma fast_overlap_unit_diagonal_witness :
  exists S_ T Vtmp ba,
    FastIntegrals.oei_setup [vzero] basis_ones 20 [1] = Some (S_, T, Vtmp, ba) /\
    forall i j : nat, (i < length basis_ones)%nat -> (j < length basis_ones)%nat ->
      nd_at S_ [i; i] = 1 /\
      nd_at T [i; i] = 3 * nth i basis_ones 0 / 2 /\
      0 < nd_at S_ [i; j] <= 1.
Proof.
  apply (fast_overlap_unit_diagonal [vzero] basis_ones 20 [1]).
  - reflexivity.
  - unfold basis_ones. apply Forall_forall. intros b Hb.
    apply repeat_spec in Hb. subst b. lra.
Defined.

End FastOeiClaims.

(** ** [vectorized_oei] against the naive kernels, and the centres of the
    vectorised torch functions *)

Section VectorizedOei.

Local Open Scope R_scope.

Lemma F_masked_torch (x : R) :
  x <> 1e-8 -> Integrals.F_masked x = Integrals.torchboys 0 x.
Proof.
  intros Hx.
  unfold Integrals.F_masked, Integrals.mask1, Integrals.mask2,
    Integrals.torchboys, Integrals.torchboys_small.
  destruct (Rgt_dec x 1e-8), (Rle_dec x 1e-8), (Rlt_dec x 1e-8);
    try lra; try reflexivity.
Qed.

Variables (geom : list vec3) (basis : list R) (nbf_per_atom : list nat).
Variable centers : list vec3.
Variable q : list R.
Hypothesis Hcenters : Integrals.repeat_interleave geom nbf_per_atom = Some centers.
Hypothesis Hlen : length centers = length basis.
Hypothesis Hq : length q = length geom.

Lemma vectorized_oei_entries :
  exists S_ T V,
    Integrals.vectorized_oei basis geom nbf_per_atom q = Some (S_, T, V) /\
    forall i j : nat,
      (i < length basis)%nat -> (j < length basis)%nat ->
      nd_at S_ [i; j]
      = Integrals.overlap (nth i basis 0) (nth j basis 0)
          (nth i centers vzero) (nth j centers vzero) /\
      nd_at T [i; j]
      = Integrals.kinetic (nth i basis 0) (nth j basis 0)
          (nth i centers vzero) (nth j centers vzero) /\
      nd_at V [i; j]
      = Rsum (map (fun a =>
                     - nth a q 0
                     * Integrals.F_masked
                         ((nth i basis 0 + nth j basis 0)
                          * vdot (vsub (fst (Integrals.gp (nth i basis 0) (nth j basis 0)
                                               (nth i centers vzero) (nth j centers vzero)))
                                       (nth a geom vzero))
                                 (vsub (fst (Integrals.gp (nth i basis 0) (nth j basis 0)
                                               (nth i centers vzero) (nth j centers vzero)))
                                       (nth a geom vzero))))
                  (seq 0 (length geom)))
        * (Integrals.normalize (nth i basis 0) * Integrals.normalize (nth j basis 0)
           * snd (Integrals.gp (nth i basis 0) (nth j basis 0)
                    (nth i centers vzero) (nth j centers vzero))
           * 2 * PI / (nth i basis 0 + nth j basis 0)).
Proof.
  unfold Integrals.vectorized_oei. rewrite Hcenters.
  unfold broadcast_to, einsum_i_ij, of_list, of_rows. rewrite Hlen, Hq.
  unfold broadcast_len.
  nd_eval. rewrite !Nat.eqb_refl. nd_eval.
  eexists _, _, _. split; [reflexivity|].
  intros i j Hi Hj. nd_eval.
  rewrite !(bcast_index _ i Hi), !(bcast_index _ j Hj).
  unfold Integrals.gp. cbn [fst snd].
  split; [|split].
  - generalize (nth i basis 0), (nth j basis 0),
      (nth i centers vzero), (nth j centers vzero).
    intros bi bj ci cj. unfold sum3. cbn [vget].
    replace (bj + bi) with (bi + bj) by ring.
    rewrite pair_coeff_fast2.
    unfold Integrals.overlap, Integrals.gp, Integrals.normalize. reflexivity.
  - generalize (nth i basis 0), (nth j basis 0),
      (nth i centers vzero), (nth j centers vzero).
    intros bi bj ci cj. unfold sum3. cbn [vget].
    replace (bj + bi) with (bi + bj) by ring.
    rewrite pair_coeff_fast2.
    unfold Integrals.kinetic, Integrals.overlap, Integrals.gp, Integrals.normalize.
    replace (-1.0) with (-1) by lra.
    replace (-1 * vdot (vsub ci cj) (vsub ci cj))
      with (- ((vx cj - vx ci) * (vx cj - vx ci) + (vy cj - vy ci) * (vy cj - vy ci)
               + (vz cj - vz ci) * (vz cj - vz ci)))
      by (vec_eval; ring).
    reflexivity.
  - unfold sum3. cbn [vget].
    replace (nth j basis 0 + nth i basis 0) with (nth i basis 0 + nth j basis 0)
      by ring.
    rewrite pair_coeff_fast2.
    match goal with
    | |- ?s1 * ?n * ?c * 2 * PI / ?g = ?s2 * _ =>
        replace s1 with s2; [unfold Integrals.normalize, Rdiv; ring|]
    end.
    f_equal. apply map_ext_in. intros a Ha. apply in_seq in Ha.
    rewrite !(bcast_index (length geom) a) by lia.
    f_equal. f_equal. vec_eval. unfold Rdiv. ring.
Qed.

End VectorizedOei.

Section VectorizedClaims.

Local Open Scope R_scope.

(** [vectorized_oei] computes the naive kernels.  When the per-atom counts
    give one centre per exponent and there is one charge per atom, the
    entries of [S] and [T] are [overlap] and [kinetic] of the two
    primitives, and an entry of [V] none of whose Boys arguments is exactly
    the threshold [1e-8] is the sum over the atoms of [potential]. *)
Theorem vectorized_oei_refines_naive (geom : list vec3) (basis : list R)
    (nbf_per_atom : list nat) (centers : list vec3) (q : list R) (i j : nat) :
  Integrals.repeat_interleave geom nbf_per_atom = Some centers ->
  length centers = length basis ->
  length q = length geom ->
  (i < length basis)%nat -> (j < length basis)%nat ->
  exists S_ T V,
    Integrals.vectorized_oei basis geom nbf_per_atom q = Some (S_, T, V) /\
    nd_at S_ [i; j]
    = Integrals.overlap (nth i basis 0) (nth j basis 0)
        (nth i centers vzero) (nth j centers vzero) /\
    nd_at T [i; j]
    = Integrals.kinetic (nth i basis 0) (nth j basis 0)
        (nth i centers vzero) (nth j centers vzero) /\
    ((forall a : nat, (a < length geom)%nat ->
        let P := fst (Integrals.gp (nth i basis 0) (nth j basis 0)
                        (nth i centers vzero) (nth j centers vzero)) in
        (nth i basis 0 + nth j basis 0)
        * vdot (vsub P (nth a geom vzero)) (vsub P (nth a geom vzero)) <> 1e-8) ->
     nd_at V [i; j]
     = Rsum (map (fun a =>
                    Integrals.potential (nth i basis 0) (nth j basis 0)
                      (nth i centers vzero) (nth j centers vzero)
                      (nth a geom vzero) (nth a q 0))
                 (seq 0 (length geom)))).
Proof.
  intros Hc Hlen Hq Hi Hj.
  destruct (vectorized_oei_entries geom basis nbf_per_atom centers q Hc Hlen Hq)
    as (S_ & T & V & Hv & He).
  exists S_, T, V. split; [exact Hv|].
  destruct (He i j Hi Hj) as (HS & HT & HV).
  split; [exact HS|]. split; [exact HT|]. intros Hne. cbv zeta in Hne.
  rewrite HV, <- Rsum_map_scale. f_equal.
  apply map_ext_in. intros a Ha. apply in_seq in Ha.
  rewrite F_masked_torch by (apply Hne; lia).
  unfold Integrals.potential.
  destruct (Integrals.gp (nth i basis 0) (nth j basis 0)
              (nth i centers vzero) (nth j centers vzero)) as [P c].
  cbn [fst snd]. replace 0.0 with 0 by lra. unfold Rdiv. ring.
Qed.

Lemma vectorized_oei_refines_naive_witness :
  let centers := repeat vzero 20 ++ repeat (mkV 0 0 2) 20 in
  exists S_ T V,
    Integrals.vectorized_oei basis_half geom_far [20; 20]%nat [1; 1] = Some (S_, T, V) /\
    nd_at S_ [0; 20]%nat
    = Integrals.overlap (nth 0 basis_half 0) (nth 20 basis_half 0)
        (nth 0 centers vzero) (nth 20 centers vzero) /\
    nd_at T [0; 20]%nat
    = Integrals.kinetic (nth 0 basis_half 0) (nth 20 basis_half 0)
        (nth 0 centers vzero) (nth 20 centers vzero) /\
    ((forall a : nat, (a < length geom_far)%nat ->
        let P := fst (Integrals.gp (nth 0 basis_half 0) (nth 20 basis_half 0)
                        (nth 0 centers vzero) (nth 20 centers vzero)) in
        (nth 0 basis_half 0 + nth 20 basis_half 0)
        * vdot (vsub P (nth a geom_far vzero)) (vsub P (nth a geom_far vzero))
        <> 1e-8) ->
     nd_at V [0; 20]%nat
     = Rsum (map (fun a =>
                    Integrals.potential (nth 0 basis_half 0) (nth 20 basis_half 0)
                      (nth 0 centers vzero) (nth 20 centers vzero)
                      (nth a geom_far vzero) (nth a [1; 1] 0))
                 (seq 0 (length geom_far)))).
Proof.
  intros centers.
  apply (vectorized_oei_refines_naive geom_far basis_half [20; 20]%nat
           centers [1; 1] 0 20).
  - reflexivity.
  - reflexivity.
  - reflexivity.
  - cbn. lia.
  - cbn. lia.
Defined.

Lemma length_interleaved (geom : list vec3) : forall counts : list nat,
  length counts = length geom ->
  length (flat_map (fun gc : vec3 * nat => repeat (fst gc) (snd gc))
            (combine geom counts))
  = list_sum counts.
Proof.
  induction geom as [|g geom IH]; intros [|c counts] H; cbn in H;
    try discriminate; [reflexivity|].
  cbn [combine flat_map list_sum fst snd].
  rewrite length_app, repeat_length, IH by lia. reflexivity.
Qed.

Lemma vectorized_tei_some_iff (basis : list R) (geom : list vec3)
    (nbf_per_atom : list nat) :
  length nbf_per_atom = length geom ->
  (Integrals.vectorized_tei basis geom nbf_per_atom <> None
   <-> list_sum nbf_per_atom = length basis \/ list_sum nbf_per_atom = 1%nat).
Proof.
  intros Hn. unfold Integrals.vectorized_tei, Integrals.repeat_interleave.
  rewrite Hn, Nat.eqb_refl.
  unfold broadcast_to, of_list, of_rows.
  rewrite length_interleaved by exact Hn.
  nd_eval. rewrite !Nat.eqb_refl. nd_eval.
  destruct (Nat.eqb_spec (list_sum nbf_per_atom) (length basis)) as [E|E];
    [|destruct (Nat.eqb_spec (list_sum nbf_per_atom) 1) as [E1|E1]];
    nd_eval.
  - split; [intros _; left; exact E | intros _; discriminate].
  - split; [intros _; right; exact E1 | intros _; discriminate].
  - split; [intros H; exfalso; apply H; reflexivity | intros [H|H]; contradiction].
Qed.

(** The centres of [vectorized_tei].  With one count per atom, the function
    returns exactly when the counts add up to the number of exponents, or
    to 1: a single centre is expanded to every basis function, and any
    other total makes the expansion of the centres fail. *)
Theorem vectorized_tei_needs_counts (basis : list R) (geom : list vec3)
    (nbf_per_atom : list nat) :
  length nbf_per_atom = length geom ->
  (Integrals.vectorized_tei basis geom nbf_per_atom <> None
   <-> list_sum nbf_per_atom = length basis \/ list_sum nbf_per_atom = 1%nat).
Proof.
  apply vectorized_tei_some_iff.
Qed.

Lemma vectorized_tei_needs_counts_witness :
  Integrals.vectorized_tei basis_half geom_far [20; 20]%nat <> None
  <-> list_sum [20; 20]%nat = length basis_half \/ list_sum [20; 20]%nat = 1%nat.
Proof.
  apply (vectorized_tei_needs_counts basis_half geom_far [20; 20]%nat).
  reflexivity.
Defined.

(** [benchmark_tei] is written for two atoms: it returns exactly when the
    geometry has two rows, the first [n] functions of the doubled basis
    being centred on the first atom and the last [n] on the second. *)
Theorem benchmark_tei_two_atoms (basis : list R) (geom : list vec3) :
  (Integrals.benchmark_tei basis geom <> None <-> length geom = 2%nat) /\
  forall A B : vec3,
    Integrals.repeat_interleave [A; B] [length basis; length basis]
    = Some (repeat A (length basis) ++ repeat B (length basis)).
Proof.
  split.
  - unfold Integrals.benchmark_tei.
    destruct (Nat.eq_dec (length geom) 2) as [E|E].
    + split; [intros _; exact E|intros _].
      assert (Hn : length [length basis; length basis] = length geom)
        by (cbn [length]; lia).
      apply (proj2 (vectorized_tei_some_iff (basis ++ basis) geom _ Hn)).
      left. unfold list_sum. cbn [fold_right]. rewrite length_app. lia.
    + split; [|intros H; contradiction]. intros H. exfalso. apply H.
      unfold Integrals.vectorized_tei, Integrals.repeat_interleave.
      cbn [length].
      destruct (Nat.eqb_spec 2 (length geom)) as [E'|_]; [lia|reflexivity].
  - intros A B. unfold Integrals.repeat_interleave. cbn. rewrite app_nil_r.
    reflexivity.
Qed.

End VectorizedClaims.

(** ** [oei.py]: edge behaviour of [overlap_component], entries of [A_array] *)

Lemma countup_nonpos (n : Z) : (n <= 0)%Z -> countup n = [].
Proof.
  intros H. unfold countup. replace (Z.to_nat n) with 0%nat by lia. reflexivity.
Qed.

Section OeiEdges.

Local Open Scope R_scope.

Variable new_binomial_prefactor : Z -> Z -> Z -> list R -> list R -> R.
Variable double_factorials : Z -> R.

Lemma overlap_component_negative (l1 l2 : Z) (PAx PBx : list R) (gamma : R) :
  (l1 + l2 < 0)%Z ->
  Oei.overlap_component_scope new_binomial_prefactor double_factorials
    l1 l2 PAx PBx gamma = Oei.mkOv 0 0.
Proof.
  intros H. rewrite overlap_component_scope_eq.
  assert (HK : (1 + (l1 + l2) / 2 <= 0)%Z)
    by (Z.to_euclidean_division_equations; lia).
  rewrite countup_nonpos by exact HK. f_equal. lia.
Qed.

(** A negative total angular momentum along one axis.  When [l1 + l2 < 0]
    the loop of [overlap_component] does not run at all: the counter stays
    at 0, no table is read, and the component is [0.0].  [overlap] is then
    0 as soon as one of its three axes is in that case, as in the lowered
    terms of [kinetic]. *)
Theorem overlap_negative_momentum (aa bb : R) (la ma na lb mb nb : Z)
    (PA PB : list (list R)) (prefactor : R) :
  (la + lb < 0 \/ ma + mb < 0 \/ na + nb < 0)%Z ->
  Oei.overlap new_binomial_prefactor double_factorials
    aa (la, ma, na) bb (lb, mb, nb) PA PB prefactor = 0 /\
  forall (l1 l2 : Z) (PAx PBx : list R) (gamma : R),
    (l1 + l2 < 0)%Z ->
    Oei.overlap_component_scope new_binomial_prefactor double_factorials
      l1 l2 PAx PBx gamma = Oei.mkOv 0 0.
Proof.
  intros H. split; [|apply overlap_component_negative].
  unfold Oei.overlap, Oei.overlap_component.
  destruct H as [H|[H|H]];
    rewrite (overlap_component_negative _ _ _ _ _ H); cbn [Oei.ov_total]; ring.
Qed.

End OeiEdges.

(** *** [A_array] entry by entry *)

Section ScatterVector.

Local Open Scope R_scope.

(** A sequence of [index_add]s on a vector: the entry [k] of the result is
    its initial value plus the sum of the values whose write lands on
    [k]. *)
Lemma nth_scatter {Q : Type} (qi : Q -> Z) (qv : Q -> R) (k : nat)
    (l : list Q) : forall A0,
  nth k (fold_left (fun A t => index_add A (qi t) (qv t)) l A0) 0
  = nth k A0 0
    + Rsum (map qv (filter (fun t => lands (length A0) (qi t) k) l)).
Proof.
  induction l as [|t l IH]; intros A0; cbn [fold_left filter map].
  - unfold Rsum. cbn. ring.
  - rewrite IH, index_add_length, nth_index_add.
    destruct (lands (length A0) (qi t) k); cbn [map].
    + unfold Rsum at 2. cbn [fold_left]. rewrite fold_left_Rplus. ring.
    + ring.
Qed.

Lemma filter_none {X : Type} (f : X -> bool) (l : list X) :
  (forall x, In x l -> f x = false) -> filter f l = [].
Proof.
  induction l as [|x l IH]; intros H; cbn [filter]; [reflexivity|].
  rewrite (H x) by (left; reflexivity). apply IH.
  intros y Hy. apply H. right. exact Hy.
Qed.

End ScatterVector.

Section AArrayEntries.

Local Open Scope R_scope.

Variable binomial_prefactor : Z -> Z -> Z -> R -> R -> R.
Variable factorials : Z -> R.

(** The entries of [A_array].  The array has length 7 whatever [l1] and
    [l2]; its entry [k] is the sum of [A_term] over the triples [(i, r, u)]
    of the loop nest with [i - 2r - u = k]; and the entries above
    [l1 + l2] are left at zero. *)
Theorem A_array_entries (l1 l2 : Z) (PA PB CP g : R) (k : nat) :
  (k < 7)%nat ->
  length (Oei.A_array binomial_prefactor factorials l1 l2 PA PB CP g) = 7%nat /\
  nth k (Oei.A_array binomial_prefactor factorials l1 l2 PA PB CP g) 0
  = Rsum (map (fun '(i, r, u) =>
                 Oei.A_term binomial_prefactor factorials i r u l1 l2 PA PB CP g)
              (filter (fun '(i, r, u) => (i - 2 * r - u =? Z.of_nat k)%Z)
                      (Oei.A_triples l1 l2))) /\
  ((l1 + l2 < Z.of_nat k)%Z ->
   nth k (Oei.A_array binomial_prefactor factorials l1 l2 PA PB CP g) 0 = 0).
Proof.
  intros Hk.
  assert (HA : Oei.A_array binomial_prefactor factorials l1 l2 PA PB CP g
               = fold_left
                   (fun A t =>
                      index_add A
                        ((fun '(i, r, u) => (i - 2 * r - u)%Z) t)
                        ((fun '(i, r, u) =>
                            Oei.A_term binomial_prefactor factorials
                              i r u l1 l2 PA PB CP g) t))
                   (Oei.A_triples l1 l2) (zeros 7)).
  { unfold Oei.A_array. rewrite A_loops_runs by lia. cbn [run].
    apply fold_left_ext_all. intros A [[i r] u]. reflexivity. }
  assert (Hnth :
    nth k (Oei.A_array binomial_prefactor factorials l1 l2 PA PB CP g) 0
    = Rsum (map (fun '(i, r, u) =>
                   Oei.A_term binomial_prefactor factorials i r u l1 l2 PA PB CP g)
                (filter (fun '(i, r, u) => (i - 2 * r - u =? Z.of_nat k)%Z)
                        (Oei.A_triples l1 l2)))).
  { rewrite HA, nth_scatter.
    unfold zeros at 1. rewrite nth_repeat, Rplus_0_l. f_equal. f_equal.
    apply filter_ext_in. intros [[i r] u] Hin.
    apply in_A_triples in Hin. destruct Hin as (Hi & Hr & Hu).
    unfold zeros. rewrite repeat_length. apply lands_nonneg; [|exact Hk].
    Z.to_euclidean_division_equations; lia. }
  split; [|split; [exact Hnth|]].
  - rewrite HA. generalize (Oei.A_triples l1 l2) as l.
    assert (H7 : length (zeros 7) = 7%nat) by apply repeat_length.
    revert H7. generalize (zeros 7) as A0.
    intros A0 H7 l. revert A0 H7.
    induction l as [|t l IH]; intros A0 H7; cbn [fold_left]; [exact H7|].
    apply IH. rewrite index_add_length. exact H7.
  - intros Hlt. rewrite Hnth.
    replace (filter _ (Oei.A_triples l1 l2)) with (@nil (Z * Z * Z)).
    + reflexivity.
    + symmetry. apply filter_none. intros [[i r] u] Hin.
      apply in_A_triples in Hin. destruct Hin as (Hi & Hr & Hu).
      apply Z.eqb_neq.
      Z.to_euclidean_division_equations; lia.
Qed.

End AArrayEntries.

Lemma overlap_negative_momentum_witness :
  Oei.overlap Tables.new_binomial_prefactor Tables.double_factorials
    1%R (0, 0, 0) 1%R (0 - 2, 0, 0) [] [] 1%R = 0%R /\
  forall (l1 l2 : Z) (PAx PBx : list R) (gamma : R),
    l1 + l2 < 0 ->
    Oei.overlap_component_scope Tables.new_binomial_prefactor
      Tables.double_factorials l1 l2 PAx PBx gamma = Oei.mkOv 0 0.
Proof.
  apply (overlap_negative_momentum Tables.new_binomial_prefactor
           Tables.double_factorials 1 1 0 0 0 (0 - 2) 0 0 [] [] 1).
  left. lia.
Defined.

Lemma A_array_entries_witness :
  length (Oei.A_array Tables.binomial_prefactor Tables.factorials 0 0 1 1 1 1)
  = 7%nat /\
  nth 1 (Oei.A_array Tables.binomial_prefactor Tables.factorials 0 0 1 1 1 1) 0%R
  = Rsum (map (fun '(i, r, u) =>
                 Oei.A_term Tables.binomial_prefactor Tables.factorials
                   i r u 0 0 1 1 1 1)
              (filter (fun '(i, r, u) => i - 2 * r - u =? Z.of_nat 1)
                      (Oei.A_triples 0 0))) /\
  (0 + 0 < Z.of_nat 1 ->
   nth 1 (Oei.A_array Tables.binomial_prefactor Tables.factorials 0 0 1 1 1 1) 0%R
   = 0%R).
Proof.
  apply (A_array_entries Tables.binomial_prefactor Tables.factorials
           0 0 1 1 1 1 1). lia.
Defined.

(** ** [potential] as a sum over atoms and over [(I, J, K)] *)

Section SumsOfLoops.

Local Open Scope R_scope.

Lemma fold_plus_map {X : Type} (f : X -> R) (l : list X) (a : R) :
  fold_left (fun t x => t + f x) l a = a + Rsum (map f l).
Proof.
  rewrite <- fold_left_Rplus. symmetry. apply fold_left_map.
Qed.

Lemma fold_plus_map3 {X Y W : Type} (f : X -> Y -> W -> R)
    (lx : list X) (ly : list Y) (lw : list W) (a : R) :
  fold_left
    (fun t x =>
       fold_left
         (fun t y => fold_left (fun t w => t + f x y w) lw t)
         ly t)
    lx a
  = a + Rsum (map (fun x =>
                     Rsum (map (fun y => Rsum (map (f x y) lw)) ly)) lx).
Proof.
  rewrite <- fold_plus_map. apply fold_left_ext_all. intros t x.
  rewrite <- fold_plus_map. apply fold_left_ext_all. intros t' y.
  rewrite <- fold_plus_map. reflexivity.
Qed.

End SumsOfLoops.

Section PotentialSum.

Local Open Scope R_scope.

Variable binomial_prefactor : Z -> Z -> Z -> R -> R -> R.
Variable boys : Z -> R -> R.
Variable factorials : Z -> R.

(** [potential] finishes whatever its arguments, and its value is the sum
    over the atoms [i] of [charges[i]] times [prefactor * (-2 pi / gamma)]
    times the sum, over [I <= la + lb], [J <= ma + mb] and [K <= na + nb],
    of [Ax[I] * Ay[J] * Az[K] * boys(I + J + K, gamma |C - P|^2)], with
    [Ax], [Ay], [Az] the arrays of [A_array] for the three axes.  Without
    atoms the value is 0. *)
Theorem potential_sum (aa bb : R) (la ma na lb mb nb : Z) (PA PB P : vec3)
    (prefactor : R) (geom : list vec3) (charges : list R) :
  Oei.potential binomial_prefactor boys factorials
    aa (la, ma, na) bb (lb, mb, nb) PA PB P prefactor geom charges
  = Rsum (map (fun i =>
       let gamma := aa + bb in
       let C := jnp_get vzero geom i in
       let PC := vsub P C in
       let Ax := Oei.A_array binomial_prefactor factorials
                   la lb (vx PA) (vx PB) (vx PC) gamma in
       let Ay := Oei.A_array binomial_prefactor factorials
                   ma mb (vy PA) (vy PB) (vy PC) gamma in
       let Az := Oei.A_array binomial_prefactor factorials
                   na nb (vz PA) (vz PB) (vz PC) gamma in
       jnp_get 0 charges i * (prefactor * (-2 * PI / gamma))
       * Rsum (map (fun I =>
           Rsum (map (fun J =>
             Rsum (map (fun K =>
               jnp_get 0 Ax I * jnp_get 0 Ay J * jnp_get 0 Az K
               * boys (I + J + K)%Z (gamma * vdot (vsub C P) (vsub C P)))
               (countup (na + nb + 1))))
             (countup (ma + mb + 1))))
           (countup (la + lb + 1))))
     (countup (Z.of_nat (length geom))))
  /\ Oei.potential binomial_prefactor boys factorials
       aa (la, ma, na) bb (lb, mb, nb) PA PB P prefactor [] charges = 0.
Proof.
  split; [|reflexivity].
  unfold Oei.potential. rewrite <- (Rplus_0_l (Rsum _)), <- fold_plus_map.
  apply fold_left_ext_all. intros val i. cbv zeta.
  rewrite potential_I_loop_eq. cbn [Oei.V_I Oei.V_total].
  rewrite zrange_0, fold_plus_map3, Rplus_0_l. reflexivity.
Qed.

End PotentialSum.

(** ** [oei_arrays]: contributions aimed outside the matrices *)

(** Whether an index [I] designates position [k] of an axis of length [n]
    under jax: as it is, or counted from the end when negative. *)
Definition wraps_to (n : nat) (I : Z) (k : nat) : bool :=
  (I =? Z.of_nat k) || (I + Z.of_nat n =? Z.of_nat k).

Lemma lands_wraps (n : nat) (I : Z) (k : nat) :
  (k < n)%nat -> lands n I k = wraps_to n I k.
Proof.
  intros Hk. unfold lands, wraps_to, norm_index.
  destruct (Z.ltb_spec I 0) as [Hneg|Hpos].
  - destruct (Z.eqb_spec I (Z.of_nat k)) as [E|_]; [lia|]. cbn [orb].
    destruct (Z.leb_spec 0 (I + Z.of_nat n)), (Z.ltb_spec (I + Z.of_nat n) (Z.of_nat n));
      cbn [andb];
      destruct (Z.eqb_spec (I + Z.of_nat n) (Z.of_nat k)); try lia;
      try reflexivity.
    + apply Nat.eqb_eq. lia.
    + apply Nat.eqb_neq. lia.
  - destruct (Z.eqb_spec (I + Z.of_nat n) (Z.of_nat k)) as [E|_]; [lia|].
    rewrite orb_false_r.
    destruct (Z.leb_spec 0 I); [|lia].
    destruct (Z.ltb_spec I (Z.of_nat n)); cbn [andb];
      destruct (Z.eqb_spec I (Z.of_nat k)); try lia; try reflexivity.
    + apply Nat.eqb_eq. lia.
    + apply Nat.eqb_neq. lia.
Qed.

Section AssemblerEdges.

Local Open Scope R_scope.

Variable binomial_prefactor : Z -> Z -> Z -> R -> R -> R.
Variable new_binomial_prefactor : Z -> Z -> Z -> list R -> list R -> R.
Variable boys : Z -> R -> R.
Variable factorials : Z -> R.
Variable double_factorials : Z -> R.
Variable am_leading_indices : list Z.
Variable angular_momentum_combinations : list (Z * Z * Z).
Variable cartesian_product : list Z -> list Z -> list (Z * Z).

Variables (geom : list vec3) (fb : Oei.flat_basis) (charges : list R).

(** Whether the contribution of [(p1, p2, a, b)] is written at [(i, j)] of
    an [nbf x nbf] matrix. *)
Definition written_at (nbf i j : nat) (q : Z * Z * Z * Z) : bool :=
  let '(p1, p2, a, b) := q in
  wraps_to nbf (jnp_get 0 (Oei.indices fb) p1 + a)%Z i
  && wraps_to nbf (jnp_get 0 (Oei.indices fb) p2 + b)%Z j.

(** Whatever the offsets in [indices], [oei_arrays] raises nothing: the
    entry [(i, j)] of each matrix is the sum of the contributions whose
    target index is [(i, j)] itself or, when negative, [(i, j)] counted
    from the end; a contribution aimed at a row or column beyond [nbf] is
    left out of every entry. *)
Theorem oei_arrays_wrap_and_drop (nbf i j : nat) :
  (i < nbf)%nat -> (j < nbf)%nat ->
  let '(S_, T, V) :=
    Oei.oei_arrays binomial_prefactor new_binomial_prefactor boys factorials
      double_factorials am_leading_indices angular_momentum_combinations
      cartesian_product geom fb nbf charges in
  let quads := filter (written_at nbf i j) (duet_quads cartesian_product fb) in
  mat_get S_ i j
  = Rsum (map (overlap_int binomial_prefactor new_binomial_prefactor boys
                 factorials double_factorials am_leading_indices
                 angular_momentum_combinations geom fb charges) quads) /\
  mat_get T i j
  = Rsum (map (kinetic_int binomial_prefactor new_binomial_prefactor boys
                 factorials double_factorials am_leading_indices
                 angular_momentum_combinations geom fb charges) quads) /\
  mat_get V i j
  = Rsum (map (potential_int binomial_prefactor new_binomial_prefactor boys
                 factorials double_factorials am_leading_indices
                 angular_momentum_combinations geom fb charges) quads).
Proof.
  intros Hi Hj. rewrite oei_arrays_mats, fold_acc_m. cbv zeta.
  set (qi := quad_integrals binomial_prefactor new_binomial_prefactor boys
               factorials double_factorials am_leading_indices
               angular_momentum_combinations geom fb charges).
  assert (Hf : filter (fun q =>
                 lands nbf (fst (fst (qi q))) i
                 && lands nbf (snd (fst (qi q))) j)
                 (duet_quads cartesian_product fb)
               = filter (written_at nbf i j) (duet_quads cartesian_product fb)).
  { apply filter_ext. intros [[[p1 p2] a] b].
    unfold qi, quad_integrals, Oei.duet_integrals, written_at.
    cbn [fst snd]. rewrite !lands_wraps by assumption. reflexivity. }
  split; [|split].
  - rewrite (mat_get_scatter _ _ _ nbf nbf) by (try apply zeros2_shape; assumption).
    rewrite Hf. unfold mat_get, zeros2, zeros.
    rewrite (nth_indep _ [] (repeat 0 nbf)) by (rewrite repeat_length; lia).
    rewrite !nth_repeat. unfold overlap_int. fold qi. ring.
  - rewrite (mat_get_scatter _ _ _ nbf nbf) by (try apply zeros2_shape; assumption).
    rewrite Hf. unfold mat_get, zeros2, zeros.
    rewrite (nth_indep _ [] (repeat 0 nbf)) by (rewrite repeat_length; lia).
    rewrite !nth_repeat. unfold kinetic_int. fold qi. ring.
  - rewrite (mat_get_scatter _ _ _ nbf nbf) by (try apply zeros2_shape; assumption).
    rewrite Hf. unfold mat_get, zeros2, zeros.
    rewrite (nth_indep _ [] (repeat 0 nbf)) by (rewrite repeat_length; lia).
    rewrite !nth_repeat. unfold potential_int. fold qi. ring.
Qed.

End AssemblerEdges.

(** One s primitive whose offset in [indices] is -1, in a basis declared
    with two functions. *)
Definition wrapped_basis : Oei.flat_basis :=
  Oei.mkBasis [1%R] [1%R] [0] [0] [-1] [1].

Lemma oei_arrays_wrap_and_drop_witness :
  let '(S_, T, V) :=
    Oei.oei_arrays Tables.binomial_prefactor Tables.new_binomial_prefactor
      Tables.boys Tables.factorials Tables.double_factorials
      Tables.am_leading_indices Tables.angular_momentum_combinations
      Tables.cartesian_product [vzero] wrapped_basis 2 [1%R] in
  let quads :=
    filter (written_at wrapped_basis 2 1 1)
      (duet_quads Tables.cartesian_product wrapped_basis) in
  mat_get S_ 1 1
  = Rsum (map (overlap_int Tables.binomial_prefactor
                 Tables.new_binomial_prefactor Tables.boys Tables.factorials
                 Tables.double_factorials Tables.am_leading_indices
                 Tables.angular_momentum_combinations [vzero] wrapped_basis
                 [1%R]) quads) /\
  mat_get T 1 1
  = Rsum (map (kinetic_int Tables.binomial_prefactor
                 Tables.new_binomial_prefactor Tables.boys Tables.factorials
                 Tables.double_factorials Tables.am_leading_indices
                 Tables.angular_momentum_combinations [vzero] wrapped_basis
                 [1%R]) quads) /\
  mat_get V 1 1
  = Rsum (map (potential_int Tables.binomial_prefactor
                 Tables.new_binomial_prefactor Tables.boys Tables.factorials
                 Tables.double_factorials Tables.am_leading_indices
                 Tables.angular_momentum_combinations [vzero] wrapped_basis
                 [1%R]) quads).
Proof.
  apply (oei_arrays_wrap_and_drop Tables.binomial_prefactor
           Tables.new_binomial_prefactor Tables.boys Tables.factorials
           Tables.double_factorials Tables.am_leading_indices
           Tables.angular_momentum_combinations Tables.cartesian_product
           [vzero] wrapped_basis [1%R] 2 1 1); lia.
Defined.

(** ** The remaining symmetries of the fast two-electron tensor, and the
    nuclear repulsion *)

Section FastTeiSymmetry.

Local Open Scope R_scope.

(** Together with the exchange of the two pairs, the tensor of [tei_setup]
    followed by [tei_finish] has the full eightfold symmetry: it is also
    unchanged by the exchange of the two indices of the first pair, and of
    the two indices of the second pair. *)
Theorem fast_tei_eightfold (geom : list vec3) (basis : list R) (n : nat) :
  length basis = (length geom * 20)%nat ->
  exists Gtmp ba,
    FastIntegrals.tei_setup geom basis n = Some (Gtmp, ba) /\
    forall i j k l : nat,
      nd_at (FastIntegrals.tei_finish Gtmp ba) [j; i; k; l]
      = nd_at (FastIntegrals.tei_finish Gtmp ba) [i; j; k; l] /\
      nd_at (FastIntegrals.tei_finish Gtmp ba) [i; j; l; k]
      = nd_at (FastIntegrals.tei_finish Gtmp ba) [i; j; k; l].
Proof.
  intros Hlen.
  destruct (tei_setup_entries geom basis n Hlen) as (G & ba & Hs & He).
  exists G, ba. split; [exact Hs|].
  intros i j k l. unfold FastIntegrals.tei_finish. nd_eval.
  destruct (He i j k l) as [HG Hb]. destruct (He j i k l) as [HG1 Hb1].
  destruct (He i j l k) as [HG2 Hb2].
  rewrite HG, Hb, HG1, Hb1, HG2, Hb2.
  rewrite eri_arg_swap_pair, eri_factor_swap_pair.
  rewrite eri_arg_swap_pair2, eri_factor_swap_pair2.
  split; reflexivity.
Qed.

Lemma fast_tei_eightfold_witness :
  exists Gtmp ba,
    FastIntegrals.tei_setup [vzero] basis_ones 20 = Some (Gtmp, ba) /\
    forall i j k l : nat,
      nd_at (FastIntegrals.tei_finish Gtmp ba) [j; i; k; l]
      = nd_at (FastIntegrals.tei_finish Gtmp ba) [i; j; k; l] /\
      nd_at (FastIntegrals.tei_finish Gtmp ba) [i; j; l; k]
      = nd_at (FastIntegrals.tei_finish Gtmp ba) [i; j; k; l].
Proof.
  apply (fast_tei_eightfold [vzero] basis_ones 20). reflexivity.
Defined.

(** [nuclear_repulsion], in both files: the two definitions agree, the
    value does not depend on the order of the two atoms, and for two atoms
    at distance [d > 0] along z it is [1 / d], the charges being fixed
    at 1. *)
Theorem nuclear_repulsion_distance (a b : vec3) :
  Integrals.nuclear_repulsion a b = FastIntegrals.nuclear_repulsion a b /\
  FastIntegrals.nuclear_repulsion b a = FastIntegrals.nuclear_repulsion a b /\
  forall d : R, 0 < d ->
    FastIntegrals.nuclear_repulsion a (mkV (vx a) (vy a) (vz a + d)) = 1 / d.
Proof.
  split; [reflexivity|]. split.
  - unfold FastIntegrals.nuclear_repulsion.
    replace (vdot (vsub b a) (vsub b a)) with (vdot (vsub a b) (vsub a b))
      by (vec_eval; ring).
    reflexivity.
  - intros d Hd. unfold FastIntegrals.nuclear_repulsion.
    replace (vdot (vsub a (mkV (vx a) (vy a) (vz a + d)))
                  (vsub a (mkV (vx a) (vy a) (vz a + d))))
      with (Rsqr d) by (vec_eval; unfold Rsqr; ring).
    rewrite sqrt_Rsqr by lra. cbv zeta. replace 1.0 with 1 by lra. field. lra.
Qed.

End FastTeiSymmetry.

(** ** The general engine on s functions against the s-only kernels *)

Section SShell.

Local Open Scope R_scope.

Variable new_binomial_prefactor : Z -> Z -> Z -> list R -> list R -> R.
Variable double_factorials : Z -> R.

(** What the comparison needs of [integrals_utils]: on rows of precomputed
    powers, the binomial prefactor is 1 at index 0 for [(0, 0)], the square
    of the second displacement at index 0 for [(0, 2)], and 1 at index 2
    for [(0, 2)]; and the double factorials of -1 and 1 are 1. *)
Hypothesis nbp_000 : forall (u v : vec3) (m : nat), (m < 3)%nat ->
  new_binomial_prefactor 0 0 0 (nth m (Oei.pow_table u) [])
    (nth m (Oei.pow_table v) []) = 1.
Hypothesis nbp_002 : forall (u v : vec3) (m : nat), (m < 3)%nat ->
  new_binomial_prefactor 0 0 2 (nth m (Oei.pow_table u) [])
    (nth m (Oei.pow_table v) []) = vget v m * vget v m.
Hypothesis nbp_202 : forall (u v : vec3) (m : nat), (m < 3)%nat ->
  new_binomial_prefactor 2 0 2 (nth m (Oei.pow_table u) [])
    (nth m (Oei.pow_table v) []) = 1.
Hypothesis dfact_m1 : double_factorials (-1) = 1.
Hypothesis dfact_1 : double_factorials 1 = 1.

Let component := Oei.overlap_component new_binomial_prefactor double_factorials.

Lemma component_00 (u v : vec3) (m : nat) (gamma : R) :
  (m < 3)%nat ->
  component 0 0 (nth m (Oei.pow_table u) []) (nth m (Oei.pow_table v) []) gamma
  = 1.
Proof.
  intros Hm. unfold component, Oei.overlap_component.
  rewrite overlap_component_scope_eq. cbn [Oei.ov_total].
  change (countup (1 + (0 + 0) / 2)) with [0%Z].
  unfold Rsum, overlap_term. cbn [map fold_left].
  change (2 * 0)%Z with 0%Z. change (0 - 1)%Z with (-1)%Z.
  rewrite nbp_000 by exact Hm. rewrite dfact_m1. cbn [powerRZ]. field.
Qed.

Lemma component_02 (u v : vec3) (m : nat) (gamma : R) :
  (m < 3)%nat -> gamma <> 0 ->
  component 0 2 (nth m (Oei.pow_table u) []) (nth m (Oei.pow_table v) []) gamma
  = vget v m * vget v m + 1 / (2 * gamma).
Proof.
  intros Hm Hg. unfold component, Oei.overlap_component.
  rewrite overlap_component_scope_eq. cbn [Oei.ov_total].
  change (countup (1 + (0 + 2) / 2)) with [0%Z; 1%Z].
  unfold Rsum, overlap_term. cbn [map fold_left].
  change (2 * 0)%Z with 0%Z. change (0 - 1)%Z with (-1)%Z.
  change (2 * 1)%Z with 2%Z. change (2 - 1)%Z with 1%Z.
  rewrite nbp_002, nbp_202 by exact Hm. rewrite dfact_m1, dfact_1.
  cbn [powerRZ]. change (Pos.to_nat 1) with 1%nat. field. exact Hg.
Qed.

Lemma component_0m2 (PAx PBx : list R) (gamma : R) :
  component 0 (-2) PAx PBx gamma = 0.
Proof.
  unfold component, Oei.overlap_component.
  rewrite overlap_component_negative by lia. reflexivity.
Qed.

(** On two s functions the general engine computes the s-only kernels.
    Given the values of the binomial prefactor and of the double factorials
    listed above, and positive exponents, [overlap] and [kinetic] of
    [oei.py] at momenta [(0,0,0)], called the way [oei_arrays] calls them
    (pair prefactor, product centre, tables of powers), are the naive
    [overlap] and [kinetic] of [integrals.py] divided by the two
    normalisation constants. *)
Theorem oei_s_shell_matches_naive (aa bb : R) (A B : vec3) :
  0 < aa -> 0 < bb ->
  let gamma := aa + bb in
  let prefactor := exp (- aa * bb * vdot (vsub A B) (vsub A B) / gamma) in
  let P := vdiv (vadd (vscale aa A) (vscale bb B)) gamma in
  let PA_pow := Oei.pow_table (vsub P A) in
  let PB_pow := Oei.pow_table (vsub P B) in
  Integrals.normalize aa * Integrals.normalize bb
  * Oei.overlap new_binomial_prefactor double_factorials
      aa (0, 0, 0)%Z bb (0, 0, 0)%Z PA_pow PB_pow prefactor
  = Integrals.overlap aa bb A B /\
  Integrals.normalize aa * Integrals.normalize bb
  * Oei.kinetic new_binomial_prefactor double_factorials
      aa (0, 0, 0)%Z bb (0, 0, 0)%Z PA_pow PB_pow prefactor
  = Integrals.kinetic aa bb A B.
Proof.
  intros Ha Hb gamma prefactor P PA_pow PB_pow.
  assert (Hg : gamma <> 0) by (unfold gamma; lra).
  assert (Hpre : prefactor
                 = exp (vdot (vsub A B) (vsub A B) * (- aa * bb / (aa + bb)))).
  { unfold prefactor, gamma. f_equal. unfold Rdiv. ring. }
  assert (HS : forall lb mb nb,
            Oei.overlap new_binomial_prefactor double_factorials
              aa (0, 0, 0)%Z bb (lb, mb, nb) PA_pow PB_pow prefactor
            = prefactor * Rpower (PI / gamma) (3 / 2)
              * (component 0 lb (nth 0 PA_pow []) (nth 0 PB_pow []) gamma
                 * component 0 mb (nth 1 PA_pow []) (nth 1 PB_pow []) gamma
                 * component 0 nb (nth 2 PA_pow []) (nth 2 PB_pow []) gamma)).
  { intros lb mb nb. unfold Oei.overlap, component, gamma.
    replace 1.5 with (3 / 2) by lra. ring. }
  assert (H0 : Oei.overlap new_binomial_prefactor double_factorials
                 aa (0, 0, 0)%Z bb (0, 0, 0)%Z PA_pow PB_pow prefactor
               = prefactor * Rpower (PI / gamma) (3 / 2)).
  { rewrite HS. unfold PA_pow, PB_pow. rewrite !component_00 by lia. ring. }
  split.
  - rewrite H0, Hpre. unfold Integrals.overlap, Integrals.gp, gamma. ring.
  - unfold Oei.kinetic.
    change (0 + 2)%Z with 2%Z. change (0 - 2)%Z with (-2)%Z.
    change (0 * (0 - 1))%Z with 0%Z. change (2 * (0 + 0 + 0) + 3)%Z with 3%Z.
    rewrite H0, !HS. unfold PA_pow, PB_pow.
    rewrite !component_00, !component_02, !component_0m2 by (lia || exact Hg).
    cbn [vget].
    unfold Integrals.kinetic, Integrals.overlap, Integrals.gp.
    rewrite <- Hpre. fold gamma.
    replace (-1.0) with (-1) by lra. replace (-0.5) with (- (1 / 2)) by lra.
    unfold P. vec_eval. fold gamma.
    clear HS H0 Hpre. clearbody prefactor.
    generalize (Rpower (PI / gamma) (3 / 2)), (Integrals.normalize aa),
      (Integrals.normalize bb).
    intros r na nb. unfold gamma in *. field. exact Hg.
Qed.

End SShell.

Section SShellTables.

Local Open Scope R_scope.

Ltac table_eval :=
  cbv -[Rplus Rmult Rinv Ropp Rminus Rdiv IZR vx vy vz];
  unfold Rdiv; try field; try lra.

Lemma tables_nbp_000 (u v : vec3) (m : nat) :
  (m < 3)%nat ->
  Tables.new_binomial_prefactor 0 0 0 (nth m (Oei.pow_table u) [])
    (nth m (Oei.pow_table v) []) = 1.
Proof.
  intros Hm. destruct m as [|[|[|m]]]; try lia; table_eval.
Qed.

Lemma tables_nbp_002 (u v : vec3) (m : nat) :
  (m < 3)%nat ->
  Tables.new_binomial_prefactor 0 0 2 (nth m (Oei.pow_table u) [])
    (nth m (Oei.pow_table v) []) = vget v m * vget v m.
Proof.
  intros Hm. destruct m as [|[|[|m]]]; try lia; table_eval.
Qed.

Lemma tables_nbp_202 (u v : vec3) (m : nat) :
  (m < 3)%nat ->
  Tables.new_binomial_prefactor 2 0 2 (nth m (Oei.pow_table u) [])
    (nth m (Oei.pow_table v) []) = 1.
Proof.
  intros Hm. destruct m as [|[|[|m]]]; try lia; table_eval.
Qed.

Lemma tables_dfact_m1 : Tables.double_factorials (-1) = 1.
Proof. reflexivity. Qed.

Lemma tables_dfact_1 : Tables.double_factorials 1 = 1.
Proof. reflexivity. Qed.

End SShellTables.

Lemma oei_s_shell_matches_naive_witness :
  let B := mkV 0 0 1 in
  let gamma := (1 + 1)%R in
  let prefactor := exp (- 1 * 1 * vdot (vsub vzero B) (vsub vzero B) / gamma) in
  let P := vdiv (vadd (vscale 1 vzero) (vscale 1 B)) gamma in
  let PA_pow := Oei.pow_table (vsub P vzero) in
  let PB_pow := Oei.pow_table (vsub P B) in
  (Integrals.normalize 1 * Integrals.normalize 1
   * Oei.overlap Tables.new_binomial_prefactor Tables.double_factorials
       1 (0, 0, 0)%Z 1 (0, 0, 0)%Z PA_pow PB_pow prefactor
   = Integrals.overlap 1 1 vzero B)%R /\
  (Integrals.normalize 1 * Integrals.normalize 1
   * Oei.kinetic Tables.new_binomial_prefactor Tables.double_factorials
       1 (0, 0, 0)%Z 1 (0, 0, 0)%Z PA_pow PB_pow prefactor
   = Integrals.kinetic 1 1 vzero B)%R.
Proof.
  intros B.
  apply (oei_s_shell_matches_naive Tables.new_binomial_prefactor
           Tables.double_factorials tables_nbp_000 tables_nbp_002
           tables_nbp_202 tables_dfact_m1 tables_dfact_1 1%R 1%R vzero B);
    lra.
Defined.

(** ** The closed form of [eri], and the two vectorised tensors against it *)

Section EriAndBoys.

Local Open Scope R_scope.

(** The Boys function of order 0, [F0(x) = integral over [0,1] of
    exp(-x t^2)]: 1 at 0, and [erf(sqrt x) sqrt(pi) / (2 sqrt x)] for a
    positive argument. *)
Definition boys_function_0 (x : R) : R :=
  if Req_EM_T x 0 then 1 else erf (sqrt x) * sqrt PI / (2 * sqrt x).

Lemma boys_function_0_at_0 : boys_function_0 0 = 1.
Proof.
  unfold boys_function_0. destruct (Req_EM_T 0 0) as [_|H]; [reflexivity|].
  exfalso. apply H. reflexivity.
Qed.

Lemma boys_function_0_pos (x : R) :
  0 < x -> boys_function_0 x = boys_erf_form x.
Proof.
  intros Hx. unfold boys_function_0, boys_erf_form.
  destruct (Req_EM_T x 0) as [E|_]; [lra | reflexivity].
Qed.

(** For a positive argument the Boys function is the integral of the
    Gaussian over [[0, sqrt x]] divided by [sqrt x], which is the integral
    of [exp(-x t^2)] over [[0, 1]] after the substitution [u = sqrt x * t]. *)
Lemma boys_function_0_integral (x : R) :
  0 < x ->
  boys_function_0 x = RiemannInt (gauss_integrable 0 (sqrt x)) / sqrt x.
Proof.
  intros Hx. rewrite boys_function_0_pos by exact Hx.
  now apply boys_erf_form_integral.
Qed.

(** What [torchboys] returns at order 0 against the Boys function: the same
    value at 0 and from the threshold on, and in between the series
    [1 - x/3], which is below it by at most [1.5e-17]. *)
Lemma torchboys_vs_boys_function (x : R) :
  0 <= x ->
  (x = 0 \/ 1e-8 <= x -> Integrals.torchboys 0 x = boys_function_0 x) /\
  (0 < x < 1e-8 -> Integrals.torchboys 0 x = 1 - x / 3) /\
  0 <= boys_function_0 x - Integrals.torchboys 0 x <= 1.5e-17.
Proof.
  intros Hx. split; [|split].
  - intros [E|E].
    + subst x. rewrite boys_function_0_at_0, torchboys_below by lra. field.
    + rewrite boys_function_0_pos by lra. now apply torchboys_above.
  - intros [_ H]. now apply torchboys_below.
  - destruct (Req_dec x 0) as [E|E].
    + subst x. rewrite boys_function_0_at_0, torchboys_below by lra. lra.
    + assert (Hpos : 0 < x) by lra.
      rewrite boys_function_0_pos by exact Hpos.
      destruct (Rlt_dec x 1e-8) as [H|H].
      * rewrite torchboys_below by exact H.
        destruct (boys_erf_form_series x Hpos ltac:(lra)) as [HL HU].
        assert (x * x <= 1e-8 * 1e-8) by (apply Rmult_le_compat; lra).
        lra.
      * rewrite torchboys_above by lra. lra.
Qed.

(** C3.  For positive exponents, let [K] be the product of the two
    Gaussian-pair prefactors (the coefficients returned by [gp]), the four
    normalisation constants and
    [2 pi^(5/2) / ((aa+bb) (cc+dd) sqrt(aa+bb+cc+dd))], and let
    [x = |P-Q|^2 / (4 delta)], with [P], [Q] the product centres returned by
    [gp] and [delta = 1/(4(aa+bb)) + 1/(4(cc+dd))].  Then [eri] is [K]
    times the Boys function of order 0 at [x] whenever [x = 0] or
    [x >= 1e-8]; for [0 < x < 1e-8] it is [K (1 - x/3)], the series
    standing for the Boys function there; and in every case it is at most
    [K F0(x)] and falls short of it by at most [1.5e-17 K]. *)
Theorem eri_closed_form (aa bb cc dd : R) (A B C D : vec3) :
  0 < aa -> 0 < bb -> 0 < cc -> 0 < dd ->
  let P := fst (Integrals.gp aa bb A B) in
  let Q := fst (Integrals.gp cc dd C D) in
  let delta := 1 / (4 * (aa + bb)) + 1 / (4 * (cc + dd)) in
  let x := vdot (vsub P Q) (vsub P Q) / (4 * delta) in
  let K := snd (Integrals.gp aa bb A B) * snd (Integrals.gp cc dd C D)
           * (Integrals.normalize aa * Integrals.normalize bb
              * Integrals.normalize cc * Integrals.normalize dd)
           * (2 * Rpower PI (5 / 2)
              / ((aa + bb) * (cc + dd) * sqrt (aa + bb + cc + dd))) in
  (x = 0 \/ 1e-8 <= x ->
     Integrals.eri aa bb cc dd A B C D = K * boys_function_0 x) /\
  (0 < x < 1e-8 ->
     Integrals.eri aa bb cc dd A B C D = K * (1 - x / 3)) /\
  0 <= K * boys_function_0 x - Integrals.eri aa bb cc dd A B C D
    <= 1.5e-17 * K.
Proof.
  intros Ha Hb Hc Hd P Q delta x K.
  assert (He : Integrals.eri aa bb cc dd A B C D = K * Integrals.torchboys 0 x).
  { unfold K, x, delta, P, Q.
    exact (eri_factorised aa bb cc dd A B C D Ha Hb Hc Hd). }
  assert (Hx : 0 <= x).
  { exact (eri_arg_nonneg aa bb cc dd A B C D Ha Hb Hc Hd). }
  assert (HK : 0 < K).
  { unfold K, Integrals.gp. cbn [snd].
    pose proof (normalize_pos aa). pose proof (normalize_pos bb).
    pose proof (normalize_pos cc). pose proof (normalize_pos dd).
    assert (0 < Rpower PI (5 / 2)) by (unfold Rpower; apply exp_pos).
    assert (0 < sqrt (aa + bb + cc + dd)) by (apply sqrt_lt_R0; lra).
    assert (0 < (aa + bb) * (cc + dd) * sqrt (aa + bb + cc + dd))
      by (repeat apply Rmult_lt_0_compat; lra).
    assert (0 < 2) by lra.
    repeat first [assumption | apply exp_pos | apply Rdiv_lt_0_compat
                 | apply Rmult_lt_0_compat]. }
  destruct (torchboys_vs_boys_function x Hx) as (H1 & H2 & H3).
  rewrite He. split; [|split].
  - intros H. rewrite (H1 H). reflexivity.
  - intros H. rewrite (H2 H). reflexivity.
  - set (t := Integrals.torchboys 0 x) in *.
    set (f := boys_function_0 x) in *. split; nra.
Qed.

Lemma eri_closed_form_witness :
  let Cz := mkV 0 0 1 in
  let P := fst (Integrals.gp 1 1 vzero vzero) in
  let Q := fst (Integrals.gp 1 1 Cz Cz) in
  let delta := 1 / (4 * (1 + 1)) + 1 / (4 * (1 + 1)) in
  let x := vdot (vsub P Q) (vsub P Q) / (4 * delta) in
  let K := snd (Integrals.gp 1 1 vzero vzero) * snd (Integrals.gp 1 1 Cz Cz)
           * (Integrals.normalize 1 * Integrals.normalize 1
              * Integrals.normalize 1 * Integrals.normalize 1)
           * (2 * Rpower PI (5 / 2)
              / ((1 + 1) * (1 + 1) * sqrt (1 + 1 + 1 + 1))) in
  (x = 0 \/ 1e-8 <= x ->
     Integrals.eri 1 1 1 1 vzero vzero Cz Cz = K * boys_function_0 x) /\
  (0 < x < 1e-8 ->
     Integrals.eri 1 1 1 1 vzero vzero Cz Cz = K * (1 - x / 3)) /\
  0 <= K * boys_function_0 x - Integrals.eri 1 1 1 1 vzero vzero Cz Cz
    <= 1.5e-17 * K.
Proof.
  intros Cz.
  apply (eri_closed_form 1 1 1 1 vzero vzero Cz Cz); lra.
Defined.

End EriAndBoys.

Section VectorisedAgainstEri.

Local Open Scope R_scope.

(** A lower bound on pi, from the series of [2 atan(1/3) + atan(1/7)]. *)
Lemma PI_lower : 3.1415926535897 < PI.
Proof.
  pose proof (PI_2_3_7_ineq 6) as [H _].
  change (S (2 * 6)) with 13%nat in H.
  unfold sum_f_R0, tg_alt, PI_2_3_7_tg, Ratan_seq in H.
  cbn [Nat.mul Nat.add] in H.
  rewrite !INR_IZR_INZ in H. cbn [Z.of_nat Pos.of_succ_nat Pos.succ] in H.
  lra.
Qed.

(** The value [tei_finish] writes against the one [eri] uses: equal away
    from the threshold, and on it lower by at most [1.5e-17]. *)
Lemma F_masked_vs_torchboys (x : R) :
  exists d : R,
    0 <= d <= 1.5e-17 /\
    FastIntegrals.F_masked x = Integrals.torchboys 0 x - d /\
    (x <> 1e-8 -> d = 0).
Proof.
  destruct (Req_dec x 1e-8) as [E|E].
  - subst x. exists (boys_erf_form 1e-8 - (1 - 1e-8 / 3)).
    destruct (boys_erf_form_series 1e-8 ltac:(lra) ltac:(lra)) as [HL HU].
    split; [lra|]. split; [|intros H; exfalso; apply H; reflexivity].
    rewrite F_masked_below, torchboys_above by lra. ring.
  - exists 0. split; [lra|]. split; [|reflexivity].
    rewrite F_masked_torchboys by exact E. ring.
Qed.

(** C9, as amended.  On an all-s basis with 20 functions per atom, every
    element of [tei_finish (tei_setup ...)] is the value of [eri] at the
    exponents of the four functions and the centres of their atoms: exactly
    so unless the Boys argument is exactly the threshold [1e-8], where
    [tei_finish] takes the series value and is below [eri] by at most
    [1.5e-17] times the prefactor [Gtmp].  [vectorized_tei] is another
    function: with [sqrt(pi)/2] replaced by the decimal constant
    [0.8862269254527580], an element is the prefactor of [eri] times the
    Boys function of order 0 at the Boys argument clamped from below at
    [1e-12]; it is [0.8862269254527580 / (sqrt(pi)/2)] times the value of
    [eri] when the Boys argument is at least [1e-8]. *)
Theorem tei_fast_refines_eri (geom : list vec3) (basis : list R) (n : nat)
    (nbf_per_atom : list nat) (centers : list vec3) :
  length basis = (length geom * 20)%nat ->
  Integrals.repeat_interleave geom nbf_per_atom = Some centers ->
  length centers = length basis ->
  (exists Gtmp ba,
     FastIntegrals.tei_setup geom basis n = Some (Gtmp, ba) /\
     forall i j k l : nat,
       let e := Integrals.eri (fast_exp basis i) (fast_exp basis j)
                  (fast_exp basis k) (fast_exp basis l)
                  (fast_center geom i) (fast_center geom j)
                  (fast_center geom k) (fast_center geom l) in
       (nd_at ba [i; j; k; l] <> 1e-8 ->
        nd_at (FastIntegrals.tei_finish Gtmp ba) [i; j; k; l] = e) /\
       exists d : R,
         0 <= d <= 1.5e-17 /\
         nd_at (FastIntegrals.tei_finish Gtmp ba) [i; j; k; l]
         = e - d * nd_at Gtmp [i; j; k; l]) /\
  (exists G,
     Integrals.vectorized_tei basis geom nbf_per_atom = Some G /\
     forall i j k l : nat,
       (i < length basis)%nat -> (j < length basis)%nat ->
       (k < length basis)%nat -> (l < length basis)%nat ->
       let x := eri_arg (nth i basis 0) (nth j basis 0) (nth k basis 0)
                  (nth l basis 0) (nth i centers vzero) (nth j centers vzero)
                  (nth k centers vzero) (nth l centers vzero) in
       nd_at G [i; j; k; l] * (sqrt PI / 2)
       = 0.8862269254527580
         * (eri_factor (nth i basis 0) (nth j basis 0) (nth k basis 0)
              (nth l basis 0) (nth i centers vzero) (nth j centers vzero)
              (nth k centers vzero) (nth l centers vzero)
            * boys_function_0 (Rmax 1e-12 x)) /\
       (1e-8 <= x ->
        nd_at G [i; j; k; l] * (sqrt PI / 2)
        = 0.8862269254527580
          * Integrals.eri (nth i basis 0) (nth j basis 0) (nth k basis 0)
              (nth l basis 0) (nth i centers vzero) (nth j centers vzero)
              (nth k centers vzero) (nth l centers vzero))).
Proof.
  intros Hlen Hc Hlc. split.
  - destruct (tei_setup_entries geom basis n Hlen) as (G & ba & Hs & He).
    exists G, ba. split; [exact Hs|].
    intros i j k l. cbv zeta. unfold FastIntegrals.tei_finish. nd_eval.
    destruct (He i j k l) as [HG Hb].
    destruct (F_masked_vs_torchboys (nd_at ba [i; j; k; l])) as (d & Hd & HF & H0).
    rewrite HF, eri_split, <- Hb, <- HG. split.
    + intros Hne. rewrite (H0 Hne). ring.
    + exists d. split; [exact Hd | ring].
  - destruct (vectorized_tei_entries geom basis nbf_per_atom centers Hc Hlc)
      as (G & HG & He).
    exists G. split; [exact HG|].
    intros i j k l Hi Hj Hk Hl.
    rewrite (He i j k l Hi Hj Hk Hl). cbv zeta.
    rewrite eri_split.
    set (x := eri_arg _ _ _ _ _ _ _ _) in *.
    assert (Hm : 0 < Rmax 1e-12 x).
    { apply Rlt_le_trans with 1e-12; [lra | apply Rmax_l]. }
    split.
    + rewrite boys_function_0_pos by exact Hm. unfold boys_erf_form.
      assert (0 < sqrt (Rmax 1e-12 x)) by (apply sqrt_lt_R0; exact Hm).
      set (s := sqrt (Rmax 1e-12 x)) in *. clearbody s.
      assert (Hp : 0 < sqrt PI) by (apply sqrt_lt_R0, PI_RGT_0).
      generalize dependent (sqrt PI). intros p Hp.
      generalize (erf s). intros e.
      unfold Rdiv. field. lra.
    + intros Harg. rewrite Rmax_right by lra.
      rewrite torchboys_above by exact Harg. unfold boys_erf_form.
      unfold Rdiv. rewrite Rinv_mult. ring.
Qed.

Lemma tei_fast_refines_eri_witness :
  let geom := geom_far in
  let centers := repeat vzero 20 ++ repeat (mkV 0 0 2) 20 in
  (exists Gtmp ba,
     FastIntegrals.tei_setup geom basis_half 20 = Some (Gtmp, ba) /\
     forall i j k l : nat,
       let e := Integrals.eri (fast_exp basis_half i) (fast_exp basis_half j)
                  (fast_exp basis_half k) (fast_exp basis_half l)
                  (fast_center geom i) (fast_center geom j)
                  (fast_center geom k) (fast_center geom l) in
       (nd_at ba [i; j; k; l] <> 1e-8 ->
        nd_at (FastIntegrals.tei_finish Gtmp ba) [i; j; k; l] = e) /\
       exists d : R,
         0 <= d <= 1.5e-17 /\
         nd_at (FastIntegrals.tei_finish Gtmp ba) [i; j; k; l]
         = e - d * nd_at Gtmp [i; j; k; l]) /\
  (exists G,
     Integrals.vectorized_tei basis_half geom [20; 20]%nat = Some G /\
     forall i j k l : nat,
       (i < length basis_half)%nat -> (j < length basis_half)%nat ->
       (k < length basis_half)%nat -> (l < length basis_half)%nat ->
       let x := eri_arg (nth i basis_half 0) (nth j basis_half 0)
                  (nth k basis_half 0) (nth l basis_half 0)
                  (nth i centers vzero) (nth j centers vzero)
                  (nth k centers vzero) (nth l centers vzero) in
       nd_at G [i; j; k; l] * (sqrt PI / 2)
       = 0.8862269254527580
         * (eri_factor (nth i basis_half 0) (nth j basis_half 0)
              (nth k basis_half 0) (nth l basis_half 0)
              (nth i centers vzero) (nth j centers vzero)
              (nth k centers vzero) (nth l centers vzero)
            * boys_function_0 (Rmax 1e-12 x)) /\
       (1e-8 <= x ->
        nd_at G [i; j; k; l] * (sqrt PI / 2)
        = 0.8862269254527580
          * Integrals.eri (nth i basis_half 0) (nth j basis_half 0)
              (nth k basis_half 0) (nth l basis_half 0)
              (nth i centers vzero) (nth j centers vzero)
              (nth k centers vzero) (nth l centers vzero))).
Proof.
  intros geom centers.
  apply (tei_fast_refines_eri geom basis_half 20 [20; 20]%nat centers);
    reflexivity.
Defined.

Lemma sqrt_1e12 : sqrt 1e-12 = 1e-6.
Proof. apply sqrt_lem_1; lra. Qed.

(** C9 as stated fails for [vectorized_tei].  With the forty functions of
    exponent 1/2 on two atoms, the four functions of the element
    [(0, 0, 0, 0)] sit on the same atom: the Boys argument is 0, [eri]
    takes the series value 1 there, while [vectorized_tei] clamps the
    argument at [1e-12] and evaluates the error-function form at
    [sqrt(1e-12)], which gives less than [1 - 3e-13] times the value of
    [eri]. *)
Lemma vectorized_tei_clamp_differs :
  exists G,
    Integrals.vectorized_tei basis_half geom_far [20; 20]%nat = Some G /\
    0 < Integrals.eri (1 / 2) (1 / 2) (1 / 2) (1 / 2) vzero vzero vzero vzero /\
    nd_at G [0; 0; 0; 0]%nat
    <= (1 - 3e-13)
       * Integrals.eri (1 / 2) (1 / 2) (1 / 2) (1 / 2) vzero vzero vzero vzero.
Proof.
  destruct (vectorized_tei_entries geom_far basis_half [20; 20]%nat
              (repeat vzero 20 ++ repeat (mkV 0 0 2) 20) eq_refl eq_refl)
    as (G & HG & He).
  exists G. split; [exact HG|].
  assert (H40 : (0 < length basis_half)%nat) by (cbn; lia).
  pose proof (He 0 0 0 0 H40 H40 H40 H40)%nat as E. cbv zeta in E.
  unfold basis_half in E. cbn [nth repeat app] in E.
  assert (Harg : eri_arg (1 / 2) (1 / 2) (1 / 2) (1 / 2) vzero vzero vzero vzero = 0).
  { unfold eri_arg. cbv zeta. vec_eval. unfold vzero. cbn [vx vy vz]. lra. }
  rewrite Harg, Rmax_left, sqrt_1e12 in E by lra.
  pose proof (eri_factor_pos (1 / 2) (1 / 2) (1 / 2) (1 / 2)
                vzero vzero vzero vzero ltac:(lra) ltac:(lra) ltac:(lra)
                ltac:(lra)) as Hf.
  assert (Heri : Integrals.eri (1 / 2) (1 / 2) (1 / 2) (1 / 2)
                   vzero vzero vzero vzero
                 = eri_factor (1 / 2) (1 / 2) (1 / 2) (1 / 2)
                     vzero vzero vzero vzero).
  { rewrite eri_split, Harg, torchboys_below by lra. field. }
  rewrite Heri, E. split; [exact Hf|].
  set (f := eri_factor _ _ _ _ _ _ _ _) in *.
  (* the error function at 1e-6 *)
  pose proof (gauss_integral_upper 1e-6 ltac:(lra)) as HI.
  pose proof (gauss_integral_pos 1e-6 ltac:(lra)) as HI0.
  unfold erf. set (I := RiemannInt (gauss_integrable 0 1e-6)) in *.
  assert (Hpi : 0 < sqrt PI) by (apply sqrt_lt_R0, PI_RGT_0).
  set (c := 0.8862269254527580).
  set (u := 1 - 1e-6 * 1e-6 / 3 + 3 * (1e-6 * 1e-6 * 1e-6 * 1e-6) / 20).
  assert (HIu : I <= 1e-6 * u) by (unfold u; lra).
  assert (Hsq : (2 * c * u) * (2 * c * u) <= ((1 - 3e-13) * (1 - 3e-13)) * PI).
  { pose proof PI_lower. unfold c, u. lra. }
  assert (Hcu : 2 * c * u <= (1 - 3e-13) * sqrt PI).
  { assert (H0 : 0 <= 2 * c * u) by (unfold c, u; lra).
    rewrite <- (sqrt_square (2 * c * u)) by exact H0.
    rewrite <- (sqrt_square (1 - 3e-13)) by lra.
    rewrite <- sqrt_mult by (try apply Rlt_le, PI_RGT_0; lra).
    apply sqrt_le_1_alt. exact Hsq. }
  replace (f * c / 1e-6 * (2 / sqrt PI * I))
    with (f * ((2 * c * (I / 1e-6)) / sqrt PI)) by (field; lra).
  rewrite (Rmult_comm (1 - 3e-13) f).
  apply Rmult_le_compat_l; [lra|].
  apply (Rmult_le_reg_r (sqrt PI)); [exact Hpi|].
  replace (2 * c * (I / 1e-6) / sqrt PI * sqrt PI) with (2 * c * (I / 1e-6))
    by (field; lra).
  apply Rle_trans with (2 * c * u); [|exact Hcu].
  assert (I / 1e-6 <= u) by (apply (Rmult_le_reg_r 1e-6); [lra|];
    replace (I / 1e-6 * 1e-6) with I by (field; lra); lra).
  unfold c. nra.
Qed.

End VectorisedAgainstEri.
